(** * react-svg-image: the SVG-to-raster pipeline of [src/index.ts]

    A shallow embedding of [renderSvgAsImage] and its helpers, together with
    the parts of the browser platform the helpers call (strings and their
    encodings, the element tree, selectors, the canvas size attributes and
    promises), followed by the properties of the pipeline. *)

From Stdlib Require Import ZArith QArith Qround Qpower List String Ascii Lia Permutation.
From Stdlib Require Import PrimFloat FloatOps SpecFloat.
From stdpp Require Import gmap strings list.

Local Set Warnings "-register-all".
Local Set Warnings "-inexact-float".

Local Open Scope Z_scope.

(** ** Errors

    The exceptions the pipeline can see: the ones [index.ts] constructs with
    [new Error(...)], the ones the platform raises, and whatever the
    registered rendering callback rejects with. *)

Inductive JSError : Type :=
| TypeError (msg : string)
| URIError
| InvalidCharacterError
| NotFoundError
| Error (msg : string)
| RendererError (msg : string).

(** The message of the TypeError that reading the property [prop] of
    [undefined] raises, in the wording of V8; how an engine words it is its
    own affair. *)
Definition undefined_property_message (prop : string) : string :=
  "Cannot read properties of undefined (reading '" ++ prop ++ "')".

Inductive result (A : Type) : Type :=
| Ok (a : A)
| Throw (e : JSError).
Arguments Ok {A} a.
Arguments Throw {A} e.

(** A call that mutates its argument: the argument as the call leaves it,
    whether the call returned or threw. *)
Inductive mutation (A : Type) : Type :=
| Returns (a : A)
| Throws (e : JSError) (a : A).
Arguments Returns {A} a.
Arguments Throws {A} e a.

Definition result_map {A B} (f : A -> B) (r : result A) : result B :=
  match r with
  | Ok a => Ok (f a)
  | Throw e => Throw e
  end.

(** ** Strings

    A JavaScript string is a sequence of 16-bit code units. *)

Definition JSString := list Z.

Definition code_unit (u : Z) : Prop := 0 <= u < 65536.

Definition is_code_unit (u : Z) : bool := (0 <=? u) && (u <? 65536).

Definition is_js_string (s : JSString) : bool := forallb is_code_unit s.

Fixpoint units_of_string (s : string) : JSString :=
  match s with
  | EmptyString => []
  | String a rest => Z.of_N (N_of_ascii a) :: units_of_string rest
  end.

Definition is_leading_surrogate (u : Z) : bool := (0xD800 <=? u) && (u <=? 0xDBFF).
Definition is_trailing_surrogate (u : Z) : bool := (0xDC00 <=? u) && (u <=? 0xDFFF).

(** UTF16SurrogatePairToCodePoint of ECMA-262. *)
Definition surrogate_pair_to_code_point (lead trail : Z) : Z :=
  (lead - 0xD800) * 0x400 + (trail - 0xDC00) + 0x10000.

(** The UTF-8 transformation of one code point. *)
Definition utf8_octets (cp : Z) : list Z :=
  if cp <? 0x80 then [cp]
  else if cp <? 0x800 then [0xC0 + cp / 64; 0x80 + cp mod 64]
  else if cp <? 0x10000 then
    [0xE0 + cp / 4096; 0x80 + (cp / 64) mod 64; 0x80 + cp mod 64]
  else
    [0xF0 + cp / 262144; 0x80 + (cp / 4096) mod 64;
     0x80 + (cp / 64) mod 64; 0x80 + cp mod 64].

(** *** [encodeURIComponent]

    ECMA-262 Encode with the unreserved set of [encodeURIComponent]: ASCII
    letters, digits and [-_.!~*'()] are kept, every other code point is
    replaced by the percent-escapes of its UTF-8 octets, and an unpaired
    surrogate raises URIError. *)

Definition is_uri_unescaped (u : Z) : bool :=
  ((0x41 <=? u) && (u <=? 0x5A)) || ((0x61 <=? u) && (u <=? 0x7A))
  || ((0x30 <=? u) && (u <=? 0x39))
  || (u =? 0x2D) || (u =? 0x5F) || (u =? 0x2E) || (u =? 0x21) || (u =? 0x7E)
  || (u =? 0x2A) || (u =? 0x27) || (u =? 0x28) || (u =? 0x29).

(** Upper-case hexadecimal digit of a value below 16. *)
Definition hex_digit (d : Z) : Z := if d <? 10 then 0x30 + d else 0x41 + (d - 10).

Definition percent_escape (octet : Z) : list Z :=
  [0x25; hex_digit (octet / 16); hex_digit (octet mod 16)].

Definition percent_escapes (octets : list Z) : list Z :=
  flat_map percent_escape octets.

Fixpoint encodeURIComponent (s : JSString) : result JSString :=
  match s with
  | [] => Ok []
  | c :: rest =>
    if is_uri_unescaped c then result_map (cons c) (encodeURIComponent rest)
    else if is_leading_surrogate c then
      match rest with
      | d :: rest' =>
        if is_trailing_surrogate d then
          result_map (app (percent_escapes (utf8_octets (surrogate_pair_to_code_point c d))))
                     (encodeURIComponent rest')
        else Throw URIError
      | [] => Throw URIError
      end
    else if is_trailing_surrogate c then Throw URIError
    else result_map (app (percent_escapes (utf8_octets c))) (encodeURIComponent rest)
  end.

(** *** [unescape]

    ECMA-262 Annex B: [%XX] and [%uXXXX] with hexadecimal digits are replaced
    by the code unit they denote, everything else is copied. *)

Definition hex_value (u : Z) : option Z :=
  if (0x30 <=? u) && (u <=? 0x39) then Some (u - 0x30)
  else if (0x41 <=? u) && (u <=? 0x46) then Some (u - 0x41 + 10)
  else if (0x61 <=? u) && (u <=? 0x66) then Some (u - 0x61 + 10)
  else None.

Definition hex_value2 (a b : Z) : option Z :=
  match hex_value a, hex_value b with
  | Some x, Some y => Some (x * 16 + y)
  | _, _ => None
  end.

Definition hex_value4 (a b c d : Z) : option Z :=
  match hex_value2 a b, hex_value2 c d with
  | Some x, Some y => Some (x * 256 + y)
  | _, _ => None
  end.

Fixpoint unescape (s : JSString) : JSString :=
  match s with
  | [] => []
  | c :: rest =>
    if c =? 0x25 then
      match rest with
      | a :: r1 =>
        match r1 with
        | b :: r2 =>
          if a =? 0x75 then
            match r2 with
            | x :: y :: z :: r5 =>
              match hex_value4 b x y z with
              | Some n => n :: unescape r5
              | None => c :: unescape rest
              end
            | _ => c :: unescape rest
            end
          else
            match hex_value2 a b with
            | Some n => n :: unescape r2
            | None => c :: unescape rest
            end
        | [] => c :: unescape rest
        end
      | [] => c :: unescape rest
      end
    else c :: unescape rest
  end.

(** *** [btoa]

    The input must be a binary string (every code unit at most 255),
    otherwise InvalidCharacterError; the output is padded base64. *)

Definition base64_char (sextet : Z) : Z :=
  if sextet <? 26 then 0x41 + sextet
  else if sextet <? 52 then 0x61 + (sextet - 26)
  else if sextet <? 62 then 0x30 + (sextet - 52)
  else if sextet =? 62 then 0x2B
  else 0x2F.

Fixpoint base64_encode (octets : list Z) : list Z :=
  match octets with
  | [] => []
  | b0 :: r0 =>
    match r0 with
    | [] => [base64_char (b0 / 4); base64_char ((b0 mod 4) * 16); 0x3D; 0x3D]
    | b1 :: r1 =>
      match r1 with
      | [] =>
        [base64_char (b0 / 4); base64_char ((b0 mod 4) * 16 + b1 / 16);
         base64_char ((b1 mod 16) * 4); 0x3D]
      | b2 :: r2 =>
        base64_char (b0 / 4) :: base64_char ((b0 mod 4) * 16 + b1 / 16)
        :: base64_char ((b1 mod 16) * 4 + b2 / 64) :: base64_char (b2 mod 64)
        :: base64_encode r2
      end
    end
  end.

Definition is_octet (u : Z) : bool := (0 <=? u) && (u <=? 255).

Definition btoa (s : JSString) : result JSString :=
  if forallb is_octet s then Ok (base64_encode s) else Throw InvalidCharacterError.

(** *** The image source of [copyToCanvas]

    ["data:image/svg+xml;base64," + btoa(unescape(encodeURIComponent(svgData)))] *)

Definition svg_data_uri_prefix : JSString := units_of_string "data:image/svg+xml;base64,".

Definition image_src (svgData : JSString) : result JSString :=
  match encodeURIComponent svgData with
  | Throw e => Throw e
  | Ok escaped =>
    match btoa (unescape escaped) with
    | Throw e => Throw e
    | Ok b64 => Ok (svg_data_uri_prefix ++ b64)
    end
  end.

(** ** The element tree

    An element has an identity ([nid], standing for the object identity of a
    DOM node), a tag name, attributes, an inline style declaration and its
    element children in document order. *)

Inductive Node : Type :=
  mkNode { nid : nat;
           tagName : string;
           attributes : gmap string string;
           style : gmap string string;
           children : list Node }.

Definition with_children (n : Node) (cs : list Node) : Node :=
  mkNode (nid n) (tagName n) (attributes n) (style n) cs.

Definition with_style (n : Node) (st : gmap string string) : Node :=
  mkNode (nid n) (tagName n) (attributes n) st (children n).

(** Proper descendants in document order, each with its index among the
    element children of its parent. *)
Fixpoint located_descendants (n : Node) : list (nat * Node) :=
  (fix go (i : nat) (cs : list Node) : list (nat * Node) :=
     match cs with
     | [] => []
     | c :: cs' => (i, c) :: located_descendants c ++ go (S i) cs'
     end) 0%nat (children n).

Definition descendants (n : Node) : list Node := map snd (located_descendants n).

(** Identities of a node and of everything below it. *)
Definition node_ids (n : Node) : list nat := nid n :: map nid (descendants n).

Definition unique_ids (n : Node) : Prop := NoDup (node_ids n).

(** *** Selectors

    The compound selectors the pipeline is used with: a conjunction of
    simple selectors. [SelNthChild] is the structural pseudo-class
    [:nth-child(k)] ([:first-child] is [SelNthChild 1]); the others look at
    the element alone. *)

Inductive SimpleSelector : Type :=
| SelUniversal
| SelType (tag : string)
| SelHasAttr (name : string)
| SelAttr (name value : string)
| SelNthChild (k : nat).

Definition Selector := list SimpleSelector.

Definition matches_simple (s : SimpleSelector) (index : nat) (n : Node) : bool :=
  match s with
  | SelUniversal => true
  | SelType t => String.eqb (tagName n) t
  | SelHasAttr a => bool_decide (is_Some (attributes n !! a))
  | SelAttr a v => bool_decide (attributes n !! a = Some v)
  | SelNthChild k => Nat.eqb (S index) k
  end.

Definition matches (sel : Selector) (index : nat) (n : Node) : bool :=
  forallb (fun s => matches_simple s index n) sel.

Definition simple_is_local (s : SimpleSelector) : bool :=
  match s with
  | SelNthChild _ => false
  | _ => true
  end.

Definition selector_is_local (sel : Selector) : bool := forallb simple_is_local sel.

(** [Element.querySelectorAll]: the proper descendants that match, in
    document order, as a static list. *)
Definition querySelectorAll (sel : Selector) (n : Node) : list Node :=
  map snd (filter (fun p => matches sel (fst p) (snd p) = true) (located_descendants n)).

(** [Element.querySelector]: the first of them. *)
Definition querySelector (sel : Selector) (n : Node) : option Node :=
  head (querySelectorAll sel n).

(** [el.parentNode?.removeChild(el)] as seen from the tree under [n]: the
    element with identity [id] leaves the child list of its parent. An
    element that is no longer in the tree (its ancestor was detached before)
    is taken out of a parent that is itself outside the tree, which changes
    nothing under [n]. *)
Fixpoint detach (id : nat) (n : Node) : Node :=
  with_children n
    ((fix go (cs : list Node) : list Node :=
        match cs with
        | [] => []
        | c :: cs' => if Nat.eqb (nid c) id then go cs' else detach id c :: go cs'
        end) (children n)).

(** [parent.removeChild(child)]: NotFoundError unless [child] is a child of
    [parent]. *)
Definition removeChild (parent child : Node) : result Node :=
  if existsb (fun c => Nat.eqb (nid c) (nid child)) (children parent)
  then Ok (with_children parent
             (filter (fun c => Nat.eqb (nid c) (nid child) = false) (children parent)))
  else Throw NotFoundError.

Definition appendChild (parent child : Node) : Node :=
  with_children parent (children parent ++ [child]).

(** ** [normaliseSvg], removal phase

    For each selector in turn, the static list of matching descendants is
    taken and every element of it is removed from its parent. *)

Definition remove_all (els : list Node) (svg : Node) : Node :=
  fold_left (fun t el => detach (nid el) t) els svg.

Definition remove_ignored (svg : Node) (ignoreAllSelectors : list Selector) : Node :=
  fold_left (fun t selector => remove_all (querySelectorAll selector t) t)
            ignoreAllSelectors svg.

(** ** [inlineStyles]

    The computed style of an element is what [window.getComputedStyle]
    reports for it: property names in index order, each with its resolved
    value. *)

Definition ComputedStyle := list (string * string).

Fixpoint computed_value (computed : ComputedStyle) (key : string) : string :=
  match computed with
  | [] => ""
  | (k, v) :: rest => if String.eqb k key then v else computed_value rest key
  end.

(** The assignment [element.style[key] = value] on a declaration block.
    What a CSSStyleDeclaration makes of it (it parses the value and keeps
    what the value serialises to, a shorthand as its longhands) is the
    platform's: the setter is a parameter. *)
Definition StyleSetter : Type := string -> string -> gmap string string -> gmap string string.

(** A declaration block that keeps the assigned strings as they are. *)
Definition verbatim_setter : StyleSetter := fun key value st => <[key := value]> st.

(** The loop [for (const styleKey of computed)]. *)
Definition copy_computed (setStyle : StyleSetter) (computed : ComputedStyle)
           (st : gmap string string) : gmap string string :=
  fold_left (fun acc styleKey =>
               if String.eqb styleKey "visibility" then acc
               else setStyle styleKey (computed_value computed styleKey) acc)
            (map fst computed) st.

Section InlineStyles.
Variable getComputedStyle : Node -> ComputedStyle.
Variable setStyle : StyleSetter.

(** [inlineStyles(source, undefined)], the call for a child the target does
    not have: the first assignment reads [style] of [undefined] and raises
    TypeError; with nothing to assign, the loop over the children of the
    source reads [children] of [undefined] and raises it; a source with
    neither returns. *)
Definition inlineStyles_undefined (source : Node) : result unit :=
  if existsb (fun styleKey => negb (String.eqb styleKey "visibility"))
             (map fst (getComputedStyle source))
  then Throw (TypeError (undefined_property_message "style"))
  else match children source with
       | [] => Ok tt
       | _ :: _ => Throw (TypeError (undefined_property_message "children"))
       end.

(** [inlineStyles] writes into the target, so the call is modelled by the
    target as it leaves it: the style of the target is assigned before the
    children are visited, and a call that throws at some child keeps what
    was written until then. [target.children[i]] is undefined when the
    target has fewer children than the source; children of the target
    beyond the source's are not visited. *)
Fixpoint inlineStyles (source target : Node) {struct source} : mutation Node :=
  let st := copy_computed setStyle (getComputedStyle source) (style target) in
  match
    (fix go (ss ts : list Node) {struct ss} : mutation (list Node) :=
       match ss with
       | [] => Returns ts
       | s :: ss' =>
         match ts with
         | [] =>
           match inlineStyles_undefined s with
           | Throw e => Throws e []
           | Ok _ => go ss' []
           end
         | t :: ts' =>
           match inlineStyles s t with
           | Throws e t' => Throws e (t' :: ts')
           | Returns t' =>
             match go ss' ts' with
             | Throws e r => Throws e (t' :: r)
             | Returns r => Returns (t' :: r)
             end
           end
         end
       end) (children source) (children target)
  with
  | Throws e cs => Throws e (mkNode (nid target) (tagName target) (attributes target) st cs)
  | Returns cs => Returns (mkNode (nid target) (tagName target) (attributes target) st cs)
  end.

(** [normaliseSvg]: removal, then [inlineStyles(svg, svg)]. *)
Definition normaliseSvg (svg : Node) (ignoreAllSelectors : list Selector) : mutation Node :=
  let svg' := remove_ignored svg ignoreAllSelectors in
  inlineStyles svg' svg'.
End InlineStyles.

(** ** The canvas

    JavaScript numbers are IEEE 754 binary64 values: [float], with its
    primitive operations, so a product is the correctly rounded one. *)

Record DOMRect := { rect_width : float; rect_height : float }.

(** The template literal [`${v}px`]. *)
Inductive CssLength : Type := Px (v : float).

(** A canvas: its pixel dimensions, the lengths assigned to [style.width]
    and [style.height], the scale of its 2D context and the images drawn. *)
Record Canvas := {
  width : Z;
  height : Z;
  style_width : option CssLength;
  style_height : option CssLength;
  context_scale : float * float;
  drawn : list JSString
}.

(** WebIDL IntegerPart of a finite number: rounding towards zero. The
    number is [m * 2^e], negated when the sign [s] is set. *)
Definition integer_part (v : float) : Z :=
  match Prim2SF v with
  | S754_finite s m e =>
    let a := Z.shiftl (Z.pos m) e in
    if s then - a else a
  | _ => 0
  end.

(** WebIDL conversion of a number to [unsigned long]: NaN, the zeros and the
    infinities give 0, any other number its integer part modulo 2^32. *)
Definition to_unsigned_long (v : float) : Z :=
  match Prim2SF v with
  | S754_finite _ _ _ => integer_part v mod 2 ^ 32
  | _ => 0
  end.

(** Setting the reflected [unsigned long] attribute [width] or [height] of a
    canvas: values above 2147483647 fall back to the attribute's default. *)
Definition set_canvas_dimension (default : Z) (v : float) : Z :=
  let x := to_unsigned_long v in
  if x <=? 2147483647 then x else default.

(** [document.createElement("canvas")]: 300 by 150 pixels, no inline style,
    the identity transform, nothing drawn. *)
Definition new_canvas : Canvas :=
  {| width := 300; height := 150; style_width := None; style_height := None;
     context_scale := (1%float, 1%float); drawn := [] |}.

(** [canvas.width = v] and [canvas.height = v] *)
Definition set_width (v : float) (c : Canvas) : Canvas :=
  {| width := set_canvas_dimension 300 v; height := height c;
     style_width := style_width c; style_height := style_height c;
     context_scale := context_scale c; drawn := drawn c |}.

Definition set_height (v : float) (c : Canvas) : Canvas :=
  {| width := width c; height := set_canvas_dimension 150 v;
     style_width := style_width c; style_height := style_height c;
     context_scale := context_scale c; drawn := drawn c |}.

(** [canvas.style.width = l] and [canvas.style.height = l] *)
Definition set_style_width (l : CssLength) (c : Canvas) : Canvas :=
  {| width := width c; height := height c;
     style_width := Some l; style_height := style_height c;
     context_scale := context_scale c; drawn := drawn c |}.

Definition set_style_height (l : CssLength) (c : Canvas) : Canvas :=
  {| width := width c; height := height c;
     style_width := style_width c; style_height := Some l;
     context_scale := context_scale c; drawn := drawn c |}.

(** The numbers that are neither NaN nor an infinity. *)
Definition is_finite (v : float) : bool :=
  match Prim2SF v with
  | S754_zero _ | S754_finite _ _ _ => true
  | S754_infinity _ | S754_nan => false
  end.

(** [ctxt.scale(x, y)] on the context of a canvas not yet transformed; the
    call does nothing when an argument is NaN or an infinity. *)
Definition scale_context (x y : float) (c : Canvas) : Canvas :=
  if is_finite x && is_finite y
  then {| width := width c; height := height c;
          style_width := style_width c; style_height := style_height c;
          context_scale := (x, y); drawn := drawn c |}
  else c.

(** [ctxt.drawImage(img, 0, 0)] *)
Definition drawImage (src : JSString) (c : Canvas) : Canvas :=
  {| width := width c; height := height c;
     style_width := style_width c; style_height := style_height c;
     context_scale := context_scale c; drawn := drawn c ++ [src] |}.

(** ** Promises and events *)

Inductive Promise (A : Type) : Type :=
| Fulfilled (a : A)
| Rejected (e : JSError)
| Pending.
Arguments Fulfilled {A} a.
Arguments Rejected {A} e.
Arguments Pending {A}.

(** What happens to an [img] after its [src] is set. *)
Inductive LoadEvent : Type := LoadSucceeds | LoadFails.

(** The handlers installed on an image, each with what it settles the
    surrounding promise with; [None] is no handler. *)
Record ImageHandlers (A : Type) := {
  onload : option A;
  onerror : option JSError
}.
Arguments onload {A} _.
Arguments onerror {A} _.

Definition dispatch {A} (ev : LoadEvent) (h : ImageHandlers A) : Promise A :=
  match ev with
  | LoadSucceeds => match onload h with Some a => Fulfilled a | None => Pending end
  | LoadFails => match onerror h with Some e => Rejected e | None => Pending end
  end.

Record Blob := { blob_type : string; blob_size : nat }.

Inductive Output : Type :=
| OutString (s : string)
| OutBlob (b : Blob).

(** React elements, as far as the pipeline is concerned: opaque values handed
    to the rendering callback. *)
Inductive JSXElement : Type :=
  JSX (type : string) (props : list (string * string)) (kids : list JSXElement).

(** The rendering callback mounts content into the element it is given and
    resolves, or rejects, or never settles. *)
Inductive RenderOutcome : Type :=
| RenderResolves (content : list Node)
| RenderRejects (e : JSError)
| RenderNeverSettles.

Definition RenderAsPromise := JSXElement -> RenderOutcome.

(** ** The platform

    What the browser answers to the calls of the pipeline. *)

Record Platform := {
  getRandomValues : nat -> Z;
  getComputedStyle : Node -> ComputedStyle;
  style_set : StyleSetter;
  serializeToString : Node -> JSString;
  getBoundingClientRect : Node -> DOMRect;
  getContext2d : bool;
  load_image : JSString -> LoadEvent;
  toDataURL : Canvas -> string -> float -> string;
  canvas_toBlob : Canvas -> string -> float -> option Blob
}.

(** ** Enumerations and options *)

Definition PNG : string := "png".
Definition JPEG : string := "jpeg".
Definition WEBP : string := "webp".
Definition ImageFormat_values : list string := [PNG; JPEG; WEBP].

Definition DATA_URL : string := "data_url".
Definition BLOB : string := "blob".
Definition ImageOutput_values : list string := [DATA_URL; BLOB].

Definition includes (values : list string) (v : string) : bool :=
  existsb (String.eqb v) values.

Record RenderSvgAsImageOptions := {
  format : option string;
  output : option string;
  injectSelector : option Selector;
  ignoreAllSelectors : option (list Selector);
  scale : option float;
  quality : option float;
  throwErrors : option bool
}.

(** The variables the parameter pattern of [renderSvgAsImage] binds. *)
Record BoundOptions := {
  bound_format : string;
  bound_injectSelector : Selector;
  bound_output : string;
  bound_scale : float;
  bound_quality : float;
  bound_throwErrors : bool;
  bound_ignoreAllSelectors : list Selector
}.

(** Binding the pattern [{ format = ImageFormat.PNG, injectSelector = "body",
    ... }] to the argument: the argument must be coercible to an object,
    which [undefined] (no argument) is not, and every property that is
    absent takes its default. *)
Definition bind_options (options : option RenderSvgAsImageOptions) : result BoundOptions :=
  match options with
  | None => Throw (TypeError (undefined_property_message "format"))
  | Some o =>
    Ok {| bound_format := default PNG (format o);
          bound_injectSelector := default [SelType "body"] (injectSelector o);
          bound_output := default DATA_URL (output o);
          bound_scale := default 1%float (scale o);
          bound_quality := default 0.97%float (quality o);
          bound_throwErrors := default true (throwErrors o);
          bound_ignoreAllSelectors := default [] (ignoreAllSelectors o) |}
  end.

Definition INJECTOR_CONTAINER_ATTRIBUTE : string := "data-react-svg-image-injector-container".

(** ** The world of a run

    The document, the allocator of node identities, the module-level
    [renderAsPromise] variable, the number of random bytes drawn so far and
    the trace of what the run did to the document and wrote to the console. *)

Inductive Event : Type :=
| ChildAppended (parent child : nat)
| ChildRemoved (parent child : nat)
| ConsoleError (msg : string)
| ConsoleErrorValue (e : JSError).

Record World := {
  document : Node;
  next_nid : nat;
  renderAsPromise : option RenderAsPromise;
  random_calls : nat;
  trace : list Event
}.

Definition set_document (d : Node) (w : World) : World :=
  {| document := d; next_nid := next_nid w; renderAsPromise := renderAsPromise w;
     random_calls := random_calls w; trace := trace w |}.

Definition set_next_nid (k : nat) (w : World) : World :=
  {| document := document w; next_nid := k; renderAsPromise := renderAsPromise w;
     random_calls := random_calls w; trace := trace w |}.

Definition set_random_calls (k : nat) (w : World) : World :=
  {| document := document w; next_nid := next_nid w; renderAsPromise := renderAsPromise w;
     random_calls := k; trace := trace w |}.

Definition record_events (evs : list Event) (w : World) : World :=
  {| document := document w; next_nid := next_nid w; renderAsPromise := renderAsPromise w;
     random_calls := random_calls w; trace := trace w ++ evs |}.

(** [setDomRenderer] *)
Definition setDomRenderer (renderer : RenderAsPromise) (w : World) : World :=
  {| document := document w; next_nid := next_nid w; renderAsPromise := Some renderer;
     random_calls := random_calls w; trace := trace w |}.

(** The element with identity [id] in the tree under [n], and its update in
    place. *)
Fixpoint find_node (id : nat) (n : Node) : option Node :=
  if Nat.eqb (nid n) id then Some n
  else (fix go (cs : list Node) : option Node :=
          match cs with
          | [] => None
          | c :: cs' => match find_node id c with
                        | Some m => Some m
                        | None => go cs'
                        end
          end) (children n).

Fixpoint update_node (id : nat) (f : Node -> Node) (n : Node) : Node :=
  if Nat.eqb (nid n) id then f n
  else with_children n
         ((fix go (cs : list Node) : list Node :=
             match cs with
             | [] => []
             | c :: cs' => update_node id f c :: go cs'
             end) (children n)).

(** [document.querySelector]: the first element of the document that
    matches, the document element included. *)
Definition document_querySelector (sel : Selector) (doc : Node) : option Node :=
  head (map snd (filter (fun p => matches sel (fst p) (snd p) = true)
                        ((0%nat, doc) :: located_descendants doc))).

(** ** Computations

    A step of an [async] function either completes normally, or completes
    abruptly with an exception, or is suspended on a promise that never
    settles. *)

Inductive Completion (A : Type) : Type :=
| Normal (a : A)
| Abrupt (e : JSError)
| Suspended.
Arguments Normal {A} a.
Arguments Abrupt {A} e.
Arguments Suspended {A}.

Definition Run (A : Type) : Type := World -> Completion A * World.

Definition ret {A} (a : A) : Run A := fun w => (Normal a, w).

Definition throw {A} (e : JSError) : Run A := fun w => (Abrupt e, w).

Definition bind {A B} (m : Run A) (k : A -> Run B) : Run B :=
  fun w =>
    match m w with
    | (Normal a, w') => k a w'
    | (Abrupt e, w') => (Abrupt e, w')
    | (Suspended, w') => (Suspended, w')
    end.

Declare Scope run_scope.
Delimit Scope run_scope with run.
Notation "'let*' x ':=' m 'in' k" := (bind m (fun x => k))
  (at level 10, x name, m at level 100, k at level 200) : run_scope.
Notation "m '>>' k" := (bind m (fun _ => k))
  (at level 100, k at level 200, right associativity) : run_scope.

(** [try { m } catch (e) { handler e }] *)
Definition try_catch {A} (m : Run A) (handler : JSError -> Run A) : Run A :=
  fun w =>
    match m w with
    | (Abrupt e, w') => handler e w'
    | other => other
    end.

(** [await p] *)
Definition await {A} (p : Promise A) : Run A :=
  fun w =>
    match p with
    | Fulfilled a => (Normal a, w)
    | Rejected e => (Abrupt e, w)
    | Pending => (Suspended, w)
    end.

(** Lifting a synchronous call that may throw. *)
Definition lift {A} (r : result A) : Run A :=
  match r with
  | Ok a => ret a
  | Throw e => throw e
  end.

Definition console_error (msg : string) : Run unit :=
  fun w => (Normal tt, record_events [ConsoleError msg] w).

Definition console_error_value (e : JSError) : Run unit :=
  fun w => (Normal tt, record_events [ConsoleErrorValue e] w).

(** The promise of an [async] function whose body returns [v]: the promise
    is resolved with [v], so a returned promise is adopted; an exception that
    leaves the body rejects it; a body that stays suspended leaves it
    pending. *)
Definition async {A} (body : Run (Promise A)) (w : World) : Promise A * World :=
  match body w with
  | (Normal p, w') => (p, w')
  | (Abrupt e, w') => (Rejected e, w')
  | (Suspended, w') => (Pending, w')
  end.

(** The call of an [async] function: the parameters are bound before the
    body is entered, and an exception raised by the binding rejects the
    promise. *)
Definition async_call {A B} (binding : result B) (body : B -> Run (Promise A))
  : World -> Promise A * World :=
  match binding with
  | Throw e => fun w => (Rejected e, w)
  | Ok b => async (body b)
  end.

(** ** The injector container *)

(** [getInjectorContainer]: a new [div], tagged with the run's identifier,
    hidden and absolutely positioned, appended to the injector root. The
    result is the root after the call and the container. *)
Definition getInjectorContainer (setStyle : StyleSetter) (fresh : nat)
           (injectorRoot : Node) (renderId : string) : Node * Node :=
  let injectorContainer :=
    mkNode fresh "div"
           {[ INJECTOR_CONTAINER_ATTRIBUTE := renderId ]}
           (setStyle "left" "0"
              (setStyle "top" "0"
                 (setStyle "position" "absolute"
                    (setStyle "visibility" "hidden" ∅))))
           [] in
  (appendChild injectorRoot injectorContainer, injectorContainer).

(** [removeInjectorContainer]: the first descendant of the root whose marker
    attribute is the run's identifier is removed from the root's children;
    when there is none, a message goes to the console. The result is the
    root after the call and the events of the call. *)
Definition removeInjectorContainer (injectorRoot : Node) (renderId : string)
  : result (Node * list Event) :=
  match querySelector [SelAttr INJECTOR_CONTAINER_ATTRIBUTE renderId] injectorRoot with
  | Some injectorContainer =>
    match removeChild injectorRoot injectorContainer with
    | Ok root' => Ok (root', [ChildRemoved (nid injectorRoot) (nid injectorContainer)])
    | Throw e => Throw e
    end
  | None =>
    Ok (injectorRoot,
        [ConsoleError ("Could not find injector container with id " ++ renderId)])
  end.

(** *** [uuidv4]

    Every [0], [1] and [8] of the template is replaced by the hexadecimal
    digit of [c ^ (random & (15 >> (c / 4)))], each with a new random byte. *)

Definition uuid_template : string := "10000000-1000-4000-8000-100000000000".

Definition digit_value (c : ascii) : Z := Z.of_N (N_of_ascii c) - 48.

Definition hex_char_lower (d : Z) : ascii :=
  ascii_of_N (Z.to_N (if d <? 10 then 48 + d else 97 + (d - 10))).

Definition is_018 (c : ascii) : bool :=
  Ascii.eqb c "0" || Ascii.eqb c "1" || Ascii.eqb c "8".

Fixpoint uuid_replace (random : nat -> Z) (k : nat) (template : string) : string * nat :=
  match template with
  | EmptyString => (EmptyString, k)
  | String c rest =>
    if is_018 c then
      let cv := digit_value c in
      let d := Z.lxor cv (Z.land (random k mod 256) (Z.shiftr 15 (cv / 4))) in
      let (r, k') := uuid_replace random (S k) rest in
      (String (hex_char_lower d) r, k')
    else
      let (r, k') := uuid_replace random k rest in
      (String c r, k')
  end.

(** ** The pipeline *)

Section Pipeline.
Variable P : Platform.

Local Open Scope run_scope.

Definition uuidv4 : Run string :=
  fun w =>
    let (s, k) := uuid_replace (getRandomValues P) (random_calls w) uuid_template in
    (Normal s, set_random_calls k w).

(** A call on the element [id] of the document that may change it. *)
Definition on_element {A} (id : nat) (f : Node -> result (Node * list Event * A)) : Run A :=
  fun w =>
    match find_node id (document w) with
    | None => (Abrupt NotFoundError, w)
    | Some n =>
      match f n with
      | Throw e => (Abrupt e, w)
      | Ok (n', evs, a) =>
        (Normal a,
         record_events evs (set_document (update_node id (fun _ => n') (document w)) w))
      end
    end.

Definition createElement : Run nat :=
  fun w => (Normal (next_nid w), set_next_nid (S (next_nid w)) w).

Definition getInjectorContainer_in (injectorRoot : nat) (renderId : string) : Run nat :=
  let* fresh := createElement in
  on_element injectorRoot (fun root =>
    let (root', injectorContainer) :=
      getInjectorContainer (style_set P) fresh root renderId in
    Ok (root', [ChildAppended (nid root) (nid injectorContainer)], nid injectorContainer)).

Definition removeInjectorContainer_in (injectorRoot : nat) (renderId : string) : Run unit :=
  on_element injectorRoot (fun root =>
    match removeInjectorContainer root renderId with
    | Ok (root', evs) => Ok (root', evs, tt)
    | Throw e => Throw e
    end).

(** [await renderAsPromise(el, injectorContainer)] *)
Definition call_renderer (renderer : RenderAsPromise) (el : JSXElement)
           (injectorContainer : nat) : Run unit :=
  match renderer el with
  | RenderResolves content =>
    on_element injectorContainer (fun c => Ok (with_children c content, [], tt))
  | RenderRejects e => throw e
  | RenderNeverSettles => await Pending
  end.

(** [copyToCanvas]: the canvas is sized from the bounding box of the
    source, the context is scaled, and the promise is settled by the
    [onload] handler of the image, the only handler installed. *)
Definition copyToCanvas (source : Node) (scale : float) : result (Promise Canvas) :=
  let svgData := serializeToString P source in
  let canvas := new_canvas in
  let svgSize := getBoundingClientRect P source in
  let canvas := set_width (rect_width svgSize * scale)%float canvas in
  let canvas := set_height (rect_height svgSize * scale)%float canvas in
  let canvas := set_style_width (Px (rect_width svgSize)) canvas in
  let canvas := set_style_height (Px (rect_height svgSize)) canvas in
  if negb (getContext2d P) then Throw (Error "Could not get canvas context")
  else
    let canvas := scale_context scale scale canvas in
    match image_src svgData with
    | Throw e => Throw e
    | Ok src =>
      Ok (dispatch (load_image P src)
                   {| onload := Some (drawImage src canvas); onerror := None |})
    end.

Definition image_mime (format : string) : string := "image/" ++ format.

Definition toDataUrl (canvas : Canvas) (format : string) (quality : float) : string :=
  toDataURL P canvas (image_mime format) quality.

Definition toBlob (canvas : Canvas) (format : string) (quality : float)
  : Promise (option Blob) :=
  Fulfilled (canvas_toBlob P canvas (image_mime format) quality).

(** [toOutput], an [async] function: its result is a promise. *)
Definition toOutput (canvas : Canvas) (output format : string) (quality : float)
  : Promise Output :=
  if String.eqb output DATA_URL then Fulfilled (OutString (toDataUrl canvas format quality))
  else
    match toBlob canvas format quality with
    | Fulfilled (Some blob) => Fulfilled (OutBlob blob)
    | Fulfilled None => Rejected (Error "Could not convert canvas to blob")
    | Rejected e => Rejected e
    | Pending => Pending
    end.

(** [normaliseSvg] on the rendered element, which is mutated in place,
    also when the call throws. *)
Definition normaliseSvg_in (svg : nat) (ignoreAllSelectors : list Selector) : Run Node :=
  fun w =>
    match find_node svg (document w) with
    | None => (Abrupt NotFoundError, w)
    | Some n =>
      match normaliseSvg (getComputedStyle P) (style_set P) n ignoreAllSelectors with
      | Returns n' =>
        (Normal n', set_document (update_node svg (fun _ => n') (document w)) w)
      | Throws e n' =>
        (Abrupt e, set_document (update_node svg (fun _ => n') (document w)) w)
      end
    end.

(** The body of [renderSvgAsImage] once the options are bound. The value
    of the [try] block is what its [return] statement returns: the promise
    of [toOutput], which is not awaited. *)
Definition renderSvgAsImage_body (el : JSXElement)
           (format : string) (injectSelector : Selector) (output : string)
           (scale quality : float) (throwErrors : bool)
           (ignoreAllSelectors : list Selector) : Run (Promise Output) :=
  try_catch
    (let* renderer :=
       (fun w => match renderAsPromise w with
                 | Some r => ret r w
                 | None =>
                   throw (Error "You must call setDomRenderer before calling renderSvgAsImage") w
                 end) in
     let* renderId := uuidv4 in
     let* injectorRoot :=
       (fun w => match document_querySelector injectSelector (document w) with
                 | Some root => ret (nid root) w
                 | None => throw (Error "Could not find element with selector null") w
                 end) in
     (if includes ImageFormat_values format then ret tt
      else throw (Error ("Invalid image format " ++ format))) >>
     (if includes ImageOutput_values output then ret tt
      else throw (Error ("Invalid image output " ++ output))) >>
     let* injectorContainer := getInjectorContainer_in injectorRoot renderId in
     try_catch (call_renderer renderer el injectorContainer)
               (fun e =>
                  removeInjectorContainer_in injectorRoot renderId >>
                  console_error "Failed to render element" >>
                  throw e) >>
     let* renderedSvg :=
       (fun w => ret (match find_node injectorContainer (document w) with
                      | Some c => querySelector [SelType "svg"] c
                      | None => None
                      end) w) in
     match renderedSvg with
     | None =>
       removeInjectorContainer_in injectorRoot renderId >>
       throw (Error "Could not find a rendered SVG")
     | Some svg =>
       let* svg' := normaliseSvg_in (nid svg) ignoreAllSelectors in
       let* promise := lift (copyToCanvas svg' scale) in
       let* canvas := await promise in
       let returnValue := toOutput canvas output format quality in
       removeInjectorContainer_in injectorRoot renderId >>
       ret returnValue
     end)
    (fun e =>
       if throwErrors then throw e
       else console_error_value e >> ret (Fulfilled (OutString ""))).

(** [renderSvgAsImage]: an [async] function whose second parameter is the
    destructuring pattern of the options. *)
Definition renderSvgAsImage (el : JSXElement) (options : option RenderSvgAsImageOptions)
  : World -> Promise Output * World :=
  async_call (bind_options options)
             (fun b => renderSvgAsImage_body el
                         (bound_format b) (bound_injectSelector b) (bound_output b)
                         (bound_scale b) (bound_quality b) (bound_throwErrors b)
                         (bound_ignoreAllSelectors b)).
End Pipeline.

(** ** Reference notions used by the properties *)

(** *** Numbers

    The real number a finite binary64 value stands for, [m * 2^e] with its
    sign; NaN and the infinities stand for none. *)

Definition number_value (v : float) : option Q :=
  match Prim2SF v with
  | S754_zero _ => Some 0%Q
  | S754_finite s m e => Some ((if s then -1 else 1) * inject_Z (Z.pos m) * 2 ^ e)%Q
  | S754_infinity _ | S754_nan => None
  end.

(** *** Text encodings

    The code points of a string (UTF-16 decoding; [None] when a surrogate is
    unpaired), its UTF-8 octets, and the decoders that go back: base64 to
    octets, octets to code points (strict UTF-8), code points to code
    units. *)

Fixpoint code_points (s : JSString) : option (list Z) :=
  match s with
  | [] => Some []
  | c :: rest =>
    if is_leading_surrogate c then
      match rest with
      | d :: rest' =>
        if is_trailing_surrogate d
        then cons (surrogate_pair_to_code_point c d) <$> code_points rest'
        else None
      | [] => None
      end
    else if is_trailing_surrogate c then None
    else cons c <$> code_points rest
  end.

(** [String.prototype.isWellFormed] *)
Definition is_well_formed (s : JSString) : bool :=
  match code_points s with Some _ => true | None => false end.

Definition utf8_encode (s : JSString) : option (list Z) :=
  flat_map utf8_octets <$> code_points s.

Definition base64_value (c : Z) : option Z :=
  if (0x41 <=? c) && (c <=? 0x5A) then Some (c - 0x41)
  else if (0x61 <=? c) && (c <=? 0x7A) then Some (c - 0x61 + 26)
  else if (0x30 <=? c) && (c <=? 0x39) then Some (c - 0x30 + 52)
  else if c =? 0x2B then Some 62
  else if c =? 0x2F then Some 63
  else None.

Fixpoint base64_decode (cs : list Z) : option (list Z) :=
  match cs with
  | [] => Some []
  | c0 :: c1 :: c2 :: c3 :: rest =>
    match base64_value c0, base64_value c1 with
    | Some s0, Some s1 =>
      if c2 =? 0x3D then
        match rest with
        | [] => if c3 =? 0x3D then Some [s0 * 4 + s1 / 16] else None
        | _ => None
        end
      else
        match base64_value c2 with
        | None => None
        | Some s2 =>
          if c3 =? 0x3D then
            match rest with
            | [] => Some [s0 * 4 + s1 / 16; (s1 mod 16) * 16 + s2 / 4]
            | _ => None
            end
          else
            match base64_value c3 with
            | None => None
            | Some s3 =>
              (fun tl => s0 * 4 + s1 / 16 :: (s1 mod 16) * 16 + s2 / 4
                         :: (s2 mod 4) * 64 + s3 :: tl) <$> base64_decode rest
            end
        end
    | _, _ => None
    end
  | _ => None
  end.

Definition is_continuation (b : Z) : bool := (0x80 <=? b) && (b <? 0xC0).

Definition is_scalar_value (cp : Z) : bool :=
  (0 <=? cp) && (cp <? 0x110000) && negb ((0xD800 <=? cp) && (cp <=? 0xDFFF)).

Fixpoint utf8_decode (bs : list Z) : option (list Z) :=
  match bs with
  | [] => Some []
  | b0 :: r0 =>
    if (0 <=? b0) && (b0 <? 0x80) then cons b0 <$> utf8_decode r0
    else if (0xC0 <=? b0) && (b0 <? 0xE0) then
      match r0 with
      | b1 :: r1 =>
        let cp := (b0 - 0xC0) * 64 + (b1 - 0x80) in
        if is_continuation b1 && (0x80 <=? cp)
        then cons cp <$> utf8_decode r1 else None
      | _ => None
      end
    else if (0xE0 <=? b0) && (b0 <? 0xF0) then
      match r0 with
      | b1 :: b2 :: r2 =>
        let cp := (b0 - 0xE0) * 4096 + (b1 - 0x80) * 64 + (b2 - 0x80) in
        if is_continuation b1 && is_continuation b2 && (0x800 <=? cp) && is_scalar_value cp
        then cons cp <$> utf8_decode r2 else None
      | _ => None
      end
    else if (0xF0 <=? b0) && (b0 <? 0xF8) then
      match r0 with
      | b1 :: b2 :: b3 :: r3 =>
        let cp := (b0 - 0xF0) * 262144 + (b1 - 0x80) * 4096 + (b2 - 0x80) * 64 + (b3 - 0x80) in
        if is_continuation b1 && is_continuation b2 && is_continuation b3
           && (0x10000 <=? cp) && is_scalar_value cp
        then cons cp <$> utf8_decode r3 else None
      | _ => None
      end
    else None
  end.

Definition utf16_units (cp : Z) : list Z :=
  if cp <? 0x10000 then [cp]
  else [0xD800 + (cp - 0x10000) / 0x400; 0xDC00 + (cp - 0x10000) mod 0x400].

(** Decoding a base64 payload as UTF-8 text. *)
Definition decode_payload (b64 : list Z) : option JSString :=
  match base64_decode b64 with
  | None => None
  | Some octets => flat_map utf16_units <$> utf8_decode octets
  end.

(** *** Trees *)

(** The tree with every proper descendant satisfying [p] detached. *)
Fixpoint prune (p : Node -> bool) (n : Node) : Node :=
  with_children n
    ((fix go (cs : list Node) : list Node :=
        match cs with
        | [] => []
        | c :: cs' => if p c then go cs' else prune p c :: go cs'
        end) (children n)).

(** An element matches one of the selectors (for selectors that look at the
    element alone the index is irrelevant). *)
Definition matches_any (sels : list Selector) (n : Node) : bool :=
  existsb (fun sel => matches sel 0%nat n) sels.

(** The proper descendants that neither match a selector nor lie below an
    element that does. *)
Fixpoint kept_descendants (sels : list Selector) (n : Node) : list Node :=
  (fix go (cs : list Node) : list Node :=
     match cs with
     | [] => []
     | c :: cs' =>
       if matches_any sels c then go cs'
       else c :: kept_descendants sels c ++ go cs'
     end) (children n).

(** The element reached by following child indices. *)
Fixpoint node_at (path : list nat) (n : Node) : option Node :=
  match path with
  | [] => Some n
  | i :: path' =>
    match nth_error (children n) i with
    | Some c => node_at path' c
    | None => None
    end
  end.

(** Structural congruence: the same number of children at every level. *)
Fixpoint congruent (s t : Node) : bool :=
  (fix go (ss ts : list Node) : bool :=
     match ss, ts with
     | [], [] => true
     | s' :: ss', t' :: ts' => congruent s' t' && go ss' ts'
     | _, _ => false
     end) (children s) (children t).

(** The marker attribute of an element is the given identifier. *)
Definition has_marker (renderId : string) (n : Node) : Prop :=
  attributes n !! INJECTOR_CONTAINER_ATTRIBUTE = Some renderId.

(** *** Auxiliary definitions of the proofs *)

(** The surrogate-pair structure of a well-formed string, as a relation
    between the code units and the code points. *)
Inductive decodes_to : JSString -> list Z -> Prop :=
| decodes_nil : decodes_to [] []
| decodes_unit c s cps :
    is_leading_surrogate c = false -> is_trailing_surrogate c = false ->
    decodes_to s cps -> decodes_to (c :: s) (c :: cps)
| decodes_pair c d s cps :
    is_leading_surrogate c = true -> is_trailing_surrogate d = true ->
    decodes_to s cps ->
    decodes_to (c :: d :: s) (surrogate_pair_to_code_point c d :: cps).

(** The inner loops of the tree functions, by name. *)
Fixpoint located_children (i : nat) (cs : list Node) : list (nat * Node) :=
  match cs with
  | [] => []
  | c :: cs' => (i, c) :: located_descendants c ++ located_children (S i) cs'
  end.

Fixpoint prune_children (p : Node -> bool) (cs : list Node) : list Node :=
  match cs with
  | [] => []
  | c :: cs' => if p c then prune_children p cs' else prune p c :: prune_children p cs'
  end.

Fixpoint detach_children (id : nat) (cs : list Node) : list Node :=
  match cs with
  | [] => []
  | c :: cs' => if Nat.eqb (nid c) id then detach_children id cs'
                else detach id c :: detach_children id cs'
  end.

Fixpoint kept_children (sels : list Selector) (cs : list Node) : list Node :=
  match cs with
  | [] => []
  | c :: cs' =>
    if matches_any sels c then kept_children sels cs'
    else c :: kept_descendants sels c ++ kept_children sels cs'
  end.

Fixpoint congruent_children (ss ts : list Node) : bool :=
  match ss, ts with
  | [], [] => true
  | s :: ss', t :: ts' => congruent s t && congruent_children ss' ts'
  | _, _ => false
  end.

Fixpoint inline_children (gcs : Node -> ComputedStyle) (setStyle : StyleSetter)
         (ss ts : list Node) : mutation (list Node) :=
  match ss with
  | [] => Returns ts
  | s :: ss' =>
    match ts with
    | [] =>
      match inlineStyles_undefined gcs s with
      | Throw e => Throws e []
      | Ok _ => inline_children gcs setStyle ss' []
      end
    | t :: ts' =>
      match inlineStyles gcs setStyle s t with
      | Throws e t' => Throws e (t' :: ts')
      | Returns t' =>
        match inline_children gcs setStyle ss' ts' with
        | Throws e r => Throws e (t' :: r)
        | Returns r => Returns (t' :: r)
        end
      end
    end
  end.

(** A predicate on elements that looks at the identity, the tag and the
    attributes only. *)
Definition local_pred (p : Node -> bool) : Prop :=
  forall n m, nid n = nid m -> tagName n = tagName m -> attributes n = attributes m ->
              p n = p m.

(** The element is one of [els], by identity. *)
Definition among (els : list Node) (c : Node) : bool :=
  existsb (fun e => Nat.eqb (nid c) (nid e)) els.

(** The assignments [style[key] = value] for the pairs of a list, one after
    the other. *)
Definition assign_all (setStyle : StyleSetter) (pairs : list (string * string))
           (st : gmap string string) : gmap string string :=
  fold_left (fun acc pair => setStyle pair.1 pair.2 acc) pairs st.

(** What [inlineStyles] leaves under [key] in a style declaration [st] that
    keeps the assigned strings, for a source with the computed style
    [computed]. *)
Definition inlined_style (computed : ComputedStyle) (st : gmap string string)
           (key : string) : option string :=
  if decide (key <> "visibility" /\ key ∈ map fst computed)
  then Some (computed_value computed key)
  else st !! key.

(** Neither the element nor anything below it carries the identifier. *)
Definition marker_free (renderId : string) (n : Node) : Prop :=
  ~ has_marker renderId n /\ forall d, d ∈ descendants n -> ~ has_marker renderId d.


(** One of the configuration checks of [renderSvgAsImage] fails. *)
Definition validation_fails (w : World) (o : RenderSvgAsImageOptions) : Prop :=
  renderAsPromise w = None
  \/ document_querySelector (default [SelType "body"] (injectSelector o)) (document w) = None
  \/ includes ImageFormat_values (default PNG (format o)) = false
  \/ includes ImageOutput_values (default DATA_URL (output o)) = false.

(** *** Sample data: the circle of the README in a small document *)

Definition sample_circle : Node :=
  mkNode 11 "circle" {[ "r" := "40" ]} ∅ [].

Definition sample_svg : Node :=
  mkNode 10 "svg" {[ "width" := "100" ]} ∅ [sample_circle].

Definition sample_document : Node :=
  mkNode 0 "html" ∅ ∅ [mkNode 1 "body" ∅ ∅ []].

Definition sample_element : JSXElement := JSX "SvgThing" [("color", "#ff0000")] [].

Definition sample_blob : Blob := {| blob_type := "image/png"; blob_size := 1024 |}.

Definition sample_platform (context : bool) (load : LoadEvent) (blob : option Blob)
  : Platform :=
  {| getRandomValues := fun k => Z.of_nat k * 7;
     getComputedStyle := fun _ => [("fill", "red"); ("visibility", "hidden")];
     style_set := verbatim_setter;
     serializeToString := fun _ => units_of_string "<svg/>";
     getBoundingClientRect := fun _ => {| rect_width := 101%float; rect_height := 101%float |};
     getContext2d := context;
     load_image := fun _ => load;
     toDataURL := fun _ mime _ => String.append "data:" (String.append mime ";base64,AAAA");
     canvas_toBlob := fun _ _ _ => blob |}.

(** The sample platform with another bounding box. *)
Definition sample_platform_sized (side : float) : Platform :=
  {| getRandomValues := getRandomValues (sample_platform true LoadSucceeds None);
     getComputedStyle := getComputedStyle (sample_platform true LoadSucceeds None);
     style_set := verbatim_setter;
     serializeToString := serializeToString (sample_platform true LoadSucceeds None);
     getBoundingClientRect := fun _ => {| rect_width := side; rect_height := side |};
     getContext2d := true;
     load_image := fun _ => LoadSucceeds;
     toDataURL := toDataURL (sample_platform true LoadSucceeds None);
     canvas_toBlob := fun _ _ _ => None |}.

(** The page before [setDomRenderer] is called. *)
Definition sample_page : World :=
  {| document := sample_document; next_nid := 100; renderAsPromise := None;
     random_calls := 0; trace := [] |}.

Definition sample_renderer : RenderAsPromise := fun _ => RenderResolves [sample_svg].

Definition sample_options (output : string) (scale : float) (throwErrors : bool)
  : RenderSvgAsImageOptions :=
  {| format := None; output := Some output; injectSelector := None;
     ignoreAllSelectors := None; scale := Some scale; quality := None;
     throwErrors := Some throwErrors |}.

(** The identifier [uuidv4] gives for the random bytes of the sample
    platform. *)
Definition sample_renderId : string := "17e5c3a1-9f6d-44b2-907e-4c3a18f6d4b2".

(** The options object [{}]. *)
Definition no_options : RenderSvgAsImageOptions :=
  {| format := None; output := None; injectSelector := None;
     ignoreAllSelectors := None; scale := None; quality := None;
     throwErrors := None |}.

(** The computed style of the sample platform, and a clone of the rendered
    circle whose root is declared visible. *)
Definition sample_computed : Node -> ComputedStyle :=
  fun _ => [("fill", "red"); ("visibility", "hidden")].

Definition sample_clone : Node := with_style sample_svg {[ "visibility" := "visible" ]}.

(** The sample platform with another answer of [XMLSerializer]. *)
Definition sample_platform_serializing (svgData : JSString) : Platform :=
  {| getRandomValues := getRandomValues (sample_platform true LoadSucceeds None);
     getComputedStyle := getComputedStyle (sample_platform true LoadSucceeds None);
     style_set := verbatim_setter;
     serializeToString := fun _ => svgData;
     getBoundingClientRect := getBoundingClientRect (sample_platform true LoadSucceeds None);
     getContext2d := true;
     load_image := fun _ => LoadSucceeds;
     toDataURL := toDataURL (sample_platform true LoadSucceeds None);
     canvas_toBlob := fun _ _ _ => None |}.

(** A run of the pipeline on the sample document with a registered
    rendering callback. *)
Definition sample_run (P : Platform) (o : RenderSvgAsImageOptions) (r : RenderAsPromise)
  : Promise Output * World :=
  renderSvgAsImage P sample_element (Some o) (setDomRenderer r sample_page).

(** The marker of the sample run is still found under the injector root. *)
Definition container_present (w : World) : Prop :=
  exists root c,
    find_node 1 (document w) = Some root /\
    querySelector [SelAttr INJECTOR_CONTAINER_ATTRIBUTE sample_renderId] root = Some c /\
    nid c = 100%nat.

(** Serializations of an [svg] with a text node: [é€] and the surrogate pair
    of U+1F600 in the first, a lone leading surrogate in the second. *)
Definition svg_text_open : JSString :=
  units_of_string "<svg xmlns=" ++ [0x22] ++ units_of_string "http://www.w3.org/2000/svg"
  ++ [0x22] ++ units_of_string "><text>".

Definition svg_text_non_ascii : JSString :=
  svg_text_open ++ [0xE9; 0x20AC; 0xD83D; 0xDE00] ++ units_of_string "</text></svg>".

Definition svg_text_lone_surrogate : JSString :=
  svg_text_open ++ [0xD800] ++ units_of_string "</text></svg>".

(** Trees for the removal phase. *)
Definition bare_svg : Node := mkNode 0 "svg" ∅ ∅ [].

Definition svg_g_rect : Node :=
  mkNode 0 "svg" ∅ ∅ [mkNode 1 "g" ∅ ∅ []; mkNode 2 "rect" ∅ ∅ []].

Definition svg_group_of_rect : Node :=
  mkNode 0 "svg" ∅ ∅
         [mkNode 1 "g" ∅ ∅ [mkNode 2 "rect" ∅ ∅ []]; mkNode 3 "circle" ∅ ∅ []].

(** *** Auxiliary definitions for the further properties *)

(** The target has a child for every child of the source, at every level
    the recursion of [inlineStyles] reaches. *)
Fixpoint covers (s t : Node) : bool :=
  (fix go (ss ts : list Node) : bool :=
     match ss, ts with
     | [], _ => true
     | s' :: ss', t' :: ts' => covers s' t' && go ss' ts'
     | _ :: _, [] => false
     end) (children s) (children t).

Fixpoint covers_children (ss ts : list Node) : bool :=
  match ss, ts with
  | [], _ => true
  | s' :: ss', t' :: ts' => covers s' t' && covers_children ss' ts'
  | _ :: _, [] => false
  end.

Definition undefined_style_error : JSError :=
  TypeError (undefined_property_message "style").

(** A code unit of the base64 alphabet, or the padding character. *)
Definition is_base64_unit (u : Z) : bool :=
  ((0x41 <=? u) && (u <=? 0x5A)) || ((0x61 <=? u) && (u <=? 0x7A))
  || ((0x30 <=? u) && (u <=? 0x39)) || (u =? 0x2B) || (u =? 0x2F) || (u =? 0x3D).

(** The search of [find_node] through a list of children. *)
Fixpoint find_children (id : nat) (cs : list Node) : option Node :=
  match cs with
  | [] => None
  | c :: cs' => match find_node id c with
                | Some m => Some m
                | None => find_children id cs'
                end
  end.

(** The identifier [uuidv4] gives in the world [w]. *)
Definition run_renderId (P : Platform) (w : World) : string :=
  fst (uuid_replace (getRandomValues P) (random_calls w) uuid_template).





(** The configuration checks pass on an orderly document: the injector root
    is found, format and output are known, the nodes of the document are
    distinct, the next node is new, and nothing below the root carries the
    identifier of the run. *)
Definition ready_to_render (P : Platform) (w : World) (b : BoundOptions) (R : Node) : Prop :=
  document_querySelector (bound_injectSelector b) (document w) = Some R
  /\ includes ImageFormat_values (bound_format b) = true
  /\ includes ImageOutput_values (bound_output b) = true
  /\ unique_ids (document w)
  /\ (next_nid w ∉ node_ids (document w))
  /\ (forall d, d ∈ descendants R -> ~ has_marker (run_renderId P w) d).

(** The first [svg] element of the rendered content, in document order:
    what [injectorContainer.querySelector("svg")] finds. *)
Definition first_svg (content : list Node) : option Node :=
  head (map snd (filter (fun p => matches [SelType "svg"] (fst p) (snd p) = true)
                        (located_children 0 content))).

(** The rendered nodes are new: distinct from each other, from the container
    and from every node of the document. *)
Definition fresh_content (w : World) (content : list Node) : Prop :=
  NoDup (next_nid w :: flat_map node_ids content)
  /\ (forall x, x ∈ flat_map node_ids content -> x ∉ node_ids (document w)).

(** The container of the run, created under the injector root [R], with the
    rendered content mounted. *)
Definition mounted_container (P : Platform) (w : World) (R : Node) (content : list Node)
  : Node :=
  with_children (snd (getInjectorContainer (style_set P) (next_nid w) R (run_renderId P w)))
                content.

(** The document in which the container of the run, holding the rendered
    content with the normalised [svg'] in place of [svg], is the last child
    of the injector root [R]. *)
Definition left_mounted (P : Platform) (w : World) (R : Node) (content : list Node)
           (svg svg' : Node) : Node :=
  update_node (nid R)
    (fun _ => appendChild R (update_node (nid svg) (fun _ => svg')
                                         (mounted_container P w R content)))
    (document w).

(** The textual form of a version 4 identifier: [x] stands for a lower-case
    hexadecimal digit, [y] for one of [8], [9], [a], [b], every other
    character for itself. *)
Definition uuid_v4_pattern : string := "xxxxxxxx-xxxx-4xxx-yxxx-xxxxxxxxxxxx".

Definition is_lower_hex (c : ascii) : bool :=
  let n := N_of_ascii c in
  ((48 <=? n) && (n <=? 57) || (97 <=? n) && (n <=? 102))%N.

Definition is_variant_digit (c : ascii) : bool :=
  Ascii.eqb c "8" || Ascii.eqb c "9" || Ascii.eqb c "a" || Ascii.eqb c "b".

Definition pattern_char (p c : ascii) : bool :=
  if Ascii.eqb p "x" then is_lower_hex c
  else if Ascii.eqb p "y" then is_variant_digit c
  else Ascii.eqb p c.

Fixpoint matches_pattern (pattern s : string) : bool :=
  match pattern, s with
  | EmptyString, EmptyString => true
  | String p pattern', String c s' => pattern_char p c && matches_pattern pattern' s'
  | _, _ => false
  end.

(** Every digit a character of the template can turn into fits the
    pattern. *)
Fixpoint template_fits (template pattern : string) : bool :=
  match template, pattern with
  | EmptyString, EmptyString => true
  | String c template', String p pattern' =>
    (if is_018 c
     then forallb (fun x => pattern_char p (hex_char_lower (Z.lxor (digit_value c) x)))
                  (map Z.of_nat (seq 0 (S (Z.to_nat (Z.shiftr 15 (digit_value c / 4))))))
     else pattern_char p c)
    && template_fits template' pattern'
  | _, _ => false
  end.

(** The outcome of a call that fails with the configuration error [e] after
    [draws] random bytes: rejected, or logged and resolved with the empty
    string, and nothing of the document is touched. *)
Definition configuration_error (P : Platform) (el : JSXElement)
           (options : option RenderSvgAsImageOptions) (b : BoundOptions) (w : World)
           (e : JSError) (draws : nat) : Prop :=
  exists w',
    renderSvgAsImage P el options w
    = (if bound_throwErrors b then Rejected e else Fulfilled (OutString ""), w')
    /\ document w' = document w /\ next_nid w' = next_nid w
    /\ random_calls w' = (random_calls w + draws)%nat
    /\ trace w' = trace w ++ (if bound_throwErrors b then [] else [ConsoleErrorValue e]).

(** The sample page with a rendering callback registered, and its injector
    root. *)
Definition sample_body : Node := mkNode 1 "body" ∅ ∅ [].

Definition sample_world (r : RenderAsPromise) : World := setDomRenderer r sample_page.



(** What the parameter pattern binds for [sample_options]. *)
Definition sample_bound (output : string) (scale : float) (throwErrors : bool)
  : BoundOptions :=
  {| bound_format := PNG; bound_injectSelector := [SelType "body"];
     bound_output := output; bound_scale := scale; bound_quality := 0.97%float;
     bound_throwErrors := throwErrors; bound_ignoreAllSelectors := [] |}.


(** * Properties *)

(** ** The image source: percent-escaping, [unescape] and base64 *)

Section Encoding.

Ltac zdiv := Z.to_euclidean_division_equations; lia.

Lemma Zrange_forallb (p : Z -> bool) (n : nat) :
  forallb p (map Z.of_nat (seq 0 n)) = true ->
  forall d, 0 <= d < Z.of_nat n -> p d = true.
Proof.
  intros H d Hd.
  rewrite forallb_forall in H. apply H.
  apply in_map_iff. exists (Z.to_nat d). split; [lia|].
  apply in_seq. lia.
Qed.

Lemma hex_value_digit d : 0 <= d < 16 -> hex_value (hex_digit d) = Some d.
Proof.
  intros Hd.
  apply (Zrange_forallb (fun d => bool_decide (hex_value (hex_digit d) = Some d)) 16) in Hd.
  - by apply bool_decide_eq_true in Hd.
  - vm_compute. reflexivity.
Qed.

Lemma hex_digit_not_u d : 0 <= d < 16 -> (hex_digit d =? 0x75) = false.
Proof.
  intros Hd. unfold hex_digit. destruct (d <? 10) eqn:E; lia.
Qed.

Lemma unescape_percent_escape b r :
  0 <= b < 256 -> unescape (percent_escape b ++ r) = b :: unescape r.
Proof.
  intros Hb. unfold percent_escape.
  assert (H1 : 0 <= b / 16 < 16) by zdiv.
  assert (H2 : 0 <= b mod 16 < 16) by zdiv.
  cbn [app unescape].
  replace (37 =? 37) with true by reflexivity.
  rewrite hex_digit_not_u by assumption.
  unfold hex_value2. rewrite !hex_value_digit by assumption.
  f_equal. zdiv.
Qed.

Lemma unescape_percent_escapes bs r :
  Forall (fun b => 0 <= b < 256) bs ->
  unescape (percent_escapes bs ++ r) = bs ++ unescape r.
Proof.
  induction 1 as [|b bs Hb _ IH]; [reflexivity|].
  unfold percent_escapes in *. cbn [flat_map].
  rewrite <- app_assoc, unescape_percent_escape by assumption.
  by rewrite IH.
Qed.

Lemma unescape_unescaped c r :
  is_uri_unescaped c = true -> unescape (c :: r) = c :: unescape r.
Proof.
  intros Hc. cbn [unescape].
  destruct (c =? 37) eqn:E; [|reflexivity].
  apply Z.eqb_eq in E. subst c. discriminate Hc.
Qed.

Lemma utf8_octets_range cp :
  0 <= cp < 0x110000 -> Forall (fun b => 0 <= b < 256) (utf8_octets cp).
Proof.
  intros Hcp. unfold utf8_octets.
  repeat match goal with
         | |- context [if ?b then _ else _] => destruct b eqn:?
         end;
    repeat constructor; zdiv.
Qed.

Lemma surrogate_pair_range c d :
  is_leading_surrogate c = true -> is_trailing_surrogate d = true ->
  0x10000 <= surrogate_pair_to_code_point c d < 0x110000.
Proof.
  unfold is_leading_surrogate, is_trailing_surrogate, surrogate_pair_to_code_point.
  lia.
Qed.

Lemma unescaped_is_ascii c :
  is_uri_unescaped c = true ->
  0 <= c < 0x80 /\ is_leading_surrogate c = false /\ is_trailing_surrogate c = false.
Proof.
  unfold is_uri_unescaped, is_leading_surrogate, is_trailing_surrogate. lia.
Qed.


Lemma list_pair_ind {A} (Q : list A -> Prop) :
  Q [] ->
  (forall c rest, Q rest -> (forall d rest', rest = d :: rest' -> Q rest') -> Q (c :: rest)) ->
  forall s, Q s.
Proof.
  intros Hnil Hstep s.
  enough (H : Q s /\ (forall d rest', s = d :: rest' -> Q rest')) by apply H.
  induction s as [|c rest [IH1 IH2]].
  - split; [exact Hnil | discriminate].
  - split; [by apply Hstep|]. intros d rest' [= -> ->]. exact IH1.
Qed.

Lemma code_points_decodes s : forall cps, code_points s = Some cps -> decodes_to s cps.
Proof.
  induction s as [|c rest IH1 IH2] using list_pair_ind; intros cps; cbn [code_points].
  - intros [= <-]. constructor.
  - destruct (is_leading_surrogate c) eqn:Hl.
    + destruct rest as [|d rest']; [discriminate|].
      destruct (is_trailing_surrogate d) eqn:Ht; [|discriminate].
      destruct (code_points rest') as [cps'|] eqn:E; [|discriminate].
      intros [= <-]. constructor; try assumption. by eapply IH2.
    + destruct (is_trailing_surrogate c) eqn:Ht; [discriminate|].
      destruct (code_points rest) as [cps'|] eqn:E; [|discriminate].
      intros [= <-]. constructor; try assumption. by apply IH1.
Qed.

Lemma code_points_none s : code_points s = None -> encodeURIComponent s = Throw URIError.
Proof.
  induction s as [|c rest IH1 IH2] using list_pair_ind;
    cbn [code_points encodeURIComponent]; [discriminate|].
  destruct (is_uri_unescaped c) eqn:Hu.
  - destruct (unescaped_is_ascii c Hu) as (_ & -> & ->).
    destruct (code_points rest); [discriminate|]. intros _. by rewrite IH1.
  - destruct (is_leading_surrogate c).
    + destruct rest as [|d rest']; [reflexivity|].
      destruct (is_trailing_surrogate d); [|reflexivity].
      destruct (code_points rest') eqn:E; [discriminate|]. intros _.
      by rewrite (IH2 d rest' eq_refl).
    + destruct (is_trailing_surrogate c); [reflexivity|].
      destruct (code_points rest); [discriminate|]. intros _. by rewrite IH1.
Qed.

Lemma decodes_scalar s cps :
  decodes_to s cps -> Forall code_unit s ->
  Forall (fun cp => is_scalar_value cp = true) cps.
Proof.
  induction 1 as [|c s cps Hl Ht _ IH|c d s cps Hl Ht _ IH]; intros Hs.
  - constructor.
  - inversion Hs; subst. constructor; [|by apply IH].
    unfold is_scalar_value, is_leading_surrogate, is_trailing_surrogate, code_unit in *. lia.
  - inversion Hs as [|? ? _ Hs']; subst. inversion Hs'; subst.
    constructor; [|by apply IH].
    pose proof (surrogate_pair_range c d Hl Ht). unfold is_scalar_value. lia.
Qed.

Lemma scalar_range cp : is_scalar_value cp = true -> 0 <= cp < 0x110000.
Proof. unfold is_scalar_value. lia. Qed.

Lemma decodes_utf16 s cps :
  decodes_to s cps -> Forall code_unit s -> flat_map utf16_units cps = s.
Proof.
  induction 1 as [|c s cps Hl Ht _ IH|c d s cps Hl Ht _ IH]; intros Hs; cbn [flat_map].
  - reflexivity.
  - inversion Hs as [|? ? Hc Hs']; subst. rewrite IH by assumption.
    unfold utf16_units, code_unit in *.
    destruct (c <? 65536) eqn:E; [reflexivity | lia].
  - inversion Hs as [|? ? _ Hs']; subst. inversion Hs'; subst.
    rewrite IH by assumption. unfold utf16_units.
    pose proof (surrogate_pair_range c d Hl Ht).
    destruct (_ <? 65536) eqn:E; [lia|].
    unfold surrogate_pair_to_code_point, is_leading_surrogate, is_trailing_surrogate in *.
    cbn [app]. f_equal; [|f_equal]; zdiv.
Qed.

(** [unescape] undoes the percent-escapes of [encodeURIComponent] and
    leaves the UTF-8 octets of the string, one code unit per octet. *)
Lemma unescape_encodeURIComponent s cps :
  decodes_to s cps -> Forall code_unit s ->
  exists escaped, encodeURIComponent s = Ok escaped /\
                  unescape escaped = flat_map utf8_octets cps.
Proof.
  induction 1 as [|c s cps Hl Ht _ IH|c d s cps Hl Ht _ IH]; intros Hs.
  - by exists [].
  - inversion Hs as [|? ? Hc Hs']; subst.
    destruct (IH Hs') as (e & He & Hu).
    cbn [encodeURIComponent flat_map]. rewrite He, Hl, Ht.
    destruct (is_uri_unescaped c) eqn:Huc.
    + exists (c :: e). split; [reflexivity|].
      rewrite unescape_unescaped, Hu by assumption.
      destruct (unescaped_is_ascii c Huc) as (Hr & _).
      unfold utf8_octets. destruct (c <? 128) eqn:E; [reflexivity | lia].
    + eexists. split; [reflexivity|].
      rewrite unescape_percent_escapes, Hu; [reflexivity|].
      apply utf8_octets_range. unfold code_unit in Hc. lia.
  - inversion Hs as [|? ? _ Hs']; subst. inversion Hs' as [|? ? _ Hs'']; subst.
    destruct (IH Hs'') as (e & He & Hu).
    cbn [encodeURIComponent flat_map]. rewrite He, Hl, Ht.
    assert (is_uri_unescaped c = false) as ->.
    { destruct (is_uri_unescaped c) eqn:Huc; [|reflexivity].
      destruct (unescaped_is_ascii c Huc) as (_ & Hl' & _). congruence. }
    eexists. split; [reflexivity|].
    rewrite unescape_percent_escapes, Hu; [reflexivity|].
    apply utf8_octets_range. pose proof (surrogate_pair_range c d Hl Ht). lia.
Qed.

Lemma utf8_octets_all cps :
  Forall (fun cp => is_scalar_value cp = true) cps ->
  Forall (fun b => 0 <= b < 256) (flat_map utf8_octets cps).
Proof.
  induction 1 as [|cp cps Hcp _ IH]; cbn [flat_map]; [constructor|].
  apply Forall_app. split; [|exact IH].
  by apply utf8_octets_range, scalar_range.
Qed.

Lemma btoa_octets bs :
  Forall (fun b => 0 <= b < 256) bs -> btoa bs = Ok (base64_encode bs).
Proof.
  intros H. unfold btoa.
  assert (forallb is_octet bs = true) as ->; [|reflexivity].
  apply forallb_forall. intros b Hb. rewrite Forall_forall in H.
  apply list_elem_of_In, H in Hb. unfold is_octet. lia.
Qed.

(** *** base64 *)

Lemma base64_value_char x : 0 <= x < 64 -> base64_value (base64_char x) = Some x.
Proof.
  intros Hx.
  apply (Zrange_forallb (fun d => bool_decide (base64_value (base64_char d) = Some d)) 64) in Hx.
  - by apply bool_decide_eq_true in Hx.
  - vm_compute. reflexivity.
Qed.

Lemma base64_char_not_pad x : 0 <= x < 64 -> (base64_char x =? 0x3D) = false.
Proof.
  intros Hx. unfold base64_char.
  repeat match goal with
         | |- context [if ?b then _ else _] => destruct b eqn:?
         end; lia.
Qed.

Lemma list_triple_ind {A} (Q : list A -> Prop) :
  Q [] -> (forall a, Q [a]) -> (forall a b, Q [a; b]) ->
  (forall a b c rest, Q rest -> Q (a :: b :: c :: rest)) ->
  forall l, Q l.
Proof.
  intros H0 H1 H2 H3 l.
  enough (H : Q l /\ (forall a, Q (a :: l)) /\ (forall a b, Q (a :: b :: l)))
    by apply H.
  induction l as [|x l (IHa & IHb & IHc)]; [by repeat split|].
  split; [apply IHb|]. split; [intros a; apply IHc|].
  intros a b. by apply H3.
Qed.

Lemma base64_round_trip bs :
  Forall (fun b => 0 <= b < 256) bs -> base64_decode (base64_encode bs) = Some bs.
Proof.
  induction bs as [|b0|b0 b1|b0 b1 b2 rest IH] using list_triple_ind; intros H.
  - reflexivity.
  - inversion H as [|? ? H0 _]; subst.
    cbn [base64_encode base64_decode].
    rewrite !base64_value_char by zdiv.
    cbn. do 2 f_equal. zdiv.
  - inversion H as [|? ? H0 Hr]; subst. inversion Hr as [|? ? H1 _]; subst.
    cbn [base64_encode base64_decode].
    rewrite !base64_value_char by zdiv.
    rewrite base64_char_not_pad by zdiv.
    cbn. do 2 f_equal; [|f_equal]; zdiv.
  - inversion H as [|? ? H0 Hr]; subst. inversion Hr as [|? ? H1 Hs]; subst.
    inversion Hs as [|? ? H2 Ht]; subst.
    cbn [base64_encode base64_decode].
    rewrite !base64_value_char by zdiv.
    rewrite !base64_char_not_pad by zdiv.
    rewrite IH by assumption. cbn [fmap option_fmap option_map].
    do 2 f_equal; [|f_equal; [|f_equal]]; zdiv.
Qed.

(** *** UTF-8 *)

Lemma utf8_decode_octets cp rest :
  is_scalar_value cp = true ->
  utf8_decode (utf8_octets cp ++ rest) = cons cp <$> utf8_decode rest.
Proof.
  intros Hcp. unfold utf8_octets, is_scalar_value in *.
  destruct (cp <? 128) eqn:E1; [|destruct (cp <? 2048) eqn:E2;
                                 [|destruct (cp <? 65536) eqn:E3]];
    cbn [app utf8_decode].
  - assert ((0 <=? cp) && (cp <? 128) = true) as -> by lia. reflexivity.
  - set (b0 := 192 + cp / 64). set (b1 := 128 + cp mod 64).
    assert (Hb0 : 192 <= b0 < 224) by (subst b0; zdiv).
    assert (Hb1 : 128 <= b1 < 192) by (subst b1; zdiv).
    assert (Hv : (b0 - 192) * 64 + (b1 - 128) = cp) by (subst b0 b1; zdiv).
    rewrite Hv. unfold is_continuation.
    assert ((0 <=? b0) && (b0 <? 128) = false) as -> by lia.
    assert ((192 <=? b0) && (b0 <? 224) = true) as -> by lia.
    assert ((128 <=? b1) && (b1 <? 192) && (128 <=? cp) = true) as -> by lia.
    reflexivity.
  - set (b0 := 224 + cp / 4096). set (b1 := 128 + (cp / 64) mod 64).
    set (b2 := 128 + cp mod 64).
    assert (Hb0 : 224 <= b0 < 240) by (subst b0; zdiv).
    assert (Hb1 : 128 <= b1 < 192) by (subst b1; zdiv).
    assert (Hb2 : 128 <= b2 < 192) by (subst b2; zdiv).
    assert (Hv : (b0 - 224) * 4096 + (b1 - 128) * 64 + (b2 - 128) = cp)
      by (subst b0 b1 b2; zdiv).
    rewrite Hv. unfold is_continuation, is_scalar_value.
    assert ((0 <=? b0) && (b0 <? 128) = false) as -> by lia.
    assert ((192 <=? b0) && (b0 <? 224) = false) as -> by lia.
    assert ((224 <=? b0) && (b0 <? 240) = true) as -> by lia.
    assert ((128 <=? b1) && (b1 <? 192) && ((128 <=? b2) && (b2 <? 192))
            && (2048 <=? cp)
            && ((0 <=? cp) && (cp <? 1114112) && negb ((55296 <=? cp) && (cp <=? 57343)))
            = true) as -> by lia.
    reflexivity.
  - set (b0 := 240 + cp / 262144). set (b1 := 128 + (cp / 4096) mod 64).
    set (b2 := 128 + (cp / 64) mod 64). set (b3 := 128 + cp mod 64).
    assert (Hb0 : 240 <= b0 < 248) by (subst b0; zdiv).
    assert (Hb1 : 128 <= b1 < 192) by (subst b1; zdiv).
    assert (Hb2 : 128 <= b2 < 192) by (subst b2; zdiv).
    assert (Hb3 : 128 <= b3 < 192) by (subst b3; zdiv).
    assert (Hv : (b0 - 240) * 262144 + (b1 - 128) * 4096 + (b2 - 128) * 64 + (b3 - 128) = cp)
      by (subst b0 b1 b2 b3; zdiv).
    rewrite Hv. unfold is_continuation, is_scalar_value.
    assert ((0 <=? b0) && (b0 <? 128) = false) as -> by lia.
    assert ((192 <=? b0) && (b0 <? 224) = false) as -> by lia.
    assert ((224 <=? b0) && (b0 <? 240) = false) as -> by lia.
    assert ((240 <=? b0) && (b0 <? 248) = true) as -> by lia.
    assert ((128 <=? b1) && (b1 <? 192) && ((128 <=? b2) && (b2 <? 192))
            && ((128 <=? b3) && (b3 <? 192)) && (65536 <=? cp)
            && ((0 <=? cp) && (cp <? 1114112) && negb ((55296 <=? cp) && (cp <=? 57343)))
            = true) as -> by lia.
    reflexivity.
Qed.

Lemma utf8_round_trip cps :
  Forall (fun cp => is_scalar_value cp = true) cps ->
  utf8_decode (flat_map utf8_octets cps) = Some cps.
Proof.
  induction 1 as [|cp cps Hcp _ IH]; cbn [flat_map]; [reflexivity|].
  by rewrite utf8_decode_octets, IH.
Qed.
Lemma is_js_string_units s : is_js_string s = true -> Forall code_unit s.
Proof.
  unfold is_js_string. rewrite forallb_forall, Forall_forall.
  intros H u Hu. apply list_elem_of_In, H in Hu. unfold is_code_unit, code_unit in *. lia.
Qed.

(** An unpaired surrogate makes [encodeURIComponent], and with it the whole
    expression, raise URIError. *)
Lemma image_src_ill_formed svgData :
  is_well_formed svgData = false -> image_src svgData = Throw URIError.
Proof.
  unfold is_well_formed, image_src.
  destruct (code_points svgData) eqn:E; [discriminate|]. intros _.
  by rewrite code_points_none.
Qed.

(** C8 (amended): for every serialized string that is well-formed UTF-16 (no
    unpaired surrogate), ASCII or not, the image source computed by
    [copyToCanvas] is ["data:image/svg+xml;base64,"] followed by the base64
    encoding of the UTF-8 octets of the string, and decoding that base64
    payload as UTF-8 gives the string back. *)
Theorem copyToCanvas_image_src_round_trip (svgData : JSString) :
  is_js_string svgData = true ->
  is_well_formed svgData = true ->
  exists octets,
    utf8_encode svgData = Some octets /\
    image_src svgData = Ok (svg_data_uri_prefix ++ base64_encode octets) /\
    decode_payload (base64_encode octets) = Some svgData /\
    forall (P : Platform) (source : Node) (scale : float) (canvas : Canvas),
      serializeToString P source = svgData ->
      copyToCanvas P source scale = Ok (Fulfilled canvas) ->
      drawn canvas = [svg_data_uri_prefix ++ base64_encode octets].
Proof.
  intros Hunits%is_js_string_units Hwf. unfold is_well_formed in Hwf.
  destruct (code_points svgData) as [cps|] eqn:Hcps; [|discriminate].
  apply code_points_decodes in Hcps as Hdec.
  pose proof (decodes_scalar _ _ Hdec Hunits) as Hscalar.
  destruct (unescape_encodeURIComponent _ _ Hdec Hunits) as (escaped & Hesc & Hun).
  assert (Hsrc : image_src svgData
                 = Ok (svg_data_uri_prefix ++ base64_encode (flat_map utf8_octets cps))).
  { unfold image_src. rewrite Hesc, Hun, btoa_octets; [reflexivity|].
    by apply utf8_octets_all. }
  exists (flat_map utf8_octets cps). repeat split.
  - unfold utf8_encode. by rewrite Hcps.
  - exact Hsrc.
  - unfold decode_payload.
    rewrite base64_round_trip by (by apply utf8_octets_all).
    rewrite utf8_round_trip by assumption. cbn.
    by rewrite (decodes_utf16 _ _ Hdec Hunits).
  - intros P source scale canvas Hser. unfold copyToCanvas.
    destruct (getContext2d P); [|discriminate]. cbn [negb].
    rewrite Hser, Hsrc. destruct (load_image P _); [|discriminate].
    unfold scale_context. destruct (is_finite scale && is_finite scale); cbn;
      by intros [= <-].
Qed.
End Encoding.

(** A serialization with non-ASCII text, one character outside the basic
    plane included. *)
Lemma copyToCanvas_image_src_round_trip_witness :
  is_js_string svg_text_non_ascii = true /\
  is_well_formed svg_text_non_ascii = true /\
  exists octets,
    utf8_encode svg_text_non_ascii = Some octets /\
    image_src svg_text_non_ascii = Ok (svg_data_uri_prefix ++ base64_encode octets) /\
    decode_payload (base64_encode octets) = Some svg_text_non_ascii /\
    forall (P : Platform) (source : Node) (scale : float) (canvas : Canvas),
      serializeToString P source = svg_text_non_ascii ->
      copyToCanvas P source scale = Ok (Fulfilled canvas) ->
      drawn canvas = [svg_data_uri_prefix ++ base64_encode octets].
Proof.
  split; [reflexivity|]. split; [reflexivity|].
  apply (copyToCanvas_image_src_round_trip svg_text_non_ascii); reflexivity.
Defined.

(** C8, as stated, fails on a string with an unpaired surrogate: a text node
    holding the single code unit U+D800 serializes to a string on which
    [encodeURIComponent] raises URIError, so [copyToCanvas] throws and no
    payload is produced. *)
Lemma image_src_unpaired_surrogate :
  is_js_string svg_text_lone_surrogate = true /\
  is_well_formed svg_text_lone_surrogate = false /\
  encodeURIComponent svg_text_lone_surrogate = Throw URIError /\
  image_src svg_text_lone_surrogate = Throw URIError /\
  copyToCanvas (sample_platform_serializing svg_text_lone_surrogate) sample_svg 1
  = Throw URIError.
Proof. repeat split; vm_compute; reflexivity. Qed.

(** ** The size of the canvas *)

Section CanvasSize.
Variable P : Platform.

(** The floor of [m * 2^e] is [m] shifted by [e]. *)
Lemma Qfloor_binary m e : Qfloor (inject_Z (Z.pos m) * 2 ^ e)%Q = Z.shiftl (Z.pos m) e.
Proof.
  destruct (Z_le_gt_dec 0 e) as [He|He].
  - rewrite Z.shiftl_mul_pow2 by assumption.
    assert (Hq : (inject_Z (Z.pos m) * 2 ^ e == inject_Z (Z.pos m * 2 ^ e))%Q).
    { rewrite inject_Z_mult. apply Qmult_comp; [reflexivity|].
      symmetry. exact (Zpower_Qpower 2 e He). }
    rewrite Hq. apply Qfloor_Z.
  - destruct e as [|k|k]; try lia.
    change (Z.neg k) with (- Z.pos k).
    rewrite Z.shiftl_opp_r, Z.shiftr_div_pow2 by lia.
    assert (Hp : 0 < 2 ^ Z.pos k) by (apply Z.pow_pos_nonneg; lia).
    assert (Hq : (inject_Z (Z.pos m) * 2 ^ (- Z.pos k)
                  == Z.pos m # Z.to_pos (2 ^ Z.pos k))%Q).
    { rewrite Qpower_opp, (Qmake_Qdiv (Z.pos m)). rewrite Z2Pos.id by assumption.
      unfold Qdiv. apply Qmult_comp; [reflexivity|]. apply Qinv_comp.
      symmetry. apply (Zpower_Qpower 2 (Z.pos k)). lia. }
    rewrite Hq. unfold Qfloor. by rewrite Z2Pos.id.
Qed.

Lemma Qfloor_range q n : (0 <= q)%Q -> (q < inject_Z n)%Q -> 0 <= Qfloor q < n.
Proof.
  intros H0 H1. split.
  - change 0 with (Qfloor 0). by apply Qfloor_resp_le.
  - rewrite Zlt_Qlt. eapply Qle_lt_trans; [apply Qfloor_le | exact H1].
Qed.

Lemma set_canvas_dimension_floor default v q :
  number_value v = Some q -> (0 <= q)%Q -> (q < 2147483648)%Q ->
  set_canvas_dimension default v = Qfloor q.
Proof.
  unfold number_value, set_canvas_dimension, to_unsigned_long, integer_part.
  destruct (Prim2SF v) as [s|s| |s m e]; try discriminate.
  - intros [= <-] _ _. reflexivity.
  - intros [= <-] H0 H1.
    assert (Hpos : (0 < inject_Z (Z.pos m) * 2 ^ e)%Q).
    { apply Qmult_lt_0_compat; [|by apply Qpower_0_lt].
      change 0%Q with (inject_Z 0). rewrite <- Zlt_Qlt. lia. }
    destruct s.
    + exfalso. apply (Qlt_not_le _ _ Hpos).
      assert (Hv : (-1 * inject_Z (Z.pos m) * 2 ^ e == - (inject_Z (Z.pos m) * 2 ^ e))%Q)
        by ring.
      rewrite Hv in H0. apply Qopp_le_compat in H0. by rewrite Qopp_opp in H0.
    + assert (Hv : (1 * inject_Z (Z.pos m) * 2 ^ e == inject_Z (Z.pos m) * 2 ^ e)%Q) by ring.
      rewrite Hv in H0, H1 |- *.
      pose proof (Qfloor_range _ 2147483648 H0 H1) as Hr.
      rewrite Qfloor_binary in *.
      rewrite Z.mod_small by lia.
      destruct (Z.shiftl (Z.pos m) e <=? 2147483647) eqn:E; [reflexivity | lia].
Qed.

(** The canvas a fulfilled [copyToCanvas] promise carries. *)
Lemma copyToCanvas_canvas source scale canvas :
  copyToCanvas P source scale = Ok (Fulfilled canvas) ->
  width canvas
  = set_canvas_dimension 300 (rect_width (getBoundingClientRect P source) * scale)%float
  /\ height canvas
     = set_canvas_dimension 150 (rect_height (getBoundingClientRect P source) * scale)%float
  /\ style_width canvas = Some (Px (rect_width (getBoundingClientRect P source)))
  /\ style_height canvas = Some (Px (rect_height (getBoundingClientRect P source)))
  /\ context_scale canvas = (if is_finite scale then (scale, scale) else (1%float, 1%float))
  /\ exists src, image_src (serializeToString P source) = Ok src /\ drawn canvas = [src].
Proof.
  unfold copyToCanvas. destruct (getContext2d P); [|discriminate]. cbn [negb].
  destruct (image_src _) as [src|]; [|discriminate].
  destruct (load_image P src); [|discriminate]. unfold scale_context.
  rewrite andb_diag. destruct (is_finite scale); cbn; intros [= <-]; cbn; eauto 10.
Qed.

(** C4 (amended): the sides of the bounding box and the scale factor are
    binary64 numbers and so are their products, as JavaScript rounds them.
    Whenever the product for the width and the product for the height are
    finite, not below 0 and below 2^31, the canvas of [copyToCanvas] has
    pixel dimensions floor(product) by floor(product), the assignment to
    [canvas.width] and [canvas.height] dropping the fraction, and its CSS
    style dimensions are the unscaled sourceWidth by sourceHeight. *)
Theorem copyToCanvas_dimensions (source : Node) (scale : float) (canvas : Canvas)
        (pixelWidth pixelHeight : Q) :
  let svgSize := getBoundingClientRect P source in
  number_value (rect_width svgSize * scale)%float = Some pixelWidth ->
  number_value (rect_height svgSize * scale)%float = Some pixelHeight ->
  (0 <= pixelWidth)%Q -> (pixelWidth < 2147483648)%Q ->
  (0 <= pixelHeight)%Q -> (pixelHeight < 2147483648)%Q ->
  copyToCanvas P source scale = Ok (Fulfilled canvas) ->
  width canvas = Qfloor pixelWidth
  /\ height canvas = Qfloor pixelHeight
  /\ style_width canvas = Some (Px (rect_width svgSize))
  /\ style_height canvas = Some (Px (rect_height svgSize)).
Proof.
  intros svgSize Hw Hh Hw0 Hw1 Hh0 Hh1 Hc.
  destruct (copyToCanvas_canvas _ _ _ Hc) as (-> & -> & -> & -> & _).
  fold svgSize.
  rewrite (set_canvas_dimension_floor 300 _ _ Hw Hw0 Hw1).
  rewrite (set_canvas_dimension_floor 150 _ _ Hh Hh0 Hh1).
  done.
Qed.
End CanvasSize.

(** A 100 by 100 box at scale 0.3: the binary64 product is 30, and the
    canvas is 30 by 30 pixels. The exact product of the two numbers is
    below 30, the number 0.3 being below three tenths. *)
Lemma copyToCanvas_dimensions_witness :
  exists canvas product,
    copyToCanvas (sample_platform_sized 100) sample_svg 0.3 = Ok (Fulfilled canvas) /\
    number_value (100 * 0.3)%float = Some product /\
    (product == 30)%Q /\ Qfloor product = 30 /\
    (exists s, number_value 0.3%float = Some s /\ Qfloor (100 * s) = 29) /\
    (width canvas = Qfloor product
     /\ height canvas = Qfloor product
     /\ style_width canvas = Some (Px 100)
     /\ style_height canvas = Some (Px 100)).
Proof.
  eexists _, _. split; [vm_compute; reflexivity|]. split; [vm_compute; reflexivity|].
  split; [reflexivity|]. split; [reflexivity|].
  split; [eexists; split; vm_compute; reflexivity|].
  apply (copyToCanvas_dimensions (sample_platform_sized 100) sample_svg 0.3);
    solve [vm_compute; reflexivity | vm_compute; discriminate].
Defined.

(** A box of side 3 at the scale 1/3: the binary64 product is 1, and so is
    the dimension. *)
Lemma set_canvas_dimension_third :
  set_canvas_dimension 300 (3 * (1 / 3))%float = 1.
Proof. reflexivity. Qed.

(** C4, as stated, fails when a product is not an integer: a 101 by 101 box
    at scale 1.5 gives a canvas of 151 by 151 pixels, where the product is
    151.5 exactly and its ceiling is 152. *)
Lemma copyToCanvas_not_ceiling :
  exists canvas product,
    copyToCanvas (sample_platform true LoadSucceeds None) sample_svg 1.5
    = Ok (Fulfilled canvas) /\
    rect_width (getBoundingClientRect (sample_platform true LoadSucceeds None) sample_svg)
    = 101%float /\
    number_value (101 * 1.5)%float = Some product /\
    (product == 303 # 2)%Q /\
    width canvas = 151 /\ height canvas = 151 /\
    Qceiling product = 152.
Proof.
  eexists _, _. split; [vm_compute; reflexivity|]. split; [reflexivity|].
  split; [vm_compute; reflexivity|]. by repeat split.
Qed.

(** ** The removal phase of [normaliseSvg] *)

Section Trees.
Lemma Node_ind' (Q : Node -> Prop) :
  (forall n, Forall Q (children n) -> Q n) -> forall n, Q n.
Proof.
  intros Hstep. fix IH 1. intros [i t a s cs]. apply Hstep. cbn.
  induction cs as [|c cs IHcs]; constructor; [apply IH | exact IHcs].
Qed.

Lemma located_descendants_eq n :
  located_descendants n = located_children 0 (children n).
Proof.
  destruct n as [i t a s cs]. cbn. generalize 0%nat.
  induction cs as [|c cs IH]; intros k; [reflexivity|].
  cbn. by rewrite IH.
Qed.

Lemma prune_eq p n : prune p n = with_children n (prune_children p (children n)).
Proof.
  destruct n as [i t a s cs]. unfold with_children. cbn. f_equal.
  induction cs as [|c cs IH]; [reflexivity|].
  cbn. by rewrite IH.
Qed.

Lemma detach_eq id n : detach id n = with_children n (detach_children id (children n)).
Proof.
  destruct n as [i t a s cs]. unfold with_children. cbn. f_equal.
  induction cs as [|c cs IH]; [reflexivity|].
  cbn. by rewrite IH.
Qed.

Lemma detach_prune id n : detach id n = prune (fun c => Nat.eqb (nid c) id) n.
Proof.
  induction n as [n IH] using Node_ind'.
  rewrite detach_eq, prune_eq. f_equal.
  induction IH as [|c cs Hc _ IHcs]; cbn; [reflexivity|].
  rewrite Hc, IHcs. reflexivity.
Qed.

Lemma descendants_eq n :
  descendants n = flat_map (fun c => c :: descendants c) (children n).
Proof.
  unfold descendants at 1. rewrite located_descendants_eq. generalize 0%nat.
  induction (children n) as [|c cs IH]; intros k; [reflexivity|].
  cbn. rewrite map_app, IH. reflexivity.
Qed.

Lemma elem_of_descendants d n :
  d ∈ descendants n <-> exists c, c ∈ children n /\ (d = c \/ d ∈ descendants c).
Proof.
  rewrite descendants_eq, list_elem_of_In, in_flat_map.
  split; intros (c & Hc & Hd); exists c.
  - apply list_elem_of_In in Hc. split; [done|].
    destruct Hd as [->|Hd]; [by left | right; by apply list_elem_of_In].
  - apply list_elem_of_In in Hc. split; [done|].
    destruct Hd as [->|Hd]; [by left | right; by apply list_elem_of_In].
Qed.

Lemma prune_head p n :
  nid (prune p n) = nid n /\ tagName (prune p n) = tagName n /\
  attributes (prune p n) = attributes n /\ style (prune p n) = style n.
Proof. rewrite prune_eq. by destruct n. Qed.

Lemma local_pred_prune p q n : local_pred p -> p (prune q n) = p n.
Proof. intros Hp. destruct (prune_head q n) as (? & ? & ? & _). by apply Hp. Qed.

Lemma prune_prune p q n :
  local_pred q -> prune q (prune p n) = prune (fun c => p c || q c) n.
Proof.
  intros Hq. induction n as [n IH] using Node_ind'.
  rewrite (prune_eq p n), (prune_eq q), (prune_eq (fun c => p c || q c)).
  destruct n as [i t a s cs]. unfold with_children. cbn in *. f_equal.
  induction IH as [|c cs Hc _ IHcs]; cbn; [reflexivity|].
  destruct (p c); cbn; [exact IHcs|].
  rewrite local_pred_prune by assumption.
  destruct (q c); [exact IHcs|]. by rewrite Hc, IHcs.
Qed.

Lemma prune_ext p q n :
  (forall d, d ∈ descendants n -> p d = q d) -> prune p n = prune q n.
Proof.
  induction n as [n IH] using Node_ind'. intros Hpq.
  rewrite (prune_eq p), (prune_eq q). f_equal.
  assert (Hsub : forall c, c ∈ children n -> forall d, d = c \/ d ∈ descendants c -> p d = q d).
  { intros c Hc d Hd. apply Hpq, elem_of_descendants. eauto. }
  clear Hpq. induction IH as [|c cs Hc _ IHcs]; cbn; [reflexivity|].
  rewrite (Hsub c) by (by left || by constructor).
  rewrite Hc, IHcs; [reflexivity| |].
  - intros c' Hc' d Hd. eapply Hsub; [by right|done].
  - intros d Hd. apply (Hsub c); [by left | by right].
Qed.

Lemma prune_none n : prune (fun _ => false) n = n.
Proof.
  induction n as [n IH] using Node_ind'. rewrite prune_eq.
  destruct n as [i t a s cs]. unfold with_children. cbn in *. f_equal.
  induction IH as [|c cs Hc _ IHcs]; cbn; [reflexivity|]. by rewrite Hc, IHcs.
Qed.

Lemma remove_all_prune_from els : forall p n,
  local_pred p ->
  remove_all els (prune p n) = prune (fun c => p c || among els c) n.
Proof.
  induction els as [|el els IH]; intros p n Hp; cbn.
  - apply prune_ext. intros d _. by rewrite orb_false_r.
  - rewrite detach_prune, prune_prune.
    + unfold remove_all in IH. rewrite IH.
      * apply prune_ext. intros d _. by rewrite orb_assoc.
      * intros x y Hid Ht Ha. rewrite (Hp x y), Hid by assumption. reflexivity.
    + intros x y Hid _ _. by rewrite Hid.
Qed.

Lemma remove_all_prune els n : remove_all els n = prune (among els) n.
Proof.
  rewrite <- (prune_none n) at 1. rewrite remove_all_prune_from; [|done].
  apply prune_ext. done.
Qed.

(** *** Selectors that look at the element alone *)

Lemma matches_local sel i j n :
  selector_is_local sel = true -> matches sel i n = matches sel j n.
Proof.
  unfold selector_is_local, matches.
  induction sel as [|s sel IH]; cbn; [done|].
  intros [Hs Hsel]%andb_true_iff. rewrite IH by assumption.
  f_equal. by destruct s.
Qed.

Lemma matches_local_pred sel :
  selector_is_local sel = true -> local_pred (matches sel 0).
Proof.
  unfold selector_is_local, matches. intros Hsel n m _ Ht Ha.
  induction sel as [|s sel IH]; cbn in *; [done|].
  apply andb_true_iff in Hsel as [Hs Hsel]. rewrite IH by assumption.
  f_equal. destruct s; cbn; try done; by rewrite ?Ht, ?Ha.
Qed.

Lemma matches_any_local_pred sels :
  Forall (fun sel => selector_is_local sel = true) sels -> local_pred (matches_any sels).
Proof.
  unfold matches_any. intros Hs n m Hid Ht Ha.
  induction Hs as [|sel sels Hsel _ IH]; cbn; [done|].
  by rewrite IH, (matches_local_pred sel Hsel n m).
Qed.

Lemma elem_of_querySelectorAll sel n d :
  d ∈ querySelectorAll sel n <->
  exists i, (i, d) ∈ located_descendants n /\ matches sel i d = true.
Proof.
  unfold querySelectorAll. rewrite list_elem_of_fmap. split.
  - intros ([i d'] & -> & H%list_elem_of_filter). exists i. cbn in *. tauto.
  - intros (i & Hin & Hm). exists (i, d). split; [done|].
    apply list_elem_of_filter. done.
Qed.

Lemma elem_of_descendants_located d n :
  d ∈ descendants n <-> exists i, (i, d) ∈ located_descendants n.
Proof.
  unfold descendants. rewrite list_elem_of_fmap. split.
  - intros ([i d'] & -> & H). by exists i.
  - intros (i & H). by exists (i, d).
Qed.

Lemma NoDup_fmap_inj {A B} (f : A -> B) (l : list A) x y :
  NoDup (f <$> l) -> x ∈ l -> y ∈ l -> f x = f y -> x = y.
Proof.
  induction l as [|a l IH]; cbn; [by intros _ ?%elem_of_nil|].
  intros [Ha Hl]%NoDup_cons [->|Hx]%elem_of_cons [->|Hy]%elem_of_cons Hf; auto.
  - exfalso. apply Ha. rewrite Hf. by apply list_elem_of_fmap_2.
  - exfalso. apply Ha. rewrite <- Hf. by apply list_elem_of_fmap_2.
Qed.

Lemma among_querySelectorAll sel n d :
  unique_ids n -> selector_is_local sel = true -> d ∈ descendants n ->
  among (querySelectorAll sel n) d = matches sel 0 d.
Proof.
  intros Hu Hsel Hd.
  apply NoDup_cons in Hu as [_ Hu]. fold (fmap (M:=list) nid (descendants n)) in Hu.
  destruct (matches sel 0 d) eqn:Hm.
  - apply existsb_exists. exists d. split; [|apply Nat.eqb_refl].
    apply list_elem_of_In, elem_of_querySelectorAll.
    apply elem_of_descendants_located in Hd as [i Hi]. exists i. split; [done|].
    by rewrite (matches_local sel i 0).
  - apply not_true_is_false. intros (e & He & Hid)%existsb_exists.
    apply list_elem_of_In, elem_of_querySelectorAll in He as (i & Hi & Hme).
    apply Nat.eqb_eq in Hid.
    assert (d = e) as ->.
    { eapply (NoDup_fmap_inj nid); eauto. apply elem_of_descendants_located. eauto. }
    rewrite (matches_local sel i 0) in Hme by assumption. congruence.
Qed.

Lemma remove_selector_prune sel n :
  unique_ids n -> selector_is_local sel = true ->
  remove_all (querySelectorAll sel n) n = prune (matches sel 0) n.
Proof.
  intros Hu Hsel. rewrite remove_all_prune. apply prune_ext.
  intros d Hd. by apply among_querySelectorAll.
Qed.

(** *** Identities after pruning *)

Lemma descendant_ids_prune p n :
  (nid <$> descendants (prune p n)) `sublist_of` (nid <$> descendants n).
Proof.
  induction n as [n IH] using Node_ind'.
  rewrite (descendants_eq n), (descendants_eq (prune p n)), prune_eq.
  destruct n as [i t a s cs]. cbn in *.
  induction IH as [|c cs Hc _ IHcs]; cbn; [done|].
  destruct (p c); cbn.
  - rewrite fmap_app. apply sublist_cons, sublist_inserts_l, IHcs.
  - rewrite !fmap_app. destruct (prune_head p c) as (-> & _).
    apply sublist_skip, sublist_app; [apply Hc | apply IHcs].
Qed.

Lemma unique_ids_prune p n : unique_ids n -> unique_ids (prune p n).
Proof.
  unfold unique_ids, node_ids. intros Hu.
  eapply sublist_NoDup; [exact Hu|].
  destruct (prune_head p n) as (-> & _).
  apply sublist_skip, descendant_ids_prune.
Qed.

(** The removal phase on selectors that look at the element alone. *)
Lemma remove_ignored_prune sels : forall n,
  unique_ids n -> Forall (fun sel => selector_is_local sel = true) sels ->
  remove_ignored n sels = prune (matches_any sels) n.
Proof.
  induction sels as [|sel sels IH]; intros n Hu Hs.
  - cbn. symmetry. apply prune_none.
  - inversion Hs as [|? ? Hsel Hsels]; subst.
    unfold remove_ignored in *. cbn [fold_left].
    rewrite remove_selector_prune by assumption.
    rewrite IH by (assumption || by apply unique_ids_prune).
    rewrite prune_prune by (by apply matches_any_local_pred).
    reflexivity.
Qed.

Lemma prune_no_match p n d :
  local_pred p -> d ∈ descendants (prune p n) -> p d = false.
Proof.
  intros Hp. induction n as [n IH] using Node_ind'.
  rewrite elem_of_descendants, prune_eq.
  destruct n as [i t a s cs]. cbn in *.
  intros (c & Hc & Hd).
  induction IH as [|c0 cs Hc0 _ IHcs]; cbn in Hc; [by apply elem_of_nil in Hc|].
  destruct (p c0) eqn:Hpc; [by apply IHcs|].
  apply elem_of_cons in Hc as [->|Hc]; [|by apply IHcs].
  destruct Hd as [->|Hd]; [|by apply Hc0].
  by rewrite local_pred_prune.
Qed.

Lemma kept_descendants_eq sels n :
  kept_descendants sels n = kept_children sels (children n).
Proof.
  destruct n as [i t a s cs]. cbn.
  induction cs as [|c cs IH]; [reflexivity|]. cbn. by rewrite IH.
Qed.

Lemma kept_descendants_prune sels n d :
  d ∈ kept_descendants sels n ->
  prune (matches_any sels) d ∈ descendants (prune (matches_any sels) n).
Proof.
  induction n as [n IH] using Node_ind'.
  rewrite kept_descendants_eq, elem_of_descendants, prune_eq.
  destruct n as [i t a s cs]. cbn in *.
  induction IH as [|c cs Hc _ IHcs]; cbn; [by intros ?%elem_of_nil|].
  destruct (matches_any sels c) eqn:Hm; [exact IHcs|].
  intros [->|[Hd|Hd]%elem_of_app]%elem_of_cons.
  - eexists. split; [by left | by left].
  - eexists. split; [by left | right; by apply Hc].
  - destruct (IHcs Hd) as (c' & Hc' & Hd'). exists c'. split; [by right | done].
Qed.

Lemma prune_children_ids p cs :
  nid <$> prune_children p cs = nid <$> filter (fun c => p c = false) cs.
Proof.
  induction cs as [|c cs IH]; [reflexivity|].
  rewrite filter_cons. cbn [prune_children]. destruct (p c) eqn:Hp.
  - rewrite decide_False by congruence. exact IH.
  - rewrite decide_True by reflexivity. rewrite !fmap_cons.
    destruct (prune_head p c) as (-> & _). by rewrite IH.
Qed.

Lemma matches_any_perm sels sels' n :
  Permutation sels sels' -> matches_any sels n = matches_any sels' n.
Proof.
  unfold matches_any. induction 1 as [|x l l' _ IH|x y l|l l' l'' _ IH1 _ IH2]; cbn.
  - reflexivity.
  - by rewrite IH.
  - by rewrite !orb_assoc, (orb_comm (matches y 0 n)).
  - by rewrite IH1.
Qed.

(** C6 (amended): for every SVG tree whose elements have distinct identities
    and every list S of selectors that look at the element alone (type and
    attribute selectors, no structural pseudo-class), after the removal phase
    of [normaliseSvg] no proper descendant of the root matches a selector of
    S; every descendant that neither matches a selector of S nor lies below
    one that does is still present, with its tag, attributes and style, and
    its children are its former children that match no selector of S, in
    order; and the resulting tree is the same for every order of S. *)
Theorem normaliseSvg_removal_local (svg : Node) (S : list Selector) :
  unique_ids svg ->
  Forall (fun sel => selector_is_local sel = true) S ->
  let svg' := remove_ignored svg S in
  (forall i d sel, (i, d) ∈ located_descendants svg' -> sel ∈ S -> matches sel i d = false)
  /\ (forall d, d ∈ kept_descendants S svg ->
        exists d', d' ∈ descendants svg' /\ nid d' = nid d /\ tagName d' = tagName d /\
                   attributes d' = attributes d /\ style d' = style d /\
                   nid <$> children d' =
                   nid <$> filter (fun c => matches_any S c = false) (children d))
  /\ (forall S', Permutation S S' -> remove_ignored svg S' = svg').
Proof.
  intros Hu HS svg'. subst svg'. rewrite remove_ignored_prune by assumption.
  split; [|split].
  - intros i d sel Hd Hsel.
    assert (Hm : matches_any S d = false).
    { eapply prune_no_match; [by apply matches_any_local_pred|].
      apply elem_of_descendants_located. eauto. }
    apply not_true_is_false. intros Hmatch.
    assert (matches_any S d = true); [|congruence].
    apply existsb_exists. exists sel. split; [by apply list_elem_of_In|].
    rewrite Forall_forall in HS.
    by rewrite (matches_local sel 0 i) by (by apply HS).
  - intros d Hd. exists (prune (matches_any S) d).
    split; [by apply kept_descendants_prune|].
    destruct (prune_head (matches_any S) d) as (-> & -> & -> & ->).
    repeat split. rewrite prune_eq. destruct d. cbn. apply prune_children_ids.
  - intros S' Hperm.
    rewrite remove_ignored_prune; [|assumption|by rewrite <- Hperm].
    apply prune_ext. intros d _. symmetry. by apply matches_any_perm.
Qed.
End Trees.

Lemma normaliseSvg_removal_local_witness :
  unique_ids svg_group_of_rect /\
  Forall (fun sel => selector_is_local sel = true) [[SelType "rect"]; [SelHasAttr "hidden"]] /\
  let svg' := remove_ignored svg_group_of_rect [[SelType "rect"]; [SelHasAttr "hidden"]] in
  (forall i d sel, (i, d) ∈ located_descendants svg' ->
                   sel ∈ [[SelType "rect"]; [SelHasAttr "hidden"]] ->
                   matches sel i d = false)
  /\ (forall d, d ∈ kept_descendants [[SelType "rect"]; [SelHasAttr "hidden"]]
                                     svg_group_of_rect ->
        exists d', d' ∈ descendants svg' /\ nid d' = nid d /\ tagName d' = tagName d /\
                   attributes d' = attributes d /\ style d' = style d /\
                   nid <$> children d' =
                   nid <$> filter (fun c => matches_any [[SelType "rect"]; [SelHasAttr "hidden"]] c
                                            = false) (children d))
  /\ (forall S', Permutation [[SelType "rect"]; [SelHasAttr "hidden"]] S' ->
                 remove_ignored svg_group_of_rect S' = svg').
Proof.
  assert (Hu : unique_ids svg_group_of_rect).
  { unfold unique_ids. by compute_done. }
  assert (Hl : Forall (fun sel => selector_is_local sel = true)
                      [[SelType "rect"]; [SelHasAttr "hidden"]])
    by (repeat constructor).
  split; [exact Hu|]. split; [exact Hl|].
  exact (normaliseSvg_removal_local svg_group_of_rect
           [[SelType "rect"]; [SelHasAttr "hidden"]] Hu Hl).
Defined.

(** C6, as stated, fails in four ways. The root is never among the elements
    [querySelectorAll] returns, so a root that matches stays. With the
    structural selector [:first-child], removing the first child makes the
    second one match. An element that stays loses the children that are
    removed. And with [g] and [rect:first-child] the outcome depends on the
    order of the selectors. *)
Lemma normaliseSvg_removal_counterexamples :
  matches [SelType "svg"] 0 (remove_ignored bare_svg [[SelType "svg"]]) = true
  /\ (exists i d, (i, d) ∈ located_descendants (remove_ignored svg_g_rect [[SelNthChild 1]])
                  /\ matches [SelNthChild 1] i d = true)
  /\ (exists g g', g ∈ kept_descendants [[SelType "rect"]] svg_group_of_rect
                   /\ g' ∈ descendants (remove_ignored svg_group_of_rect [[SelType "rect"]])
                   /\ nid g' = nid g /\ children g <> children g')
  /\ remove_ignored svg_g_rect [[SelType "g"]; [SelType "rect"; SelNthChild 1]]
     <> remove_ignored svg_g_rect [[SelType "rect"; SelNthChild 1]; [SelType "g"]].
Proof.
  split; [reflexivity|]. split; [|split].
  - exists 0%nat, (mkNode 2 "rect" ∅ ∅ []). split; [|reflexivity].
    vm_compute. by left.
  - exists (mkNode 1 "g" ∅ ∅ [mkNode 2 "rect" ∅ ∅ []]), (mkNode 1 "g" ∅ ∅ []).
    split; [vm_compute; by left|]. split; [vm_compute; by left|].
    split; [reflexivity | discriminate].
  - vm_compute. discriminate.
Qed.

(** ** [inlineStyles] *)

Section InlineStylesProofs.
Variable getComputedStyle : Node -> ComputedStyle.
Variable setStyle : StyleSetter.

Lemma inlineStyles_eq source target :
  inlineStyles getComputedStyle setStyle source target =
  match inline_children getComputedStyle setStyle (children source) (children target) with
  | Throws e cs =>
    Throws e (mkNode (nid target) (tagName target) (attributes target)
                     (copy_computed setStyle (getComputedStyle source) (style target)) cs)
  | Returns cs =>
    Returns (mkNode (nid target) (tagName target) (attributes target)
                    (copy_computed setStyle (getComputedStyle source) (style target)) cs)
  end.
Proof.
  destruct source as [i t a s ss], target as [i' t' a' s' ts]. cbn.
  match goal with
  | |- match ?x with _ => _ end = match ?y with _ => _ end => assert (x = y) as ->; [|done]
  end.
  revert ts. induction ss as [|c ss IH]; intros ts; [reflexivity|].
  destruct ts as [|d ts]; cbn.
  - destruct (inlineStyles_undefined getComputedStyle c); [apply IH | reflexivity].
  - by rewrite IH.
Qed.

Lemma congruent_eq s t :
  congruent s t = congruent_children (children s) (children t).
Proof.
  destruct s as [i tg a st ss], t as [i' t' a' s' ts]. cbn.
  revert ts. induction ss as [|c ss IH]; intros [|d ts]; reflexivity.
Qed.

Lemma copy_computed_lookup computed st key :
  copy_computed verbatim_setter computed st !! key = inlined_style computed st key.
Proof.
  unfold copy_computed, inlined_style, verbatim_setter.
  generalize (map fst computed). intros keys. revert st.
  induction keys as [|k keys IH]; intros st; cbn [fold_left].
  - rewrite decide_False; [done|]. intros [_ H]. by apply elem_of_nil in H.
  - rewrite IH. destruct (String.eqb_spec k "visibility") as [->|Hk].
    + apply decide_ext. rewrite elem_of_cons. tauto.
    + destruct (decide (key = k)) as [->|Hne].
      * rewrite (decide_True (P := _ /\ k ∈ k :: keys)) by (split; [done | by left]).
        case_decide; [done | by rewrite lookup_insert_eq].
      * rewrite lookup_insert_ne by done.
        apply decide_ext. rewrite elem_of_cons. tauto.
Qed.

(** In a computed style that lists each property once, the value read by
    name is the value listed with the name. *)
Lemma computed_value_listed computed key value :
  NoDup (map fst computed) -> (key, value) ∈ computed ->
  computed_value computed key = value.
Proof.
  induction computed as [|[k v] rest IH]; intros Hnd Hin; [by apply elem_of_nil in Hin|].
  cbn [map fst] in Hnd. apply NoDup_cons in Hnd as [Hk Hnd]. cbn [computed_value].
  apply elem_of_cons in Hin as [[= -> ->]|Hin]; [by rewrite String.eqb_refl|].
  destruct (String.eqb_spec k key) as [->|_]; [|by apply IH].
  exfalso. apply Hk. apply list_elem_of_fmap. by exists (key, value).
Qed.

(** The loop over the property names makes one assignment for each listed
    pair but the one of [visibility], in the order of the list. *)
Lemma copy_computed_assign computed st :
  NoDup (map fst computed) ->
  copy_computed setStyle computed st
  = assign_all setStyle (filter (fun pair => pair.1 <> "visibility") computed) st.
Proof.
  intros Hnd. unfold copy_computed, assign_all.
  assert (Haux : forall l st,
             (forall k v, (k, v) ∈ l -> computed_value computed k = v) ->
             fold_left (fun acc styleKey =>
                          if String.eqb styleKey "visibility" then acc
                          else setStyle styleKey (computed_value computed styleKey) acc)
                       (map fst l) st
             = fold_left (fun acc pair => setStyle pair.1 pair.2 acc)
                         (filter (fun pair => pair.1 <> "visibility") l) st).
  { clear st. induction l as [|[k v] l IH]; intros st Hl; [reflexivity|].
    cbn [map fst fold_left]. rewrite filter_cons. cbn [fst snd].
    destruct (String.eqb_spec k "visibility") as [->|Hk].
    - rewrite decide_False by (intros H; by apply H).
      apply IH. intros k' v' Hin. apply Hl. by right.
    - rewrite decide_True by done. cbn [fold_left fst snd].
      rewrite (Hl k v) by (by left).
      apply IH. intros k' v' Hin. apply Hl. by right. }
  apply Haux. intros k v. by apply computed_value_listed.
Qed.

(** The pairwise recursion over the children succeeds on congruent child
    lists and gives, index by index, the result of the recursive call. *)
Lemma inline_children_congruent ss : forall ts,
  Forall (fun s => forall t, congruent s t = true ->
                   exists t', inlineStyles getComputedStyle setStyle s t = Returns t') ss ->
  congruent_children ss ts = true ->
  exists ts', inline_children getComputedStyle setStyle ss ts = Returns ts' /\
              forall i s t, nth_error ss i = Some s -> nth_error ts i = Some t ->
                exists t', nth_error ts' i = Some t' /\
                           inlineStyles getComputedStyle setStyle s t = Returns t'.
Proof.
  induction ss as [|s ss IH]; intros [|t ts] Hall Hc; try discriminate.
  - exists []. split; [reflexivity|]. intros [|i] ? ? ?; discriminate.
  - inversion Hall as [|? ? Hs Hss]; subst. cbn in Hc.
    apply andb_true_iff in Hc as [Hst Hc].
    destruct (Hs t Hst) as (t' & Ht'). destruct (IH ts Hss Hc) as (ts' & Hts' & Hnth).
    exists (t' :: ts'). cbn. rewrite Ht', Hts'. split; [reflexivity|].
    intros [|i] s0 t0; cbn.
    + intros [= <-] [= <-]. eauto.
    + apply Hnth.
Qed.

Lemma inlineStyles_congruent source : forall target,
  congruent source target = true ->
  exists target', inlineStyles getComputedStyle setStyle source target = Returns target'.
Proof.
  induction source as [source IH] using Node_ind'. intros target Hc.
  rewrite congruent_eq in Hc. rewrite inlineStyles_eq.
  destruct (inline_children_congruent _ _ IH Hc) as (ts' & -> & _). eauto.
Qed.

(** C5: the computed style of an element lists each property once, and the
    setter of a style declaration is the platform's. For every pair of
    structurally congruent source and target trees [inlineStyles] succeeds,
    and at every position of the trees, paired in document order, the style
    declaration of the target element is the one it had with one assignment
    made for each computed style property of the source element other than
    [visibility], of the value listed for that property, in the order of
    the list. No assignment is made for [visibility], at any element. *)
Theorem inlineStyles_copies_computed (source target : Node) :
  (forall n, NoDup (map fst (getComputedStyle n))) ->
  congruent source target = true ->
  exists target',
    inlineStyles getComputedStyle setStyle source target = Returns target' /\
    forall path s t,
      node_at path source = Some s -> node_at path target = Some t ->
      exists t', node_at path target' = Some t' /\
                 style t'
                 = assign_all setStyle
                              (filter (fun pair => pair.1 <> "visibility")
                                      (getComputedStyle s))
                              (style t).
Proof.
  intros Hnd. revert target. induction source as [source IH] using Node_ind'.
  intros target Hc.
  rewrite congruent_eq in Hc. rewrite inlineStyles_eq.
  assert (Hall : Forall (fun s => forall t, congruent s t = true ->
                   exists t', inlineStyles getComputedStyle setStyle s t = Returns t')
                        (children source)).
  { apply Forall_forall. intros s _ t. apply inlineStyles_congruent. }
  destruct (inline_children_congruent _ _ Hall Hc) as (ts' & -> & Hnth).
  eexists. split; [reflexivity|].
  intros [|i path] s t; cbn [node_at children].
  - intros [= <-] [= <-]. eexists. split; [reflexivity|]. cbn [style].
    by apply copy_computed_assign.
  - destruct (nth_error (children source) i) as [s0|] eqn:Hs0; [|discriminate].
    destruct (nth_error (children target) i) as [t0|] eqn:Ht0; [|discriminate].
    intros Hs Ht. destruct (Hnth i s0 t0 Hs0 Ht0) as (t0' & -> & Hrec).
    rewrite Forall_forall in IH.
    assert (Hin : s0 ∈ children source)
      by (apply list_elem_of_In; eapply nth_error_In; eassumption).
    assert (Hc0 : congruent s0 t0 = true).
    { clear -Hc Hs0 Ht0. revert i Hs0 Ht0.
      generalize dependent (children target).
      induction (children source) as [|a ss IHs]; intros [|b ts] Hc [|i]; cbn;
        try discriminate.
      - intros [= <-] [= <-]. cbn in Hc. by apply andb_true_iff in Hc as [? _].
      - cbn in Hc. apply andb_true_iff in Hc as [_ Hc]. by apply IHs. }
    destruct (IH s0 Hin t0 Hc0) as (t0'' & Heq & Hpath).
    rewrite Hrec in Heq. injection Heq as <-. by apply Hpath.
Qed.
End InlineStylesProofs.

(** The rendered circle copied onto a clone that already declares its root
    visible, with a declaration block that keeps the assigned strings: the
    root and the circle get [fill: red], the root stays visible and the
    circle gets no [visibility] at all. *)
Lemma inlineStyles_copies_computed_witness :
  (forall n, NoDup (map fst (sample_computed n))) /\
  congruent sample_svg sample_clone = true /\
  exists target' circle',
    inlineStyles sample_computed verbatim_setter sample_svg sample_clone = Returns target' /\
    node_at [0%nat] target' = Some circle' /\
    style target' !! "fill" = Some "red" /\
    style target' !! "visibility" = Some "visible" /\
    style circle' !! "fill" = Some "red" /\
    style circle' !! "visibility" = None.
Proof.
  assert (Hnd : forall n, NoDup (map fst (sample_computed n))) by (intros n; by compute_done).
  split; [exact Hnd|]. split; [reflexivity|].
  destruct (inlineStyles_copies_computed sample_computed verbatim_setter
              sample_svg sample_clone Hnd eq_refl) as (target' & Htarget & Hpaths).
  destruct (Hpaths [] _ _ eq_refl eq_refl) as (root' & Hroot & Hroot_style).
  destruct (Hpaths [0%nat] _ _ eq_refl eq_refl) as (circle' & Hcircle & Hcircle_style).
  injection Hroot as <-.
  exists target', circle'. split; [exact Htarget|]. split; [exact Hcircle|].
  rewrite Hroot_style, Hcircle_style. by repeat split.
Defined.

(** ** The injector container *)

Section Uuid.




Lemma uuid_replace_counter template : forall random k,
  snd (uuid_replace random k template)
  = (k + length (filter (fun c => is_018 c = true) (list_ascii_of_string template)))%nat.
Proof.
  induction template as [|c rest IH]; intros random k; cbn [uuid_replace].
  - cbn. lia.
  - cbn [list_ascii_of_string]. rewrite filter_cons. destruct (is_018 c) eqn:Hc.
    + specialize (IH random (S k)).
      destruct (uuid_replace random (S k) rest) as [r1 k1]. cbn [snd] in *.
      rewrite decide_True by done. cbn [length]. lia.
    + specialize (IH random k).
      destruct (uuid_replace random k rest) as [r1 k1]. cbn [snd] in *.
      rewrite decide_False by congruence. exact IH.
Qed.





(** Each identifier uses 31 random bytes of its own. *)
Lemma uuidv4_random_calls (P : Platform) (w : World) :
  random_calls (snd (uuidv4 P w)) = (random_calls w + 31)%nat.
Proof.
  unfold uuidv4.
  pose proof (uuid_replace_counter uuid_template (getRandomValues P) (random_calls w)) as H.
  destruct (uuid_replace _ _ _) as [s k]. cbn [snd random_calls set_random_calls] in *.
  rewrite H. reflexivity.
Qed.
End Uuid.

Section Injector.
Variable renderId : string.

Let sel : Selector := [SelAttr INJECTOR_CONTAINER_ATTRIBUTE renderId].

Lemma matches_marker i n : matches sel i n = true <-> has_marker renderId n.
Proof.
  unfold sel, matches, has_marker. cbn. rewrite andb_true_r.
  apply bool_decide_eq_true.
Qed.

Lemma located_children_app i l1 l2 :
  located_children i (l1 ++ l2) =
  located_children i l1 ++ located_children (i + length l1) l2.
Proof.
  revert i. induction l1 as [|c l1 IH]; intros i; cbn.
  - by rewrite Nat.add_0_r.
  - rewrite IH, <- app_assoc. cbn [length].
    replace (S i + length l1)%nat with (i + S (length l1))%nat by lia. reflexivity.
Qed.

Lemma located_children_members i cs k d :
  (k, d) ∈ located_children i cs ->
  exists c, c ∈ cs /\ (d = c \/ d ∈ descendants c).
Proof.
  revert i. induction cs as [|c cs IH]; intros i; cbn; [by intros ?%elem_of_nil|].
  intros [[= -> ->]|[H|H]%elem_of_app]%elem_of_cons.
  - exists c. split; [by left | by left].
  - exists c. split; [by left|]. right. apply elem_of_descendants_located. eauto.
  - destruct (IH _ H) as (c' & ? & ?). exists c'. split; [by right | done].
Qed.

Lemma filter_none {A} (Q : A -> Prop) `{forall x, Decision (Q x)} (l : list A) :
  (forall x, x ∈ l -> ~ Q x) -> filter Q l = [].
Proof.
  induction l as [|x l IH]; [done|]. intros Hl.
  rewrite filter_cons, decide_False by (apply Hl; by left).
  apply IH. intros y Hy. apply Hl. by right.
Qed.

Lemma no_match_marker_free i cs :
  Forall (marker_free renderId) cs ->
  filter (fun p => matches sel (fst p) (snd p) = true) (located_children i cs) = [].
Proof.
  intros Hfree. apply filter_none. intros [k d] Hin Hm.
  apply matches_marker in Hm. cbn in Hm.
  destruct (located_children_members _ _ _ _ Hin) as (c & Hc & Hd).
  rewrite Forall_forall in Hfree. destruct (Hfree c Hc) as [Hself Hbelow].
  destruct Hd as [->|Hd]; [done | by eapply Hbelow].
Qed.

Lemma querySelector_first_marker root before c after :
  children root = before ++ c :: after ->
  Forall (marker_free renderId) before -> has_marker renderId c ->
  querySelector sel root = Some c.
Proof.
  intros Hch Hfree Hc. unfold querySelector, querySelectorAll.
  rewrite located_descendants_eq, Hch, located_children_app, filter_app.
  rewrite no_match_marker_free by assumption.
  cbn [located_children app]. rewrite filter_cons.
  rewrite decide_True by (by apply matches_marker). reflexivity.
Qed.


Lemma removeChild_unique parent before c after :
  children parent = before ++ c :: after ->
  nid c ∉ map nid (before ++ after) ->
  removeChild parent c = Ok (with_children parent (before ++ after)).
Proof.
  intros Hch Hfresh. unfold removeChild. rewrite Hch.
  assert (existsb (fun x => Nat.eqb (nid x) (nid c)) (before ++ c :: after) = true) as ->.
  { apply existsb_exists. exists c. split; [|apply Nat.eqb_refl].
    apply in_or_app. right. by left. }
  do 2 f_equal.
  assert (Hkeep : forall l, nid c ∉ map nid l ->
                  filter (fun x => Nat.eqb (nid x) (nid c) = false) l = l).
  { induction l as [|x l IH]; [done|]. cbn [map]. intros Hx.
    apply not_elem_of_cons in Hx as [Hne Hx].
    rewrite filter_cons, decide_True by (apply Nat.eqb_neq; congruence).
    by rewrite IH. }
  rewrite map_app in Hfresh. apply not_elem_of_app in Hfresh as [Hb Ha].
  rewrite filter_app, filter_cons, decide_False by (rewrite Nat.eqb_refl; done).
  by rewrite !Hkeep.
Qed.

End Injector.

(** ** The pipeline *)

Section Validation.
Variable P : Platform.

Ltac settle :=
  eexists _, _; refine (conj _ (conj _ (conj eq_refl _))); reflexivity.

(** A promise returned from inside a [try] block becomes the outcome of the
    [async] function as it is: its rejection does not go through the
    handler. *)
Lemma async_try_catch_return {A} (m : Run (Promise A)) (handler : JSError -> Run (Promise A))
      (w w' : World) (p : Promise A) :
  m w = (Normal p, w') -> async (try_catch m handler) w = (p, w').
Proof. intros H. unfold async, try_catch. by rewrite H. Qed.

(** An exception thrown inside the [try] block goes through the handler. *)
Lemma async_try_catch_throw {A} (m : Run (Promise A)) (handler : JSError -> Run (Promise A))
      (w w' : World) (e : JSError) :
  m w = (Abrupt e, w') -> async (try_catch m handler) w = async (handler e) w'.
Proof. intros H. unfold async, try_catch. by rewrite H. Qed.

(** Waiting for a promise that never settles leaves the [async] function
    pending, handler or not. *)
Lemma async_try_catch_suspended {A} (m : Run (Promise A))
      (handler : JSError -> Run (Promise A)) (w w' : World) :
  m w = (Suspended, w') -> async (try_catch m handler) w = (Pending, w').
Proof. intros H. unfold async, try_catch. by rewrite H. Qed.

(** C7: when the rendering callback is not registered, or [injectSelector]
    selects nothing, or [format] or [output] is outside its enumeration, an
    error is raised before the container is created: the document is
    unchanged, no element is allocated, and the only trace of the call is
    the rejection or, with [throwErrors] false, the logged error. *)
Theorem validation_before_mutation (el : JSXElement) (o : RenderSvgAsImageOptions)
        (w : World) :
  validation_fails w o ->
  exists e w',
    document w' = document w /\ next_nid w' = next_nid w /\
    if default true (throwErrors o)
    then renderSvgAsImage P el (Some o) w = (Rejected e, w') /\ trace w' = trace w
    else renderSvgAsImage P el (Some o) w = (Fulfilled (OutString ""), w') /\
         trace w' = trace w ++ [ConsoleErrorValue e].
Proof.
  intros Hfail.
  unfold renderSvgAsImage, async_call, bind_options, async, renderSvgAsImage_body,
    try_catch, bind, uuidv4.
  cbn [bound_format bound_injectSelector bound_output bound_scale bound_quality
       bound_throwErrors bound_ignoreAllSelectors].
  destruct (renderAsPromise w) as [r|] eqn:Hr.
  - cbn [ret].
    destruct (uuid_replace (getRandomValues P) (random_calls w) uuid_template) as [rid k].
    cbn [document set_random_calls].
    destruct (document_querySelector _ (document w)) as [root|] eqn:Hroot.
    + cbn [ret].
      destruct (includes ImageFormat_values _) eqn:Hfmt.
      * destruct (includes ImageOutput_values _) eqn:Hout.
        -- exfalso. destruct Hfail as [?|[?|[?|?]]]; congruence.
        -- cbn [ret throw]. destruct (default true (throwErrors o)); settle.
      * cbn [ret throw]. destruct (default true (throwErrors o)); settle.
    + cbn [throw]. destruct (default true (throwErrors o)); settle.
  - cbn [throw]. destruct (default true (throwErrors o)); settle.
Qed.

Lemma bind_normal {A B} (m : Run A) (k : A -> Run B) (w w' : World) (b : B) :
  bind m k w = (Normal b, w') -> exists a w1, m w = (Normal a, w1) /\ k a w1 = (Normal b, w').
Proof. unfold bind. destruct (m w) as [[a|e|] w1]; [eauto | discriminate | discriminate]. Qed.

(** What the [try] block returns is the promise of [toOutput]. *)
Lemma try_block_returns (el : JSXElement) (format : string) (injectSelector : Selector)
      (output : string) (scale quality : float) (throwErrors : bool)
      (ignoreAllSelectors : list Selector) (w w' : World) (p : Promise Output) (e : JSError) :
  renderSvgAsImage_body P el format injectSelector output scale quality throwErrors
                        ignoreAllSelectors w = (Normal p, w') ->
  p = Rejected e ->
  throwErrors = false ->
  exists canvas, toOutput P canvas output format quality = Rejected e.
Proof.
  unfold renderSvgAsImage_body. unfold try_catch at 1.
  match goal with |- context [bind ?m ?k w] => destruct (bind m k w) as [[q|e'|] w1] eqn:HM end.
  - intros [= -> ->] -> _.
    do 7 (apply bind_normal in HM as (? & ? & _ & HM)).
    apply bind_normal in HM as (renderedSvg & ? & _ & HM).
    destruct renderedSvg as [svg|].
    + do 4 (apply bind_normal in HM as (? & ? & _ & HM)).
      injection HM as <- _. eauto.
    + apply bind_normal in HM as (? & ? & _ & HM). discriminate.
  - intros H -> ->. unfold bind, console_error_value, ret in H. by injection H.
  - discriminate.
Qed.

(** With [throwErrors] false, a rejection of the call can only be the
    rejection of the promise of [toOutput]: whatever is thrown in the [try]
    block is logged and turned into the empty string. *)
Lemma suppressed_rejection (el : JSXElement) (format : string) (injectSelector : Selector)
      (output : string) (scale quality : float) (ignoreAllSelectors : list Selector)
      (w : World) (e : JSError) :
  fst (async (renderSvgAsImage_body P el format injectSelector output scale quality false
                                    ignoreAllSelectors) w) = Rejected e ->
  exists canvas, toOutput P canvas output format quality = Rejected e.
Proof.
  unfold async.
  destruct (renderSvgAsImage_body _ _ _ _ _ _ _ _ _ w) as [[p|e'|] w'] eqn:Hbody;
    cbn [fst]; [| |discriminate].
  - intros ->. by eapply try_block_returns.
  - exfalso. revert Hbody. unfold renderSvgAsImage_body. unfold try_catch at 1.
    match goal with |- context [bind ?m ?k w] => destruct (bind m k w) as [[q|e''|] w1] end;
      discriminate.
Qed.

(** C10: without the options argument, which the published declaration
    allows, binding the parameter pattern raises a TypeError and the call
    rejects with it, whatever the platform, the element and the world. The
    body and its [try] are not entered: nothing is drawn, logged or changed.
    With an options object the binding always succeeds, and when its
    [throwErrors] is false no TypeError ever reaches the caller: the
    rejection for the missing argument is the one that cannot be
    suppressed. *)
Theorem renderSvgAsImage_without_options (el : JSXElement) (w : World) :
  (exists msg, renderSvgAsImage P el None w = (Rejected (TypeError msg), w))
  /\ (forall o, exists b, bind_options (Some o) = Ok b)
  /\ (forall o msg,
        throwErrors o = Some false ->
        fst (renderSvgAsImage P el (Some o) w) <> Rejected (TypeError msg)).
Proof.
  split; [eexists; reflexivity|]. split; [intros o; eexists; reflexivity|].
  intros o msg Hthrow Hrejected.
  unfold renderSvgAsImage, async_call, bind_options in Hrejected.
  cbn [bound_format bound_injectSelector bound_output bound_scale bound_quality
       bound_throwErrors bound_ignoreAllSelectors] in Hrejected.
  rewrite Hthrow in Hrejected. cbn [default] in Hrejected.
  apply suppressed_rejection in Hrejected as (canvas & Hout).
  unfold toOutput, toBlob in Hout.
  destruct (String.eqb _ DATA_URL); [discriminate|].
  by destruct (canvas_toBlob P canvas _ _).
Qed.

(** [copyToCanvas] installs no [onerror] handler: when the image fails to
    load its promise stays pending, and it is never rejected. *)
Lemma copyToCanvas_decode_failure source scale src :
  getContext2d P = true ->
  image_src (serializeToString P source) = Ok src ->
  load_image P src = LoadFails ->
  copyToCanvas P source scale = Ok Pending.
Proof.
  intros Hctx Hsrc Hload. unfold copyToCanvas. by rewrite Hctx, Hsrc, Hload.
Qed.

Lemma copyToCanvas_never_rejects source scale e :
  copyToCanvas P source scale <> Ok (Rejected e).
Proof.
  unfold copyToCanvas. destruct (getContext2d P); [|discriminate]. cbn [negb].
  destruct (image_src _) as [src|]; [|discriminate].
  by destruct (load_image P src).
Qed.
End Validation.

(** An unknown format with the renderer registered and the body found. *)
Lemma validation_before_mutation_witness :
  let o := {| format := Some "gif"; output := None; injectSelector := None;
              ignoreAllSelectors := None; scale := None; quality := None;
              throwErrors := None |} in
  let w := setDomRenderer sample_renderer sample_page in
  let P := sample_platform true LoadSucceeds (Some sample_blob) in
  validation_fails w o /\
  exists e w',
    document w' = document w /\ next_nid w' = next_nid w /\
    if default true (throwErrors o)
    then renderSvgAsImage P sample_element (Some o) w = (Rejected e, w') /\
         trace w' = trace w
    else renderSvgAsImage P sample_element (Some o) w = (Fulfilled (OutString ""), w') /\
         trace w' = trace w ++ [ConsoleErrorValue e].
Proof.
  intros o w P.
  assert (H : validation_fails w o) by (right; right; left; reflexivity).
  split; [exact H|].
  exact (validation_before_mutation P sample_element o w H).
Defined.

(** *** Runs on the sample document

    The rendering callback mounts the circle of the README under [body]; the
    container gets the identity 100 and the identifier [sample_renderId]. *)

Ltac evaluate := vm_compute; reflexivity.
Ltac present := eexists _, _; split; [evaluate | split; evaluate].

(** Success: the container is appended and removed once. *)
Example run_success :
  let r := sample_run (sample_platform true LoadSucceeds (Some sample_blob))
               (sample_options DATA_URL 2 true) sample_renderer in
  fst r = Fulfilled (OutString "data:image/png;base64,AAAA") /\
  trace (snd r) = [ChildAppended 1 100; ChildRemoved 1 100] /\
  document (snd r) = sample_document.
Proof. repeat split; evaluate. Qed.

(** The rendering callback rejects: the inner [catch] removes the container. *)
Example run_render_rejects :
  let r := sample_run (sample_platform true LoadSucceeds (Some sample_blob))
               (sample_options DATA_URL 2 true)
               (fun _ => RenderRejects (RendererError "boom")) in
  fst r = Rejected (RendererError "boom") /\
  trace (snd r) = [ChildAppended 1 100; ChildRemoved 1 100;
                   ConsoleError "Failed to render element"] /\
  document (snd r) = sample_document.
Proof. repeat split; evaluate. Qed.

(** Nothing rendered is an [svg]: the container is removed before the throw. *)
Example run_missing_svg :
  let r := sample_run (sample_platform true LoadSucceeds (Some sample_blob))
               (sample_options DATA_URL 2 true)
               (fun _ => RenderResolves [sample_circle]) in
  fst r = Rejected (Error "Could not find a rendered SVG") /\
  trace (snd r) = [ChildAppended 1 100; ChildRemoved 1 100] /\
  document (snd r) = sample_document.
Proof. repeat split; evaluate. Qed.

(** With [throwErrors] false a rejection of the rendering callback is logged
    and the call resolves with the empty string. *)
Example run_render_rejects_suppressed :
  let r := sample_run (sample_platform true LoadSucceeds (Some sample_blob))
               (sample_options DATA_URL 2 false)
               (fun _ => RenderRejects (RendererError "boom")) in
  fst r = Fulfilled (OutString "") /\
  trace (snd r) = [ChildAppended 1 100; ChildRemoved 1 100;
                   ConsoleError "Failed to render element";
                   ConsoleErrorValue (RendererError "boom")].
Proof. repeat split; evaluate. Qed.

(** C1 fails on the code: when [canvas.getContext("2d")] gives no context,
    [copyToCanvas] throws, the outer [catch] rethrows, and no path removes
    the container: the call rejects with the container, and the rendered
    content in it, still under the injector root. *)
Theorem rasterization_failure_leaves_container :
  let r := sample_run (sample_platform false LoadSucceeds (Some sample_blob))
               (sample_options DATA_URL 2 true) sample_renderer in
  fst r = Rejected (Error "Could not get canvas context") /\
  trace (snd r) = [ChildAppended 1 100] /\
  container_present (snd r) /\
  nid <$> descendants (document (snd r)) = [1; 100; 10; 11]%nat.
Proof. split; [evaluate|]. split; [evaluate|]. split; [present | evaluate]. Qed.

(** C2 fails on the code: when the image source does not decode, the promise
    of [copyToCanvas] is neither rejected nor fulfilled, and the promise of
    [renderSvgAsImage] stays pending with it (the container is left in the
    document as well). *)
Theorem decode_failure_never_settles :
  let P := sample_platform true LoadFails (Some sample_blob) in
  let r := sample_run P (sample_options DATA_URL 2 true) sample_renderer in
  load_image P (svg_data_uri_prefix ++ units_of_string "PHN2Zy8+") = LoadFails /\
  image_src (serializeToString P sample_svg)
  = Ok (svg_data_uri_prefix ++ units_of_string "PHN2Zy8+") /\
  copyToCanvas P sample_svg 2 = Ok Pending /\
  fst r = Pending /\
  trace (snd r) = [ChildAppended 1 100] /\
  container_present (snd r).
Proof. do 5 (split; [evaluate|]). present. Qed.

(** C3 fails on the code: the promise of [toOutput] is returned without
    [await], so its rejection does not pass through the [catch] that reads
    [throwErrors]. With [throwErrors] false and a blob encoding that yields
    nothing, the call rejects, and nothing is logged. *)
Theorem encoding_failure_not_suppressed :
  let r := sample_run (sample_platform true LoadSucceeds None)
               (sample_options BLOB 2 false) sample_renderer in
  fst r = Rejected (Error "Could not convert canvas to blob") /\
  trace (snd r) = [ChildAppended 1 100; ChildRemoved 1 100] /\
  document (snd r) = sample_document.
Proof. repeat split; evaluate. Qed.

(** * Further properties of the code *)

(** ** [inlineStyles] and [normaliseSvg]: outcome and frame *)

Section InlineStylesOutcome.
Variable getComputedStyle : Node -> ComputedStyle.
Variable setStyle : StyleSetter.

(** With a property to assign, the call for a missing child throws at the
    assignment. *)
Lemma inlineStyles_undefined_throws source :
  Exists (fun styleKey => styleKey <> "visibility") (map fst (getComputedStyle source)) ->
  inlineStyles_undefined getComputedStyle source = Throw undefined_style_error.
Proof.
  intros (styleKey & Hin & Hne)%Exists_exists. unfold inlineStyles_undefined.
  assert (existsb (fun styleKey => negb (String.eqb styleKey "visibility"))
                  (map fst (getComputedStyle source)) = true) as ->; [|reflexivity].
  apply existsb_exists. exists styleKey. split; [by apply list_elem_of_In|].
  by destruct (String.eqb_spec styleKey "visibility").
Qed.

Lemma covers_eq s t : covers s t = covers_children (children s) (children t).
Proof.
  destruct s as [i tg a st ss], t as [i' t' a' s' ts]. cbn.
  revert ts. induction ss as [|c ss IH]; intros [|d ts]; reflexivity.
Qed.

Lemma inline_children_covers ss : forall ts,
  (forall n, Exists (fun styleKey => styleKey <> "visibility")
                    (map fst (getComputedStyle n))) ->
  Forall (fun s => forall t,
            (covers s t = true ->
             exists t', inlineStyles getComputedStyle setStyle s t = Returns t')
            /\ (covers s t = false ->
                exists t', inlineStyles getComputedStyle setStyle s t
                           = Throws undefined_style_error t')) ss ->
  (covers_children ss ts = true ->
   exists ts', inline_children getComputedStyle setStyle ss ts = Returns ts')
  /\ (covers_children ss ts = false ->
      exists ts', inline_children getComputedStyle setStyle ss ts
                  = Throws undefined_style_error ts').
Proof.
  induction ss as [|s ss IH]; intros ts Hstyle Hall.
  - split; [eauto | discriminate].
  - inversion Hall as [|? ? Hs Hss]; subst.
    destruct ts as [|t ts].
    { cbn [covers_children inline_children].
      rewrite (inlineStyles_undefined_throws s (Hstyle s)).
      split; [discriminate | eauto]. }
    cbn [covers_children inline_children].
    destruct (Hs t) as [Hok Hthrow]. destruct (IH ts Hstyle Hss) as [IHok IHthrow].
    destruct (covers s t) eqn:Hc; cbn [andb].
    + destruct (Hok eq_refl) as (t' & ->). split.
      * intros Hcs. destruct (IHok Hcs) as (ts' & ->). eauto.
      * intros Hcs. destruct (IHthrow Hcs) as (ts' & ->). eauto.
    + destruct (Hthrow eq_refl) as (t' & ->). split; [discriminate | eauto].
Qed.

Lemma inlineStyles_covers (source target : Node) :
  (forall n, Exists (fun styleKey => styleKey <> "visibility")
                    (map fst (getComputedStyle n))) ->
  (covers source target = true ->
   exists target', inlineStyles getComputedStyle setStyle source target = Returns target')
  /\ (covers source target = false ->
      exists target', inlineStyles getComputedStyle setStyle source target
                      = Throws undefined_style_error target').
Proof.
  intros Hstyle. revert target. induction source as [source IH] using Node_ind'.
  intros target. rewrite covers_eq, inlineStyles_eq.
  destruct (inline_children_covers _ (children target) Hstyle IH) as [Hok Hthrow].
  split.
  - intros Hc. destruct (Hok Hc) as (ts' & ->). eauto.
  - intros Hc. destruct (Hthrow Hc) as (ts' & ->). eauto.
Qed.

(** X1: with computed styles that list a property besides [visibility], as
    those of a browser do, [inlineStyles] succeeds exactly when the target
    has a child for every child of the source at every level reached (it may
    have more); otherwise the missing child is [undefined] and the call
    throws the TypeError of reading its [style]. *)
Theorem inlineStyles_succeeds_iff_covers (source target : Node) :
  (forall n, Exists (fun styleKey => styleKey <> "visibility")
                    (map fst (getComputedStyle n))) ->
  if covers source target
  then exists target', inlineStyles getComputedStyle setStyle source target = Returns target'
  else exists target', inlineStyles getComputedStyle setStyle source target
                       = Throws undefined_style_error target'.
Proof.
  intros Hstyle. destruct (inlineStyles_covers source target Hstyle) as [Hok Hthrow].
  destruct (covers source target); [by apply Hok | by apply Hthrow].
Qed.

Lemma inline_children_nth ss : forall ts ts',
  inline_children getComputedStyle setStyle ss ts = Returns ts' ->
  length ts' = length ts /\
  forall i t, nth_error ts i = Some t ->
    match nth_error ss i with
    | Some s => exists t', nth_error ts' i = Some t' /\
                           inlineStyles getComputedStyle setStyle s t = Returns t'
    | None => nth_error ts' i = Some t
    end.
Proof.
  induction ss as [|s ss IH]; intros ts ts'; cbn [inline_children].
  - intros [= <-]. split; [reflexivity|]. intros i t Ht. by destruct i.
  - destruct ts as [|t0 ts].
    { destruct (inlineStyles_undefined getComputedStyle s); [|discriminate].
      intros Hrest. destruct (IH [] ts' Hrest) as [Hlen _]. split; [exact Hlen|].
      intros i t Ht. by destruct i. }
    destruct (inlineStyles getComputedStyle setStyle s t0) as [t0'|] eqn:E0; [|discriminate].
    destruct (inline_children getComputedStyle setStyle ss ts) as [r|] eqn:Er; [|discriminate].
    intros [= <-]. destruct (IH ts r Er) as [Hlen Hnth]. split; [cbn; lia|].
    intros [|i] t; cbn.
    + intros [= <-]. eauto.
    + apply Hnth.
Qed.

(** X2: whenever [inlineStyles] succeeds, every element of the target keeps
    its identity, tag, attributes and number of children, and an element of
    the target that has no counterpart in the source is not touched at all. *)
Theorem inlineStyles_frame (source target target' : Node) :
  inlineStyles getComputedStyle setStyle source target = Returns target' ->
  forall path t,
    node_at path target = Some t ->
    exists t', node_at path target' = Some t' /\
               nid t' = nid t /\ tagName t' = tagName t /\
               attributes t' = attributes t /\
               length (children t') = length (children t) /\
               (node_at path source = None -> t' = t).
Proof.
  revert target target'. induction source as [source IH] using Node_ind'.
  intros target target'. rewrite inlineStyles_eq.
  destruct (inline_children getComputedStyle setStyle (children source) (children target))
    as [cs|] eqn:Ecs; [|discriminate].
  intros [= <-]. destruct (inline_children_nth _ _ _ Ecs) as [Hlen Hnth].
  intros [|i path] t; cbn [node_at children].
  - intros [= <-]. eexists. split; [reflexivity|]. cbn. repeat split; [done|discriminate].
  - destruct (nth_error (children target) i) as [t0|] eqn:Ht0; [|discriminate].
    intros Ht. specialize (Hnth i t0 Ht0).
    destruct (nth_error (children source) i) as [s0|] eqn:Hs0.
    + destruct Hnth as (t0' & -> & Hrec).
      rewrite Forall_forall in IH.
      assert (Hin : s0 ∈ children source)
        by (apply list_elem_of_In; eapply nth_error_In; eassumption).
      exact (IH s0 Hin t0 t0' Hrec path t Ht).
    + rewrite Hnth. exists t. by rewrite Ht.
Qed.

Lemma congruent_refl n : congruent n n = true.
Proof.
  induction n as [n IH] using Node_ind'. rewrite congruent_eq.
  induction IH as [|c cs Hc _ IHcs]; [reflexivity|]. cbn. by rewrite Hc, IHcs.
Qed.

Lemma remove_ignored_head sels : forall n,
  nid (remove_ignored n sels) = nid n /\ tagName (remove_ignored n sels) = tagName n /\
  attributes (remove_ignored n sels) = attributes n /\
  style (remove_ignored n sels) = style n.
Proof.
  unfold remove_ignored.
  induction sels as [|sel sels IH]; intros n; [done|]. cbn [fold_left].
  destruct (IH (remove_all (querySelectorAll sel n) n)) as (-> & -> & -> & ->).
  rewrite remove_all_prune. apply prune_head.
Qed.

(** X4: for every element and every list of selectors, [normaliseSvg] does
    not throw: after the removal phase the element is inlined onto itself,
    so every child has its counterpart, and the result keeps the identity,
    tag and attributes of the root. *)
Theorem normaliseSvg_never_throws (svg : Node) (ignoreAllSelectors : list Selector) :
  exists svg', normaliseSvg getComputedStyle setStyle svg ignoreAllSelectors = Returns svg' /\
               nid svg' = nid svg /\ tagName svg' = tagName svg /\
               attributes svg' = attributes svg.
Proof.
  unfold normaliseSvg.
  destruct (inlineStyles_congruent getComputedStyle setStyle _ _
              (congruent_refl (remove_ignored svg ignoreAllSelectors))) as (svg' & Hsvg').
  exists svg'. split; [exact Hsvg'|].
  rewrite inlineStyles_eq in Hsvg'.
  destruct (inline_children _ _ _); [|discriminate]. injection Hsvg' as <-.
  cbn [nid tagName attributes].
  destruct (remove_ignored_head ignoreAllSelectors svg) as (-> & -> & -> & _). done.
Qed.
End InlineStylesOutcome.

(** ** [inlineStyles] on a declaration block that keeps the strings *)

Section InlineStylesVerbatim.
Variable getComputedStyle : Node -> ComputedStyle.

Lemma copy_computed_idempotent computed st :
  copy_computed verbatim_setter computed (copy_computed verbatim_setter computed st)
  = copy_computed verbatim_setter computed st.
Proof.
  apply map_eq. intros key. rewrite !copy_computed_lookup. unfold inlined_style.
  case_decide; [reflexivity|]. rewrite copy_computed_lookup. unfold inlined_style.
  by rewrite decide_False.
Qed.

Lemma inline_children_idempotent ss : forall ts ts',
  Forall (fun s => forall t t',
            inlineStyles getComputedStyle verbatim_setter s t = Returns t' ->
            inlineStyles getComputedStyle verbatim_setter s t' = Returns t') ss ->
  inline_children getComputedStyle verbatim_setter ss ts = Returns ts' ->
  inline_children getComputedStyle verbatim_setter ss ts' = Returns ts'.
Proof.
  induction ss as [|s ss IH]; intros ts ts' Hall; cbn [inline_children].
  - by intros [= <-].
  - inversion Hall as [|? ? Hs Hss]; subst.
    destruct ts as [|t0 ts].
    { intros Hrun.
      assert (ts' = []) as ->; [|exact Hrun].
      destruct (inlineStyles_undefined getComputedStyle s); [|discriminate].
      apply inline_children_nth in Hrun as [Hlen _]. by destruct ts'. }
    destruct (inlineStyles getComputedStyle verbatim_setter s t0) as [t0'|] eqn:E0;
      [|discriminate].
    destruct (inline_children getComputedStyle verbatim_setter ss ts) as [r|] eqn:Er;
      [|discriminate].
    intros [= <-]. cbn [inline_children].
    by rewrite (Hs _ _ E0), (IH _ _ Hss Er).
Qed.

(** X3: [inlineStyles] is idempotent: applied again to its own result, with
    the same computed styles, it succeeds and changes nothing. The style
    declarations are the ones that keep the assigned strings. *)
Theorem inlineStyles_idempotent (source target target' : Node) :
  inlineStyles getComputedStyle verbatim_setter source target = Returns target' ->
  inlineStyles getComputedStyle verbatim_setter source target' = Returns target'.
Proof.
  revert target target'. induction source as [source IH] using Node_ind'.
  intros target target'. rewrite !inlineStyles_eq.
  destruct (inline_children getComputedStyle verbatim_setter
                            (children source) (children target))
    as [cs|] eqn:Ecs; [|discriminate].
  intros [= <-]. cbn [children style nid tagName attributes].
  rewrite (inline_children_idempotent _ _ _ IH Ecs).
  by rewrite copy_computed_idempotent.
Qed.
End InlineStylesVerbatim.


(** ** The removal phase with any selectors *)

Section RemovalPhase.

Lemma among_local els : local_pred (among els).
Proof. intros n m Hid _ _. unfold among. by rewrite Hid. Qed.

Lemma node_ids_prune p n : node_ids (prune p n) `sublist_of` node_ids n.
Proof.
  unfold node_ids. destruct (prune_head p n) as (-> & _).
  apply sublist_skip, descendant_ids_prune.
Qed.

Lemma node_ids_remove_ignored sels : forall n,
  node_ids (remove_ignored n sels) `sublist_of` node_ids n.
Proof.
  unfold remove_ignored.
  induction sels as [|sel sels IH]; intros n; [done|]. cbn [fold_left].
  etrans; [apply IH|]. rewrite remove_all_prune. apply node_ids_prune.
Qed.

(** X5: whatever the selectors, structural ones included, the removal phase
    only takes elements out: the identities left are a subsequence of the
    identities before, in the same document order, the root is kept with its
    tag, attributes and style, and distinct identities stay distinct. *)
Theorem removal_only_removes (svg : Node) (ignoreAllSelectors : list Selector) :
  let svg' := remove_ignored svg ignoreAllSelectors in
  node_ids svg' `sublist_of` node_ids svg
  /\ nid svg' = nid svg /\ tagName svg' = tagName svg
  /\ attributes svg' = attributes svg /\ style svg' = style svg
  /\ (unique_ids svg -> unique_ids svg').
Proof.
  intros svg'. subst svg'.
  split; [apply node_ids_remove_ignored|].
  destruct (remove_ignored_head ignoreAllSelectors svg) as (-> & -> & -> & ->).
  repeat split. intros Hu. eapply sublist_NoDup; [exact Hu|].
  apply node_ids_remove_ignored.
Qed.

(** X6: after the loop of one selector, structural or not, none of the
    elements [querySelectorAll] returned for it is left in the tree. *)
Theorem selected_elements_are_removed (svg : Node) (selector : Selector) (el : Node) :
  el ∈ querySelectorAll selector svg ->
  nid el ∉ nid <$> descendants (remove_ignored svg [selector]).
Proof.
  intros Hel Hin. cbn in Hin. rewrite remove_all_prune in Hin.
  apply list_elem_of_fmap in Hin as (d & Hid & Hd).
  apply (prune_no_match _ _ _ (among_local _)) in Hd.
  assert (among (querySelectorAll selector svg) d = true); [|congruence].
  apply existsb_exists. exists el. split; [by apply list_elem_of_In|].
  apply Nat.eqb_eq. done.
Qed.

(** X7: for selectors that look at the element alone, running the removal
    phase a second time changes nothing. *)
Theorem removal_idempotent_local (svg : Node) (S : list Selector) :
  unique_ids svg ->
  Forall (fun sel => selector_is_local sel = true) S ->
  remove_ignored (remove_ignored svg S) S = remove_ignored svg S.
Proof.
  intros Hu HS. rewrite (remove_ignored_prune S svg Hu HS).
  rewrite remove_ignored_prune by (assumption || by apply unique_ids_prune).
  rewrite prune_prune by (by apply matches_any_local_pred).
  apply prune_ext. intros d _. apply orb_diag.
Qed.
End RemovalPhase.

(** ** The image source is base64 text *)

Section ImageSource.

Ltac zdiv := Z.to_euclidean_division_equations; lia.

Lemma base64_char_unit x : 0 <= x < 64 -> is_base64_unit (base64_char x) = true.
Proof.
  intros Hx.
  apply (Zrange_forallb (fun d => is_base64_unit (base64_char d)) 64) in Hx; [done|].
  vm_compute. reflexivity.
Qed.

Lemma base64_encode_units bs :
  Forall (fun b => 0 <= b < 256) bs ->
  Forall (fun u => is_base64_unit u = true) (base64_encode bs) /\
  (Z.of_nat (length (base64_encode bs)) = 4 * ((Z.of_nat (length bs) + 2) / 3)).
Proof.
  induction bs as [|b0|b0 b1|b0 b1 b2 rest IH] using list_triple_ind; intros H.
  - split; [constructor | reflexivity].
  - inversion H as [|? ? H0 _]; subst. cbn [base64_encode]. split; [|reflexivity].
    repeat constructor; apply base64_char_unit; zdiv.
  - inversion H as [|? ? H0 Hr]; subst. inversion Hr as [|? ? H1 _]; subst.
    cbn [base64_encode]. split; [|reflexivity].
    repeat constructor; apply base64_char_unit; zdiv.
  - inversion H as [|? ? H0 Hr]; subst. inversion Hr as [|? ? H1 Hs]; subst.
    inversion Hs as [|? ? H2 Ht]; subst.
    destruct (IH Ht) as [IHu IHl]. cbn [base64_encode]. split.
    + repeat (constructor; [apply base64_char_unit; zdiv|]). exact IHu.
    + cbn [length]. rewrite !Nat2Z.inj_succ. zdiv.
Qed.

(** X8: whatever the text of the serialized document, a data URI that
    [copyToCanvas] hands to the image is the fixed prefix followed by
    characters of the base64 alphabet and padding only, in groups of four:
    no character of the document reaches the URI unencoded. *)
Theorem image_src_is_base64 (svgData src : JSString) :
  image_src svgData = Ok src ->
  exists b64, src = svg_data_uri_prefix ++ b64 /\
              Forall (fun u => is_base64_unit u = true) b64 /\
              (Z.of_nat (length b64) mod 4 = 0).
Proof.
  unfold image_src. destruct (encodeURIComponent svgData) as [escaped|]; [|discriminate].
  unfold btoa. destruct (forallb is_octet (unescape escaped)) eqn:Hoct; [|discriminate].
  intros [= <-]. eexists. split; [reflexivity|].
  assert (Hb : Forall (fun b => 0 <= b < 256) (unescape escaped)).
  { apply Forall_forall. intros b Hb. rewrite forallb_forall in Hoct.
    apply list_elem_of_In, Hoct in Hb. unfold is_octet in Hb. lia. }
  destruct (base64_encode_units _ Hb) as [Hu Hl]. split; [exact Hu|].
  rewrite Hl. rewrite Z.mul_comm. apply Z_mod_mult.
Qed.
End ImageSource.

(** ** [uuidv4] *)

Section UuidFormat.

Lemma uuid_mask_bound c r :
  is_018 c = true ->
  0 <= Z.land (r mod 256) (Z.shiftr 15 (digit_value c / 4))
    <= Z.shiftr 15 (digit_value c / 4).
Proof.
  intros Hc.
  assert (Hm : Z.shiftr 15 (digit_value c / 4) = 15 \/ Z.shiftr 15 (digit_value c / 4) = 3).
  { unfold is_018 in Hc.
    repeat (apply orb_true_iff in Hc as [Hc|Hc]); apply Ascii.eqb_eq in Hc; subst c;
      vm_compute; tauto. }
  destruct Hm as [-> | ->].
  - change 15 with (Z.ones 4). rewrite Z.land_ones by lia.
    pose proof (Z.mod_pos_bound (r mod 256) (2 ^ 4)). change (Z.ones 4) with 15. lia.
  - change 3 with (Z.ones 2). rewrite Z.land_ones by lia.
    pose proof (Z.mod_pos_bound (r mod 256) (2 ^ 2)). change (Z.ones 2) with 3. lia.
Qed.

Lemma uuid_replace_fits template : forall pattern random k,
  template_fits template pattern = true ->
  matches_pattern pattern (fst (uuid_replace random k template)) = true.
Proof.
  induction template as [|c rest IH]; intros [|p pattern] random k; cbn [template_fits];
    try discriminate; [reflexivity|].
  intros [Hc Hrest]%andb_true_iff. cbn [uuid_replace].
  destruct (is_018 c) eqn:H018.
  - specialize (IH pattern random (S k) Hrest).
    destruct (uuid_replace random (S k) rest) as [r k']. cbn [fst] in *.
    cbn [matches_pattern]. rewrite IH, andb_true_r.
    rewrite forallb_forall in Hc. apply Hc.
    pose proof (uuid_mask_bound c (random k) H018) as Hb.
    apply in_map_iff. exists (Z.to_nat (Z.land (random k mod 256)
                                               (Z.shiftr 15 (digit_value c / 4)))).
    split; [lia|]. apply in_seq. lia.
  - specialize (IH pattern random k Hrest).
    destruct (uuid_replace random k rest) as [r k']. cbn [fst] in *.
    cbn [matches_pattern]. by rewrite Hc, IH.
Qed.

Lemma matches_pattern_length pattern : forall s,
  matches_pattern pattern s = true -> String.length s = String.length pattern.
Proof.
  induction pattern as [|p pattern IH]; intros [|c s]; cbn; try discriminate; [done|].
  intros [_ H]%andb_true_iff. by rewrite (IH _ H).
Qed.

(** X9: whatever the random bytes, [uuidv4] returns a string of 36
    characters in the textual form of a version 4 identifier: lower-case
    hexadecimal digits in groups of 8, 4, 4, 4 and 12 separated by hyphens,
    the third group starting with [4] and the fourth with [8], [9], [a] or
    [b]; it draws 31 random bytes. *)
Theorem uuidv4_format (P : Platform) (w : World) :
  exists s,
    uuidv4 P w = (Normal s, set_random_calls (random_calls w + 31)%nat w)
    /\ matches_pattern uuid_v4_pattern s = true
    /\ String.length s = 36%nat.
Proof.
  unfold uuidv4.
  pose proof (uuid_replace_fits uuid_template uuid_v4_pattern (getRandomValues P)
                (random_calls w)) as Hfit.
  pose proof (uuid_replace_counter uuid_template (getRandomValues P) (random_calls w)) as Hk.
  destruct (uuid_replace _ _ _) as [s k]. cbn [fst snd] in *.
  exists s. rewrite Hk.
  assert (Hm : matches_pattern uuid_v4_pattern s = true)
    by (apply Hfit; vm_compute; reflexivity).
  split; [reflexivity|]. split; [exact Hm|].
  by rewrite (matches_pattern_length _ _ Hm).
Qed.
End UuidFormat.

(** ** [copyToCanvas] and the configuration checks *)

Section Outcomes.
Variable P : Platform.

Lemma image_src_outcome (svgData : JSString) :
  is_js_string svgData = true ->
  (is_well_formed svgData = true -> exists src, image_src svgData = Ok src)
  /\ (is_well_formed svgData = false -> image_src svgData = Throw URIError).
Proof.
  intros Hunits%is_js_string_units. split; [|apply image_src_ill_formed].
  unfold is_well_formed. destruct (code_points svgData) as [cps|] eqn:Hcps; [|discriminate].
  intros _. apply code_points_decodes in Hcps as Hdec.
  destruct (unescape_encodeURIComponent _ _ Hdec Hunits) as (escaped & Hesc & Hun).
  unfold image_src. rewrite Hesc, Hun, btoa_octets; [eauto|].
  apply utf8_octets_all. by eapply decodes_scalar.
Qed.

(** X10: the outcome of [copyToCanvas] is decided by three things, in this
    order. Without a 2d context it throws [Could not get canvas context],
    whatever the markup. With a context and a serialization that has an
    unpaired surrogate it throws URIError. Otherwise it returns a promise
    that is fulfilled when the image loads, with a canvas scaled by [scale]
    on both axes (left unscaled when [scale] is NaN or an infinity) and the
    image source drawn once, and that stays pending when the image fails to
    load; it is never rejected. *)
Theorem copyToCanvas_outcome (source : Node) (scale : float) :
  is_js_string (serializeToString P source) = true ->
  match copyToCanvas P source scale with
  | Throw e =>
    if getContext2d P
    then is_well_formed (serializeToString P source) = false /\ e = URIError
    else e = Error "Could not get canvas context"
  | Ok promise =>
    getContext2d P = true /\ is_well_formed (serializeToString P source) = true /\
    exists src,
      image_src (serializeToString P source) = Ok src /\
      match load_image P src with
      | LoadSucceeds =>
        exists canvas, promise = Fulfilled canvas /\
                       context_scale canvas
                       = (if is_finite scale then (scale, scale) else (1%float, 1%float)) /\
                       drawn canvas = [src]
      | LoadFails => promise = Pending
      end
  end.
Proof.
  intros Hs. destruct (image_src_outcome _ Hs) as [Hok Hthrow].
  unfold copyToCanvas. destruct (getContext2d P); cbn [negb]; [|reflexivity].
  destruct (is_well_formed (serializeToString P source)) eqn:Hwf.
  - destruct (Hok eq_refl) as (src & ->). split; [reflexivity|]. split; [reflexivity|].
    exists src. split; [reflexivity|].
    destruct (load_image P src); [|reflexivity].
    unfold scale_context. rewrite andb_diag. destruct (is_finite scale); cbn; eauto.
  - rewrite (Hthrow eq_refl). done.
Qed.

(** The call has thrown in the [try] block: the [catch] follows
    [throwErrors], and the world differs by the random bytes drawn. *)
Ltac fails_after Hk :=
  unfold console_error_value, throw, ret;
  destruct (bound_throwErrors _); eexists; (split; [reflexivity|]); cbn;
  rewrite ?app_nil_r; repeat split; first [exact Hk | by rewrite Hk].

(** X11: the configuration checks run in a fixed order, each failing with an
    error of its own: the rendering callback first (before any random byte
    is drawn), then the injector root, whose message names [null] and not
    the selector, then the format, then the output. Each failure leaves the
    document as it was and follows [throwErrors]. *)
Theorem configuration_errors_in_order
        (el : JSXElement) (options : option RenderSvgAsImageOptions) (b : BoundOptions)
        (w : World) :
  bind_options options = Ok b ->
  match renderAsPromise w with
  | None =>
    configuration_error P el options b w
      (Error "You must call setDomRenderer before calling renderSvgAsImage") 0
  | Some _ =>
    match document_querySelector (bound_injectSelector b) (document w) with
    | None =>
      configuration_error P el options b w
        (Error "Could not find element with selector null") 31
    | Some _ =>
      if negb (includes ImageFormat_values (bound_format b))
      then configuration_error P el options b w
             (Error ("Invalid image format " ++ bound_format b)) 31
      else
        includes ImageOutput_values (bound_output b) = false ->
        configuration_error P el options b w
          (Error ("Invalid image output " ++ bound_output b)) 31
    end
  end.
Proof.
  intros Hb. unfold configuration_error, renderSvgAsImage. rewrite Hb. cbn [async_call].
  unfold async, renderSvgAsImage_body, try_catch, bind, uuidv4.
  destruct (renderAsPromise w) as [r|] eqn:Hr.
  - cbn [ret].
    pose proof (uuid_replace_counter uuid_template (getRandomValues P) (random_calls w)) as Hk.
    destruct (uuid_replace (getRandomValues P) (random_calls w) uuid_template) as [rid k].
    cbn [snd] in Hk. cbn [document set_random_calls].
    destruct (document_querySelector _ (document w)) as [root|] eqn:Hroot.
    + cbn [ret].
      destruct (includes ImageFormat_values _) eqn:Hfmt; cbn [negb].
      * intros Hout. rewrite Hout. cbn [ret throw]. fails_after Hk.
      * cbn [ret throw]. fails_after Hk.
    + cbn [throw]. fails_after Hk.
  - cbn [throw]. fails_after (Nat.add_0_r (random_calls w)).
Qed.
End Outcomes.

(** ** Elements of the document by identity *)

Section Document.

Lemma find_node_eq id n :
  find_node id n = if Nat.eqb (nid n) id then Some n else find_children id (children n).
Proof.
  destruct n as [i t a s cs]. cbn. destruct (Nat.eqb i id); [reflexivity|].
  induction cs as [|c cs IH]; [reflexivity|]. cbn. by rewrite IH.
Qed.

Lemma update_node_eq id f n :
  update_node id f n
  = if Nat.eqb (nid n) id then f n else with_children n (map (update_node id f) (children n)).
Proof.
  destruct n as [i t a s cs]. cbn. destruct (Nat.eqb i id); reflexivity.
Qed.

Lemma node_ids_eq n : node_ids n = nid n :: flat_map node_ids (children n).
Proof.
  unfold node_ids. f_equal. rewrite descendants_eq.
  induction (children n) as [|c cs IH]; [reflexivity|].
  cbn. rewrite map_app, IH. reflexivity.
Qed.

Lemma not_in_node_ids id n :
  id ∉ node_ids n -> nid n <> id /\ Forall (fun c => id ∉ node_ids c) (children n).
Proof.
  rewrite node_ids_eq. intros H. apply not_elem_of_cons in H as [Hne H]. split; [done|].
  apply Forall_forall. intros c Hc Hin. apply H.
  apply list_elem_of_In, in_flat_map. exists c. split; by apply list_elem_of_In.
Qed.

Lemma find_absent id n : id ∉ node_ids n -> find_node id n = None.
Proof.
  induction n as [n IH] using Node_ind'. intros [Hne Hcs]%not_in_node_ids.
  rewrite find_node_eq. apply Nat.eqb_neq in Hne. rewrite Hne.
  induction IH as [|c cs Hc _ IHcs]; [reflexivity|].
  inversion Hcs; subst. cbn. rewrite Hc by assumption. by apply IHcs.
Qed.

Lemma update_absent id f n : id ∉ node_ids n -> update_node id f n = n.
Proof.
  induction n as [n IH] using Node_ind'. intros [Hne Hcs]%not_in_node_ids.
  rewrite update_node_eq. apply Nat.eqb_neq in Hne. rewrite Hne.
  destruct n as [i t a s cs]. unfold with_children. cbn in *. f_equal.
  induction IH as [|c cs Hc _ IHcs]; [reflexivity|].
  inversion Hcs; subst. cbn. rewrite Hc by assumption. f_equal. by apply IHcs.
Qed.

Lemma find_present id n m :
  find_node id n = Some m -> nid m = id /\ m ∈ n :: descendants n.
Proof.
  revert m. induction n as [n IH] using Node_ind'. intros m.
  rewrite find_node_eq. destruct (Nat.eqb_spec (nid n) id) as [Heq|Hne].
  - intros [= <-]. split; [done | by left].
  - intros Hf. assert (nid m = id /\ exists c, c ∈ children n /\ m ∈ c :: descendants c).
    { induction IH as [|c cs Hc _ IHcs]; [discriminate|]. cbn in Hf.
      destruct (find_node id c) as [m'|] eqn:E.
      - injection Hf as ->. destruct (Hc m eq_refl) as [? ?]. split; [done|].
        exists c. split; [by left | done].
      - destruct (IHcs Hf) as (? & c' & ? & ?). split; [done|].
        exists c'. split; [by right | done]. }
    destruct H as (Hid & c & Hc & Hm). split; [done|]. right.
    apply elem_of_descendants. exists c. split; [done|].
    apply elem_of_cons in Hm as [->|Hm]; [by left | by right].
Qed.

Lemma find_present_id id n m : find_node id n = Some m -> id ∈ node_ids n.
Proof.
  intros [<- Hin]%find_present. unfold node_ids.
  apply elem_of_cons in Hin as [->|Hin]; [by left | right].
  by apply list_elem_of_fmap_2.
Qed.

Lemma find_none_absent id n : find_node id n = None -> id ∉ node_ids n.
Proof.
  induction n as [n IH] using Node_ind'. rewrite find_node_eq, node_ids_eq.
  destruct (Nat.eqb_spec (nid n) id) as [Heq|Hne]; [discriminate|].
  intros Hf. apply not_elem_of_cons. split; [done|].
  induction IH as [|c cs Hc _ IHcs]; cbn [flat_map]; [by apply not_elem_of_nil|].
  cbn [find_children] in Hf. destruct (find_node id c) eqn:E; [discriminate|].
  apply not_elem_of_app. split; [by apply Hc | by apply IHcs].
Qed.

(** Replacing the element [rid] and then looking for an identity that is new
    to the document looks inside the replacement. *)
Lemma find_in_replacement id rid R' n :
  id ∉ node_ids n ->
  find_node id (update_node rid (fun _ => R') n)
  = match find_node rid n with Some _ => find_node id R' | None => None end.
Proof.
  induction n as [n IH] using Node_ind'. intros [Hne Hcs]%not_in_node_ids.
  rewrite update_node_eq, (find_node_eq rid n).
  destruct (Nat.eqb_spec (nid n) rid) as [Heq|Hnr]; [reflexivity|].
  rewrite find_node_eq. cbn [nid children with_children].
  destruct n as [i t a s cs]. cbn in *. apply Nat.eqb_neq in Hne. rewrite Hne.
  induction IH as [|c cs Hc _ IHcs]; [reflexivity|].
  inversion Hcs as [|? ? Hcid Hcs']; subst. cbn.
  rewrite (Hc Hcid). destruct (find_node rid c) eqn:Ec.
  - destruct (find_node id R') eqn:ER; [reflexivity|].
    rewrite (IHcs Hcs'). by destruct (find_children rid cs).
  - by apply IHcs.
Qed.

Lemma find_replacement rid R R' n :
  find_node rid n = Some R -> nid R' = rid ->
  find_node rid (update_node rid (fun _ => R') n) = Some R'.
Proof.
  intros Hf HR'. revert Hf. induction n as [n IH] using Node_ind'.
  rewrite update_node_eq, (find_node_eq rid n).
  destruct (Nat.eqb_spec (nid n) rid) as [Heq|Hnr].
  - intros _. rewrite find_node_eq, HR', Nat.eqb_refl. reflexivity.
  - rewrite find_node_eq. destruct n as [i t a s cs]. cbn in *.
    apply Nat.eqb_neq in Hnr. rewrite Hnr.
    induction IH as [|c cs Hc _ IHcs]; [discriminate|]. cbn.
    destruct (find_node rid c) eqn:Ec.
    + intros [= ->]. by rewrite (Hc eq_refl).
    + intros Hf. rewrite (update_absent _ _ _ (find_none_absent _ _ Ec)), Ec. by apply IHcs.
Qed.

Lemma update_in_replacement id f rid R' n :
  id ∉ node_ids n ->
  update_node id f (update_node rid (fun _ => R') n)
  = update_node rid (fun _ => update_node id f R') n.
Proof.
  induction n as [n IH] using Node_ind'. intros [Hne Hcs]%not_in_node_ids.
  rewrite !(update_node_eq rid).
  destruct (Nat.eqb_spec (nid n) rid) as [Heq|Hnr]; [reflexivity|].
  rewrite update_node_eq. destruct n as [i t a s cs]. unfold with_children. cbn in *.
  apply Nat.eqb_neq in Hne. rewrite Hne. f_equal.
  induction IH as [|c cs Hc _ IHcs]; [reflexivity|].
  inversion Hcs; subst. cbn. rewrite Hc by assumption. f_equal. by apply IHcs.
Qed.

Lemma update_collapse rid X Y n :
  nid Y = rid ->
  update_node rid (fun _ => X) (update_node rid (fun _ => Y) n)
  = update_node rid (fun _ => X) n.
Proof.
  intros HY. induction n as [n IH] using Node_ind'.
  rewrite !(update_node_eq rid _ n).
  destruct (Nat.eqb_spec (nid n) rid) as [Heq|Hnr].
  - rewrite update_node_eq, HY, Nat.eqb_refl. reflexivity.
  - rewrite update_node_eq. destruct n as [i t a s cs]. unfold with_children. cbn in *.
    apply Nat.eqb_neq in Hnr. rewrite Hnr. f_equal.
    induction IH as [|c cs Hc _ IHcs]; [reflexivity|]. cbn. by rewrite Hc, IHcs.
Qed.

Lemma update_restore rid R n :
  unique_ids n -> find_node rid n = Some R -> update_node rid (fun _ => R) n = n.
Proof.
  induction n as [n IH] using Node_ind'. unfold unique_ids.
  rewrite node_ids_eq, update_node_eq, find_node_eq.
  destruct (Nat.eqb_spec (nid n) rid) as [Heq|Hnr]; [by intros _ [= ->]|].
  intros [_ Hu]%NoDup_cons Hf.
  assert (map (update_node rid (fun _ => R)) (children n) = children n) as ->;
    [|by destruct n].
  induction IH as [|c cs Hc _ IHcs]; [reflexivity|].
  cbn [flat_map map find_children] in *.
  apply NoDup_app in Hu as (Huc & Hdisj & Hucs).
  destruct (find_node rid c) eqn:Ec.
  - injection Hf as ->. rewrite (Hc Huc eq_refl). f_equal.
    assert (Habs : rid ∉ flat_map node_ids cs).
    { apply Hdisj. by eapply find_present_id. }
    clear -Habs. induction cs as [|c' cs IH]; [reflexivity|]. cbn [flat_map map] in *.
    apply not_elem_of_app in Habs as [H1 H2].
    by rewrite (update_absent _ _ _ H1), IH.
  - rewrite (update_absent _ _ _ (find_none_absent _ _ Ec)). f_equal. by apply IHcs.
Qed.

Lemma find_unique n : forall d,
  unique_ids n -> d ∈ n :: descendants n -> find_node (nid d) n = Some d.
Proof.
  induction n as [n IH] using Node_ind'. intros d. unfold unique_ids.
  rewrite node_ids_eq, find_node_eq. intros [Hn Hu]%NoDup_cons.
  intros [->|Hd]%elem_of_cons; [by rewrite Nat.eqb_refl|].
  apply elem_of_descendants in Hd as (c & Hc & Hd).
  assert (Hin : nid d ∈ flat_map node_ids (children n)).
  { apply list_elem_of_In, in_flat_map. exists c. split; [by apply list_elem_of_In|].
    apply list_elem_of_In. unfold node_ids.
    destruct Hd as [->|Hd]; [by left | right; by apply list_elem_of_fmap_2]. }
  destruct (Nat.eqb_spec (nid n) (nid d)) as [Heq|_]; [by rewrite Heq in Hn|].
  clear Hn Hin. induction IH as [|c0 cs Hc0 _ IHcs]; [by apply elem_of_nil in Hc|].
  cbn [flat_map find_children] in *. apply NoDup_app in Hu as (Hu0 & Hdisj & Hucs).
  apply elem_of_cons in Hc as [->|Hc].
  - rewrite Hc0; [done|done|]. destruct Hd as [->|Hd]; [by left | by right].
  - assert (Hlater : nid d ∈ flat_map node_ids cs).
    { apply list_elem_of_In, in_flat_map. exists c. split; [by apply list_elem_of_In|].
      apply list_elem_of_In. unfold node_ids.
      destruct Hd as [->|Hd]; [by left | right; by apply list_elem_of_fmap_2]. }
    rewrite find_absent; [by apply IHcs|]. intros Hin0. by apply (Hdisj _ Hin0).
Qed.

Lemma document_querySelector_elem sel doc R :
  document_querySelector sel doc = Some R -> R ∈ doc :: descendants doc.
Proof.
  unfold document_querySelector. intros H.
  assert (Hin : R ∈ map snd (filter (fun p => matches sel (fst p) (snd p) = true)
                                   ((0%nat, doc) :: located_descendants doc))).
  { destruct (map snd _) as [|x l]; [discriminate|]. injection H as ->. by left. }
  apply list_elem_of_fmap in Hin as ([i d] & -> & [_ Hd]%list_elem_of_filter). cbn.
  apply elem_of_cons in Hd as [[= _ ->]|Hd]; [by left | right].
  apply elem_of_descendants_located. eauto.
Qed.

(** Removing the container that was appended last, whatever was mounted in
    it meanwhile. *)
Lemma remove_appended renderId R C :
  (forall d, d ∈ descendants R -> ~ has_marker renderId d) ->
  has_marker renderId C -> nid C ∉ map nid (children R) ->
  removeInjectorContainer (appendChild R C) renderId
  = Ok (R, [ChildRemoved (nid R) (nid C)]).
Proof.
  intros Hfree HC Hfresh. unfold removeInjectorContainer.
  assert (Hmf : Forall (marker_free renderId) (children R)).
  { apply Forall_forall. intros c Hc. split.
    - apply Hfree, elem_of_descendants. eauto.
    - intros d Hd. apply Hfree, elem_of_descendants. eauto. }
  rewrite (querySelector_first_marker renderId (appendChild R C) (children R) C []
             eq_refl Hmf HC).
  rewrite (removeChild_unique (appendChild R C) (children R) C []);
    [| done | by rewrite app_nil_r].
  rewrite app_nil_r. by destruct R.
Qed.
End Document.

(** ** The paths of [renderSvgAsImage] *)

Section Runs.
Variable P : Platform.

Lemma find_appended id R C :
  id ∉ node_ids R -> nid C = id -> find_node id (appendChild R C) = Some C.
Proof.
  intros [Hne Hcs]%not_in_node_ids HC. rewrite find_node_eq.
  cbn [nid children appendChild with_children].
  apply Nat.eqb_neq in Hne. rewrite Hne.
  induction Hcs as [|c cs Hc _ IH]; cbn [app find_children].
  - rewrite find_node_eq, HC, Nat.eqb_refl. reflexivity.
  - by rewrite (find_absent _ _ Hc).
Qed.

Lemma find_in_appended id R C :
  id ∉ node_ids R -> find_node id (appendChild R C) = find_node id C.
Proof.
  intros [Hne Hcs]%not_in_node_ids. rewrite find_node_eq.
  cbn [nid children appendChild with_children].
  apply Nat.eqb_neq in Hne. rewrite Hne.
  induction Hcs as [|c cs Hc _ IH]; cbn [app find_children].
  - by destruct (find_node id C).
  - by rewrite (find_absent _ _ Hc).
Qed.

Lemma update_appended id f R C :
  id ∉ node_ids R ->
  update_node id f (appendChild R C) = appendChild R (update_node id f C).
Proof.
  intros [Hne Hcs]%not_in_node_ids. rewrite update_node_eq.
  cbn [nid children appendChild with_children].
  apply Nat.eqb_neq in Hne. rewrite Hne. unfold appendChild, with_children. cbn. f_equal.
  rewrite map_app. cbn. f_equal.
  induction Hcs as [|c cs Hc _ IH]; [reflexivity|]. cbn.
  by rewrite (update_absent _ _ _ Hc), IH.
Qed.

Lemma querySelector_svg_children n :
  querySelector [SelType "svg"] n = first_svg (children n).
Proof. unfold querySelector, querySelectorAll, first_svg. by rewrite located_descendants_eq. Qed.

Lemma find_node_ids_subset rid n R :
  find_node rid n = Some R -> forall x, x ∈ node_ids R -> x ∈ node_ids n.
Proof.
  induction n as [n IH] using Node_ind'. rewrite find_node_eq, (node_ids_eq n).
  destruct (Nat.eqb_spec (nid n) rid) as [_|_].
  - intros [= <-] x. by rewrite node_ids_eq.
  - intros Hf x Hx. right.
    induction IH as [|c cs Hc _ IHcs]; [discriminate|]. cbn [find_children flat_map] in *.
    apply elem_of_app. destruct (find_node rid c) eqn:Ec.
    + left. injection Hf as ->. by apply Hc.
    + right. by apply IHcs.
Qed.

Lemma on_element_found {A} id (f : Node -> result (Node * list Event * A)) w n n' evs a :
  find_node id (document w) = Some n -> f n = Ok (n', evs, a) ->
  on_element id f w
  = (Normal a, record_events evs (set_document (update_node id (fun _ => n') (document w)) w)).
Proof. intros Hf Hn. unfold on_element. by rewrite Hf, Hn. Qed.

Lemma normaliseSvg_in_returns id sels w n n' :
  find_node id (document w) = Some n ->
  normaliseSvg (getComputedStyle P) (style_set P) n sels = Returns n' ->
  normaliseSvg_in P id sels w
  = (Normal n', set_document (update_node id (fun _ => n') (document w)) w).
Proof. intros Hfind Hnorm. unfold normaliseSvg_in. by rewrite Hfind, Hnorm. Qed.

(** The call up to [await renderAsPromise(el, injectorContainer)]: the
    options are bound, the checks pass, the identifier is drawn and the
    container is appended to the injector root. *)
Ltac call_until_render w R Hb Hr He Hroot Hfmt Hout HR :=
  unfold renderSvgAsImage; rewrite Hb; cbn [async_call];
  unfold async, renderSvgAsImage_body, try_catch, bind, uuidv4;
  rewrite Hr; cbn [ret];
  let rid := fresh "rid" in
  let k := fresh "k" in
  let Eu := fresh "Eu" in
  destruct (uuid_replace (getRandomValues P) (random_calls w) uuid_template)
    as [rid k] eqn:Eu;
  cbn [document set_random_calls];
  assert (run_renderId P w = rid) by (unfold run_renderId; by rewrite Eu);
  rewrite Hroot; cbn [ret]; rewrite Hfmt, Hout; cbn [ret];
  unfold getInjectorContainer_in, createElement, bind;
  (erewrite (on_element_found (nid R) _ _ R); [|exact HR|reflexivity]);
  unfold call_renderer; rewrite He; subst rid.

(** Removing the container of the run from a world whose document is the
    original one with the container, whatever it holds by now, appended to
    the injector root: the original document is back. *)
Lemma removeInjectorContainer_in_restores w w1 R C :
  unique_ids (document w) -> find_node (nid R) (document w) = Some R ->
  (forall d, d ∈ descendants R -> ~ has_marker (run_renderId P w) d) ->
  next_nid w ∉ node_ids (document w) ->
  has_marker (run_renderId P w) C -> nid C = next_nid w ->
  document w1 = update_node (nid R) (fun _ => appendChild R C) (document w) ->
  removeInjectorContainer_in (nid R) (run_renderId P w) w1
  = (Normal tt,
     record_events [ChildRemoved (nid R) (next_nid w)] (set_document (document w) w1)).
Proof.
  intros Hu HR Hfree Hfresh HC HnC Hdoc. unfold removeInjectorContainer_in.
  assert (Hch : nid C ∉ map nid (children R)).
  { rewrite HnC. intros Hin. apply Hfresh.
    apply list_elem_of_fmap in Hin as (c & Hc & Hcin).
    rewrite Hc.
    apply (find_node_ids_subset _ _ _ HR). unfold node_ids. right.
    apply list_elem_of_fmap_2, elem_of_descendants. eauto. }
  erewrite on_element_found; cycle 1.
  - rewrite Hdoc. apply (find_replacement _ R); [assumption | reflexivity].
  - rewrite (remove_appended _ R C Hfree HC Hch). rewrite HnC. reflexivity.
  - rewrite Hdoc, update_collapse by reflexivity. rewrite update_restore by assumption.
    reflexivity.
Qed.

(** X12: when the rendering callback rejects, the container is removed again:
    the document is exactly as before the call, the trace holds the append,
    the removal and the console message, and the rejection is passed on, or
    logged and turned into the empty string when [throwErrors] is false. *)
Theorem render_rejection_restores_document
        (el : JSXElement) (options : option RenderSvgAsImageOptions) (b : BoundOptions)
        (w : World) (r : RenderAsPromise) (e : JSError) (R : Node) :
  bind_options options = Ok b ->
  renderAsPromise w = Some r -> r el = RenderRejects e ->
  ready_to_render P w b R ->
  exists w',
    renderSvgAsImage P el options w
    = (if bound_throwErrors b then Rejected e else Fulfilled (OutString ""), w')
    /\ document w' = document w
    /\ trace w' = trace w ++ [ChildAppended (nid R) (next_nid w);
                              ChildRemoved (nid R) (next_nid w);
                              ConsoleError "Failed to render element"]
                          ++ (if bound_throwErrors b then [] else [ConsoleErrorValue e]).
Proof.
  intros Hb Hr He (Hroot & Hfmt & Hout & Hu & Hfresh & Hfree).
  pose proof (find_unique _ _ Hu (document_querySelector_elem _ _ _ Hroot)) as HR.
  call_until_render w R Hb Hr He Hroot Hfmt Hout HR.
  cbn [throw].
  erewrite (removeInjectorContainer_in_restores w _ R);
    try eassumption; try reflexivity.
  all: try reflexivity. all: try (by apply lookup_singleton_eq).
  unfold console_error, console_error_value, throw, ret.
  destruct (bound_throwErrors b); eexists; (split; [reflexivity|]); cbn;
    (split; [reflexivity|]); by rewrite <- !app_assoc.
Qed.

(** Mounting into the container that was just appended. *)
Lemma mount_document doc R C C' cid :
  find_node (nid R) doc = Some R -> cid ∉ node_ids doc -> nid C = cid ->
  update_node cid (fun _ => C') (update_node (nid R) (fun _ => appendChild R C) doc)
  = update_node (nid R) (fun _ => appendChild R C') doc.
Proof.
  intros HR Hfresh HC. rewrite update_in_replacement by assumption.
  rewrite update_appended.
  - rewrite (update_node_eq _ _ C), HC, Nat.eqb_refl. reflexivity.
  - intros Hin. apply Hfresh. by eapply find_node_ids_subset.
Qed.

Lemma find_container doc R C cid :
  find_node (nid R) doc = Some R -> cid ∉ node_ids doc -> nid C = cid ->
  find_node cid (update_node (nid R) (fun _ => appendChild R C) doc) = Some C.
Proof.
  intros HR Hfresh HC. rewrite find_in_replacement, HR by assumption.
  apply find_appended; [|assumption].
  intros Hin. apply Hfresh. by eapply find_node_ids_subset.
Qed.

(** The rendering callback has resolved: the content is mounted in the
    container and [injectorContainer.querySelector("svg")] is answered. *)
Ltac mount_content w R content Hsvg Hfresh HR :=
  let C := fresh "C" in
  set (C := snd (getInjectorContainer (style_set P) (next_nid w) R (run_renderId P w)));
  (erewrite (on_element_found (next_nid w) _ _ C);
     [|exact (find_container (document w) R C _ HR Hfresh eq_refl)|reflexivity]);
  cbn [document next_nid set_document record_events set_next_nid set_random_calls
       getInjectorContainer fst snd nid];
  rewrite (mount_document (document w) R C _ _ HR Hfresh eq_refl);
  rewrite (find_container (document w) R (with_children C content) _ HR Hfresh eq_refl);
  rewrite querySelector_svg_children; cbn [children with_children]; rewrite Hsvg.

(** X13: when the rendering callback resolves but has mounted no [svg], the
    container is removed: the document is exactly as before the call, and
    the error "Could not find a rendered SVG" is passed on, or logged and
    turned into the empty string when [throwErrors] is false. *)
Theorem missing_svg_restores_document
        (el : JSXElement) (options : option RenderSvgAsImageOptions) (b : BoundOptions)
        (w : World) (r : RenderAsPromise) (content : list Node) (R : Node) :
  bind_options options = Ok b ->
  renderAsPromise w = Some r -> r el = RenderResolves content ->
  querySelector [SelType "svg"] (mounted_container P w R content) = None ->
  ready_to_render P w b R ->
  exists w',
    renderSvgAsImage P el options w
    = (if bound_throwErrors b then Rejected (Error "Could not find a rendered SVG")
       else Fulfilled (OutString ""), w')
    /\ document w' = document w
    /\ trace w' = trace w ++ [ChildAppended (nid R) (next_nid w);
                              ChildRemoved (nid R) (next_nid w)]
                          ++ (if bound_throwErrors b then []
                              else [ConsoleErrorValue (Error "Could not find a rendered SVG")]).
Proof.
  intros Hb Hr He Hsvg (Hroot & Hfmt & Hout & Hu & Hfresh & Hfree).
  rewrite querySelector_svg_children in Hsvg.
  unfold mounted_container in Hsvg. cbn [children with_children] in Hsvg.
  pose proof (find_unique _ _ Hu (document_querySelector_elem _ _ _ Hroot)) as HR.
  call_until_render w R Hb Hr He Hroot Hfmt Hout HR.
  mount_content w R content Hsvg Hfresh HR.
  erewrite (removeInjectorContainer_in_restores w _ R (with_children C content));
    try eassumption; try reflexivity.
  all: try reflexivity. all: try (by apply lookup_singleton_eq).
  unfold console_error, console_error_value, throw, ret.
  destruct (bound_throwErrors b); eexists; (split; [reflexivity|]); cbn;
    (split; [reflexivity|]); by rewrite <- !app_assoc.
Qed.

Lemma first_svg_elem content svg C :
  first_svg content = Some svg -> svg ∈ descendants (with_children C content).
Proof.
  intros H. apply elem_of_descendants_located.
  rewrite located_descendants_eq. cbn [children with_children].
  unfold first_svg in H.
  assert (Hin : svg ∈ map snd (filter (fun p => matches [SelType "svg"] (fst p) (snd p) = true)
                                     (located_children 0 content))).
  { destruct (map snd _) as [|x l]; [discriminate|]. injection H as ->. by left. }
  apply list_elem_of_fmap in Hin as ([i d] & -> & [_ Hd]%list_elem_of_filter). eauto.
Qed.

Lemma descendant_ids_eq n : map nid (descendants n) = flat_map node_ids (children n).
Proof. pose proof (node_ids_eq n) as E. unfold node_ids in E at 1. by injection E. Qed.

(** The rendered [svg] is found by its identity in the document with the
    mounted container. *)
Lemma find_rendered w R C content svg :
  find_node (nid R) (document w) = Some R -> fresh_content w content ->
  nid C = next_nid w -> first_svg content = Some svg ->
  (nid svg ∉ node_ids (document w)) /\ nid svg <> next_nid w /\
  find_node (nid svg)
            (update_node (nid R) (fun _ => appendChild R (with_children C content)) (document w))
  = Some svg.
Proof.
  intros HR [Hnd Hnew] HC Hsvg.
  pose proof (first_svg_elem _ _ C Hsvg) as Hin.
  assert (Hids : nid svg ∈ flat_map node_ids content).
  { change content with (children (with_children C content)) at 1.
    rewrite <- descendant_ids_eq. by apply list_elem_of_fmap_2. }
  pose proof (Hnew _ Hids) as Hdoc.
  split; [exact Hdoc|]. split.
  { intros Heq. apply NoDup_cons in Hnd as [Hn _]. apply Hn. by rewrite <- Heq. }
  rewrite find_in_replacement, HR by assumption.
  rewrite find_in_appended by (intros Hx; apply Hdoc; by eapply find_node_ids_subset).
  apply find_unique; [|by right].
  unfold unique_ids. rewrite node_ids_eq. cbn [nid children with_children].
  by rewrite HC.
Qed.

Lemma update_node_other id f n :
  nid n <> id ->
  nid (update_node id f n) = nid n /\ attributes (update_node id f n) = attributes n.
Proof.
  intros Hne. rewrite update_node_eq. apply Nat.eqb_neq in Hne. rewrite Hne.
  by destruct n.
Qed.

(** Normalising the rendered element in place changes the mounted container
    only. *)
Lemma normalised_document doc R C id svg' :
  find_node (nid R) doc = Some R -> id ∉ node_ids doc ->
  update_node id (fun _ => svg') (update_node (nid R) (fun _ => appendChild R C) doc)
  = update_node (nid R) (fun _ => appendChild R (update_node id (fun _ => svg') C)) doc.
Proof.
  intros HR Hid. rewrite update_in_replacement by assumption.
  rewrite update_appended; [reflexivity|].
  intros Hx. apply Hid. by eapply find_node_ids_subset.
Qed.

(** [normaliseSvg] on the rendered element, then [copyToCanvas], whose
    outcome is [Hcanvas]. *)
Ltac normalise_and_copy w R content svg svg' Hsvg Hcontent Hnorm Hcanvas HR :=
  let Hsdoc := fresh "Hsdoc" in
  let Hsc := fresh "Hsc" in
  let Hfind := fresh "Hfind" in
  destruct (find_rendered w R
                          (snd (getInjectorContainer (style_set P) (next_nid w) R
                                                     (run_renderId P w)))
                          content svg HR Hcontent eq_refl Hsvg)
    as (Hsdoc & Hsc & Hfind);
  (erewrite (normaliseSvg_in_returns (nid svg) _ _ svg); [|exact Hfind|exact Hnorm]);
  rewrite Hcanvas; cbn [lift ret await throw];
  cbn [document next_nid set_document record_events set_next_nid set_random_calls];
  rewrite (normalised_document (document w) R _ _ svg' HR Hsdoc).

(** X14: when the rendering callback mounts an [svg] and the rasterization
    succeeds, the outcome of the call is the promise of [toOutput] as it is,
    fulfilled or rejected, whatever [throwErrors] says; the container is
    appended once and removed once, and the document is exactly as before
    the call. *)
Theorem successful_run_restores_document
        (el : JSXElement) (options : option RenderSvgAsImageOptions) (b : BoundOptions)
        (w : World) (r : RenderAsPromise) (content : list Node) (R svg svg' : Node)
        (canvas : Canvas) :
  bind_options options = Ok b ->
  renderAsPromise w = Some r -> r el = RenderResolves content ->
  querySelector [SelType "svg"] (mounted_container P w R content) = Some svg ->
  fresh_content w content ->
  ready_to_render P w b R ->
  normaliseSvg (getComputedStyle P) (style_set P) svg (bound_ignoreAllSelectors b) = Returns svg' ->
  copyToCanvas P svg' (bound_scale b) = Ok (Fulfilled canvas) ->
  exists w',
    renderSvgAsImage P el options w
    = (toOutput P canvas (bound_output b) (bound_format b) (bound_quality b), w')
    /\ document w' = document w
    /\ trace w' = trace w ++ [ChildAppended (nid R) (next_nid w);
                              ChildRemoved (nid R) (next_nid w)].
Proof.
  intros Hb Hr He Hsvg Hcontent (Hroot & Hfmt & Hout & Hu & Hfresh & Hfree) Hnorm Hcanvas.
  rewrite querySelector_svg_children in Hsvg.
  unfold mounted_container in Hsvg. cbn [children with_children] in Hsvg.
  pose proof (find_unique _ _ Hu (document_querySelector_elem _ _ _ Hroot)) as HR.
  call_until_render w R Hb Hr He Hroot Hfmt Hout HR.
  mount_content w R content Hsvg Hfresh HR.
  normalise_and_copy w R content svg svg' Hsvg Hcontent Hnorm Hcanvas HR.
  erewrite (removeInjectorContainer_in_restores w _ R
              (update_node (nid svg) (fun _ => svg') (with_children C content)));
    try eassumption; try reflexivity.
  - cbn [ret]. eexists. split; [reflexivity|]. cbn. split; [reflexivity|].
    by rewrite <- !app_assoc.
  - unfold has_marker.
    rewrite (proj2 (update_node_other (nid svg) (fun _ => svg') (with_children C content)
                      (fun H => Hsc (eq_sym H)))).
    by apply lookup_singleton_eq.
  - apply (update_node_other (nid svg) (fun _ => svg') (with_children C content)).
    intros H. by apply Hsc.
Qed.

(** X15: when [copyToCanvas] throws (no 2d context, or a markup that cannot be
    encoded), nothing removes the container: the call rejects with the error
    (or logs it and resolves with the empty string), and the document is the
    original one with the container, and the rendered content in it, under
    the injector root. No removal is recorded. *)
Theorem rasterization_throw_keeps_container
        (el : JSXElement) (options : option RenderSvgAsImageOptions) (b : BoundOptions)
        (w : World) (r : RenderAsPromise) (content : list Node) (R svg svg' : Node)
        (e : JSError) :
  bind_options options = Ok b ->
  renderAsPromise w = Some r -> r el = RenderResolves content ->
  querySelector [SelType "svg"] (mounted_container P w R content) = Some svg ->
  fresh_content w content ->
  ready_to_render P w b R ->
  normaliseSvg (getComputedStyle P) (style_set P) svg (bound_ignoreAllSelectors b) = Returns svg' ->
  copyToCanvas P svg' (bound_scale b) = Throw e ->
  exists w',
    renderSvgAsImage P el options w
    = (if bound_throwErrors b then Rejected e else Fulfilled (OutString ""), w')
    /\ document w' = left_mounted P w R content svg svg'
    /\ trace w' = trace w ++ [ChildAppended (nid R) (next_nid w)]
                          ++ (if bound_throwErrors b then [] else [ConsoleErrorValue e]).
Proof.
  intros Hb Hr He Hsvg Hcontent (Hroot & Hfmt & Hout & Hu & Hfresh & Hfree) Hnorm Hcanvas.
  rewrite querySelector_svg_children in Hsvg.
  unfold mounted_container in Hsvg. cbn [children with_children] in Hsvg.
  pose proof (find_unique _ _ Hu (document_querySelector_elem _ _ _ Hroot)) as HR.
  call_until_render w R Hb Hr He Hroot Hfmt Hout HR.
  mount_content w R content Hsvg Hfresh HR.
  normalise_and_copy w R content svg svg' Hsvg Hcontent Hnorm Hcanvas HR.
  unfold console_error_value, throw, ret.
  destruct (bound_throwErrors b); eexists; (split; [reflexivity|]); cbn;
    (split; [reflexivity|]); by rewrite <- ?app_assoc, ?app_nil_r.
Qed.

(** X16: when the image never loads, the promise of [copyToCanvas] stays
    pending and so does the call: it neither resolves nor rejects, whatever
    [throwErrors] says, and the container stays in the document. *)
Theorem pending_load_keeps_container
        (el : JSXElement) (options : option RenderSvgAsImageOptions) (b : BoundOptions)
        (w : World) (r : RenderAsPromise) (content : list Node) (R svg svg' : Node) :
  bind_options options = Ok b ->
  renderAsPromise w = Some r -> r el = RenderResolves content ->
  querySelector [SelType "svg"] (mounted_container P w R content) = Some svg ->
  fresh_content w content ->
  ready_to_render P w b R ->
  normaliseSvg (getComputedStyle P) (style_set P) svg (bound_ignoreAllSelectors b) = Returns svg' ->
  copyToCanvas P svg' (bound_scale b) = Ok Pending ->
  exists w',
    renderSvgAsImage P el options w = (Pending, w')
    /\ document w' = left_mounted P w R content svg svg'
    /\ trace w' = trace w ++ [ChildAppended (nid R) (next_nid w)].
Proof.
  intros Hb Hr He Hsvg Hcontent (Hroot & Hfmt & Hout & Hu & Hfresh & Hfree) Hnorm Hcanvas.
  rewrite querySelector_svg_children in Hsvg.
  unfold mounted_container in Hsvg. cbn [children with_children] in Hsvg.
  pose proof (find_unique _ _ Hu (document_querySelector_elem _ _ _ Hroot)) as HR.
  call_until_render w R Hb Hr He Hroot Hfmt Hout HR.
  mount_content w R content Hsvg Hfresh HR.
  normalise_and_copy w R content svg svg' Hsvg Hcontent Hnorm Hcanvas HR.
  eexists; (split; [reflexivity|]); cbn; (split; [reflexivity|]);
    by rewrite <- ?app_assoc, ?app_nil_r.
Qed.

(** X17: when the promise of the rendering callback never settles, the call
    stays pending with the empty container in the document. *)
Theorem pending_renderer_keeps_container
        (el : JSXElement) (options : option RenderSvgAsImageOptions) (b : BoundOptions)
        (w : World) (r : RenderAsPromise) (R : Node) :
  bind_options options = Ok b ->
  renderAsPromise w = Some r -> r el = RenderNeverSettles ->
  ready_to_render P w b R ->
  exists w',
    renderSvgAsImage P el options w = (Pending, w')
    /\ document w'
       = update_node (nid R) (fun _ => appendChild R (mounted_container P w R []))
                     (document w)
    /\ trace w' = trace w ++ [ChildAppended (nid R) (next_nid w)].
Proof.
  intros Hb Hr He (Hroot & Hfmt & Hout & Hu & Hfresh & Hfree).
  pose proof (find_unique _ _ Hu (document_querySelector_elem _ _ _ Hroot)) as HR.
  call_until_render w R Hb Hr He Hroot Hfmt Hout HR.
  cbn [await].
  eexists; (split; [reflexivity|]); cbn; (split; [reflexivity|]);
    by rewrite <- ?app_assoc, ?app_nil_r.
Qed.


End Runs.

(** ** Instances on the sample data *)

Lemma sample_world_ready P r o b :
  bind_options (Some o) = Ok b ->
  injectSelector o = None -> format o = None ->
  includes ImageOutput_values (bound_output b) = true ->
  ready_to_render P (sample_world r) b sample_body.
Proof.
  intros [= <-] Hsel Hfmt Hout. cbn in *. rewrite Hsel, Hfmt.
  split; [reflexivity|]. split; [reflexivity|]. split; [exact Hout|].
  split; [unfold unique_ids; by compute_done|]. split; [by compute_done|].
  intros d Hd. vm_compute in Hd. by apply elem_of_nil in Hd.
Qed.

Lemma sample_content_fresh r : fresh_content (sample_world r) [sample_svg].
Proof.
  split; [by compute_done|].
  intros x Hx. vm_compute in Hx.
  repeat (apply elem_of_cons in Hx as [->|Hx]; [by compute_done|]).
  by apply elem_of_nil in Hx.
Qed.

Lemma render_rejection_restores_document_witness :
  exists w',
    renderSvgAsImage (sample_platform true LoadSucceeds (Some sample_blob)) sample_element
                     (Some (sample_options DATA_URL 2 false))
                     (sample_world (fun _ => RenderRejects (RendererError "boom")))
    = (Fulfilled (OutString ""), w')
    /\ document w' = sample_document
    /\ trace w' = [ChildAppended 1 100; ChildRemoved 1 100;
                   ConsoleError "Failed to render element";
                   ConsoleErrorValue (RendererError "boom")].
Proof.
  eapply (render_rejection_restores_document
            (sample_platform true LoadSucceeds (Some sample_blob)) sample_element
            (Some (sample_options DATA_URL 2 false)) (sample_bound DATA_URL 2 false)
            (sample_world (fun _ => RenderRejects (RendererError "boom")))
            _ (RendererError "boom") sample_body);
    [reflexivity | reflexivity | reflexivity |].
  by apply (sample_world_ready _ _ (sample_options DATA_URL 2 false)
              (sample_bound DATA_URL 2 false)).
Defined.

Lemma missing_svg_restores_document_witness :
  exists w',
    renderSvgAsImage (sample_platform true LoadSucceeds (Some sample_blob)) sample_element
                     (Some (sample_options DATA_URL 2 true))
                     (sample_world (fun _ => RenderResolves [sample_circle]))
    = (Rejected (Error "Could not find a rendered SVG"), w')
    /\ document w' = sample_document
    /\ trace w' = [ChildAppended 1 100; ChildRemoved 1 100].
Proof.
  eapply (missing_svg_restores_document
            (sample_platform true LoadSucceeds (Some sample_blob)) sample_element
            (Some (sample_options DATA_URL 2 true)) (sample_bound DATA_URL 2 true)
            (sample_world (fun _ => RenderResolves [sample_circle]))
            _ [sample_circle] sample_body);
    [reflexivity | reflexivity | reflexivity | vm_compute; reflexivity |].
  by apply (sample_world_ready _ _ (sample_options DATA_URL 2 true)
              (sample_bound DATA_URL 2 true)).
Defined.

Lemma successful_run_restores_document_witness :
  exists svg' canvas,
    normaliseSvg (getComputedStyle (sample_platform true LoadSucceeds None))
                 (style_set (sample_platform true LoadSucceeds None)) sample_svg []
    = Returns svg' /\
    copyToCanvas (sample_platform true LoadSucceeds None) svg' 2 = Ok (Fulfilled canvas) /\
    exists w',
      renderSvgAsImage (sample_platform true LoadSucceeds None) sample_element
                       (Some (sample_options BLOB 2 false)) (sample_world sample_renderer)
      = (Rejected (Error "Could not convert canvas to blob"), w')
      /\ document w' = sample_document
      /\ trace w' = [ChildAppended 1 100; ChildRemoved 1 100].
Proof.
  eexists _, _. split; [vm_compute; reflexivity|]. split; [vm_compute; reflexivity|].
  eapply (successful_run_restores_document
            (sample_platform true LoadSucceeds None) sample_element
            (Some (sample_options BLOB 2 false)) (sample_bound BLOB 2 false)
            (sample_world sample_renderer) _ [sample_svg] sample_body sample_svg);
    [reflexivity | reflexivity | reflexivity | vm_compute; reflexivity
     | apply sample_content_fresh
     | by apply (sample_world_ready _ _ (sample_options BLOB 2 false)
                   (sample_bound BLOB 2 false))
     | vm_compute; reflexivity | vm_compute; reflexivity].
Defined.

Lemma rasterization_throw_keeps_container_witness :
  exists svg',
    normaliseSvg (getComputedStyle (sample_platform false LoadSucceeds None))
                 (style_set (sample_platform false LoadSucceeds None)) sample_svg []
    = Returns svg' /\
    exists w',
      renderSvgAsImage (sample_platform false LoadSucceeds None) sample_element
                       (Some (sample_options DATA_URL 2 true)) (sample_world sample_renderer)
      = (Rejected (Error "Could not get canvas context"), w')
      /\ document w'
         = left_mounted (sample_platform false LoadSucceeds None)
                        (sample_world sample_renderer) sample_body [sample_svg] sample_svg svg'
      /\ trace w' = [ChildAppended 1 100].
Proof.
  eexists. split; [vm_compute; reflexivity|].
  eapply (rasterization_throw_keeps_container
            (sample_platform false LoadSucceeds None) sample_element
            (Some (sample_options DATA_URL 2 true)) (sample_bound DATA_URL 2 true)
            (sample_world sample_renderer) _ [sample_svg] sample_body sample_svg);
    [reflexivity | reflexivity | reflexivity | vm_compute; reflexivity
     | apply sample_content_fresh
     | by apply (sample_world_ready _ _ (sample_options DATA_URL 2 true)
                   (sample_bound DATA_URL 2 true))
     | vm_compute; reflexivity | vm_compute; reflexivity].
Defined.

Lemma pending_load_keeps_container_witness :
  exists svg',
    normaliseSvg (getComputedStyle (sample_platform true LoadFails None))
                 (style_set (sample_platform true LoadFails None)) sample_svg []
    = Returns svg' /\
    exists w',
      renderSvgAsImage (sample_platform true LoadFails None) sample_element
                       (Some (sample_options DATA_URL 2 false)) (sample_world sample_renderer)
      = (Pending, w')
      /\ document w'
         = left_mounted (sample_platform true LoadFails None)
                        (sample_world sample_renderer) sample_body [sample_svg] sample_svg svg'
      /\ trace w' = [ChildAppended 1 100].
Proof.
  eexists. split; [vm_compute; reflexivity|].
  eapply (pending_load_keeps_container
            (sample_platform true LoadFails None) sample_element
            (Some (sample_options DATA_URL 2 false)) (sample_bound DATA_URL 2 false)
            (sample_world sample_renderer) _ [sample_svg] sample_body sample_svg);
    [reflexivity | reflexivity | reflexivity | vm_compute; reflexivity
     | apply sample_content_fresh
     | by apply (sample_world_ready _ _ (sample_options DATA_URL 2 false)
                   (sample_bound DATA_URL 2 false))
     | vm_compute; reflexivity | vm_compute; reflexivity].
Defined.

Lemma pending_renderer_keeps_container_witness :
  exists w',
    renderSvgAsImage (sample_platform true LoadSucceeds None) sample_element
                     (Some (sample_options DATA_URL 2 true))
                     (sample_world (fun _ => RenderNeverSettles))
    = (Pending, w')
    /\ document w'
       = mkNode 0 "html" ∅ ∅
           [mkNode 1 "body" ∅ ∅
              [mounted_container (sample_platform true LoadSucceeds None)
                                 (sample_world (fun _ => RenderNeverSettles))
                                 sample_body []]]
    /\ trace w' = [ChildAppended 1 100].
Proof.
  eapply (pending_renderer_keeps_container
            (sample_platform true LoadSucceeds None) sample_element
            (Some (sample_options DATA_URL 2 true)) (sample_bound DATA_URL 2 true)
            (sample_world (fun _ => RenderNeverSettles)) _ sample_body);
    [reflexivity | reflexivity | reflexivity |].
  by apply (sample_world_ready _ _ (sample_options DATA_URL 2 true)
              (sample_bound DATA_URL 2 true)).
Defined.

Lemma configuration_errors_in_order_witness :
  configuration_error (sample_platform true LoadSucceeds None) sample_element
    (Some (sample_options DATA_URL 2 true)) (sample_bound DATA_URL 2 true) sample_page
    (Error "You must call setDomRenderer before calling renderSvgAsImage") 0
  /\ configuration_error (sample_platform true LoadSucceeds None) sample_element
       (Some (sample_options "svg" 2 false)) (sample_bound "svg" 2 false)
       (sample_world sample_renderer)
       (Error "Invalid image output svg") 31.
Proof.
  split.
  - exact (configuration_errors_in_order (sample_platform true LoadSucceeds None)
             sample_element (Some (sample_options DATA_URL 2 true))
             (sample_bound DATA_URL 2 true) sample_page eq_refl).
  - exact (configuration_errors_in_order (sample_platform true LoadSucceeds None)
             sample_element (Some (sample_options "svg" 2 false))
             (sample_bound "svg" 2 false) (sample_world sample_renderer) eq_refl eq_refl).
Defined.

Lemma copyToCanvas_outcome_witness :
  is_js_string (serializeToString (sample_platform_serializing svg_text_lone_surrogate)
                                  sample_svg) = true /\
  match copyToCanvas (sample_platform_serializing svg_text_lone_surrogate) sample_svg 2 with
  | Throw e =>
    if getContext2d (sample_platform_serializing svg_text_lone_surrogate)
    then is_well_formed (serializeToString
                           (sample_platform_serializing svg_text_lone_surrogate) sample_svg)
         = false /\ e = URIError
    else e = Error "Could not get canvas context"
  | Ok promise =>
    getContext2d (sample_platform_serializing svg_text_lone_surrogate) = true /\
    is_well_formed (serializeToString
                      (sample_platform_serializing svg_text_lone_surrogate) sample_svg)
    = true /\
    exists src,
      image_src (serializeToString
                   (sample_platform_serializing svg_text_lone_surrogate) sample_svg)
      = Ok src /\
      match load_image (sample_platform_serializing svg_text_lone_surrogate) src with
      | LoadSucceeds =>
        exists canvas, promise = Fulfilled canvas /\
                       context_scale canvas = (2%float, 2%float) /\ drawn canvas = [src]
      | LoadFails => promise = Pending
      end
  end.
Proof.
  split; [reflexivity|].
  apply (copyToCanvas_outcome (sample_platform_serializing svg_text_lone_surrogate)
                              sample_svg 2).
  reflexivity.
Defined.

(** The rendered circle copied onto an element without children: the call
    throws when it comes to the missing child, after it has assigned the
    style of the root. *)
Lemma inlineStyles_succeeds_iff_covers_witness :
  covers sample_svg sample_circle = false /\
  (exists target',
      inlineStyles sample_computed verbatim_setter sample_svg sample_circle
      = Throws undefined_style_error target') /\
  (forall e target',
      inlineStyles sample_computed verbatim_setter sample_svg sample_circle = Throws e target' ->
      style target' !! "fill" = Some "red").
Proof.
  split; [reflexivity|]. split.
  - apply (inlineStyles_succeeds_iff_covers sample_computed verbatim_setter
                                            sample_svg sample_circle).
    intros n. by apply Exists_cons_hd.
  - intros e target' [= _ <-]. reflexivity.
Defined.

Lemma inlineStyles_frame_witness :
  exists target',
    inlineStyles sample_computed verbatim_setter sample_circle sample_svg = Returns target' /\
    forall path t,
      node_at path sample_svg = Some t ->
      exists t', node_at path target' = Some t' /\
                 nid t' = nid t /\ tagName t' = tagName t /\
                 attributes t' = attributes t /\
                 length (children t') = length (children t) /\
                 (node_at path sample_circle = None -> t' = t).
Proof.
  eexists. split; [reflexivity|].
  apply (inlineStyles_frame sample_computed verbatim_setter sample_circle sample_svg).
  reflexivity.
Defined.

Lemma inlineStyles_idempotent_witness :
  exists target',
    inlineStyles sample_computed verbatim_setter sample_svg sample_svg = Returns target' /\
    inlineStyles sample_computed verbatim_setter sample_svg target' = Returns target'.
Proof.
  eexists. split; [reflexivity|].
  apply (inlineStyles_idempotent sample_computed sample_svg sample_svg).
  reflexivity.
Defined.

Lemma selected_elements_are_removed_witness :
  mkNode 2 "rect" ∅ ∅ [] ∈ querySelectorAll [SelType "rect"; SelNthChild 1] svg_group_of_rect
  /\ (2%nat ∉ nid <$> descendants
                        (remove_ignored svg_group_of_rect [[SelType "rect"; SelNthChild 1]])).
Proof.
  assert (H : mkNode 2 "rect" ∅ ∅ []
              ∈ querySelectorAll [SelType "rect"; SelNthChild 1] svg_group_of_rect)
    by (vm_compute; by left).
  split; [exact H|].
  exact (selected_elements_are_removed svg_group_of_rect [SelType "rect"; SelNthChild 1]
           (mkNode 2 "rect" ∅ ∅ []) H).
Defined.

Lemma removal_idempotent_local_witness :
  unique_ids svg_group_of_rect /\
  remove_ignored (remove_ignored svg_group_of_rect [[SelType "rect"]; [SelHasAttr "hidden"]])
                 [[SelType "rect"]; [SelHasAttr "hidden"]]
  = remove_ignored svg_group_of_rect [[SelType "rect"]; [SelHasAttr "hidden"]].
Proof.
  assert (Hu : unique_ids svg_group_of_rect).
  { unfold unique_ids. by compute_done. }
  split; [exact Hu|].
  apply (removal_idempotent_local svg_group_of_rect
           [[SelType "rect"]; [SelHasAttr "hidden"]] Hu).
  repeat constructor.
Defined.

Lemma image_src_is_base64_witness :
  exists src b64,
    image_src svg_text_non_ascii = Ok src /\
    src = svg_data_uri_prefix ++ b64 /\
    Forall (fun u => is_base64_unit u = true) b64 /\
    (Z.of_nat (length b64) mod 4 = 0).
Proof.
  eexists. 
  assert (H : image_src svg_text_non_ascii
              = Ok (svg_data_uri_prefix
                    ++ base64_encode (unescape (match encodeURIComponent svg_text_non_ascii with
                                                | Ok e => e | Throw _ => [] end))))
    by reflexivity.
  destruct (image_src_is_base64 _ _ H) as (b64 & Heq & Hall & Hlen).
  exists b64. split; [exact H|]. split; [exact Heq|]. split; [exact Hall | exact Hlen].
Defined.

